(** * stream_recorder_to_s3: camera stream recording to an S3 bucket

    A shallow embedding of
      custom_components/stream_recorder_to_s3/switch.py
      custom_components/stream_recorder_to_s3/config_flow.py
      custom_components/stream_recorder_to_s3/__init__.py
    and the properties of the recording pipeline, of the config flow and of
    the set-up proved over it.

    The recorder talks to two outside parties, the S3 client and the ffmpeg
    subprocess, and is steered by the event loop (turn_on / turn_off).  The
    answers of the outside parties and the moments at which a turn_off lands
    are given by a script (the [world]); the recorder is a computation in a
    small monad that threads the entity, collects the calls it makes as a
    list of events, and ends in a value, a Python exception, or [Pending]
    when the script ends while the recorder is still running.

    What the model takes from outside:
    - an S3 call that fails raises [ClientError] or [BotoCoreError], a
      [Popen] or a read that fails raises [OSError], [ValueError] or
      [SubprocessError];
    - the output of one capture process is finite (ffmpeg is run with
      [-t STREAM_LENGTH]), so a segment is a finite list of reads;
    - a turn_off acts on the flag between two checks of a loop; which check
      sees it first is all that the recorder can tell;
    - while a run is in progress nothing but a turn_off changes the flag;
    - logging is left out; the object key and the ffmpeg command line are
      modelled beside the recorder and do not enter its events;
    - [DOMAIN] and [STREAM_LENGTH] of const.py, [json.loads] and the text
      that an f-string makes of a value that is no string are parameters. *)

From Stdlib Require Import String Ascii.
From Stdlib Require Import Strings.Byte.
From Stdlib Require Import NArith PeanoNat Lia Bool List.
Import ListNotations.

Set Implicit Arguments.

(** ** Exceptions *)

(** What the S3 client raises: botocore's two roots. *)
Inductive boto_exn := ClientError | BotoCoreError.

(** What [subprocess.Popen] and a read of the pipe raise. *)
Inductive proc_exn := OSError | ValueError | SubprocessError.

Inductive exn :=
| Boto (e : boto_exn)
| Proc (e : proc_exn)
| RuntimeError
| CancelledError
| UnboundLocalError.

(** ** Events: the calls the recorder makes, with their answers *)

Definition upload_id := string.
Definition etag := string.
Definition pid := N.

Inductive event :=
| EvSetIsOn (b : bool)                       (* self._attr_is_on = b *)
| EvScheduleUpdate (b : bool)                (* schedule_update_ha_state() *)
| EvClient (r : option boto_exn)             (* boto3.client("s3", ...) *)
| EvCreateMultipartUpload (r : boto_exn + upload_id)
| EvPopen (r : proc_exn + pid)
| EvRead (p : pid) (r : proc_exn + list byte)
| EvUploadPart (u : upload_id) (part_number : N) (body : list byte)
               (r : boto_exn + etag)
| EvCompleteMultipartUpload (u : upload_id) (parts : list (N * etag))
                            (r : option boto_exn)
| EvAbortMultipartUpload (u : upload_id) (r : option boto_exn)
| EvPopenExit (p : pid)                      (* Popen.__exit__ *)
| EvTerminate (p : pid)
| EvWait (p : pid).

(** ** The world *)

(** One item of what the segment loop meets at the head of an iteration:
    a turn_off issued from the event loop before the flag is read, or the
    answer of [process.stdout.read(1024 * 1024)].  An empty [RData] and the
    end of the list are both end of stream. *)
Inductive read_item :=
| RStop
| RData (chunk : list byte)
| RError (e : proc_exn).

Record segment_env := {
  se_create : boto_exn + upload_id;       (* create_multipart_upload *)
  se_popen : proc_exn + pid;              (* subprocess.Popen *)
  se_reads : list read_item;
  se_upload_part : N -> boto_exn + etag;  (* upload_part, by PartNumber *)
  se_complete : option boto_exn;          (* complete_multipart_upload *)
  se_abort : option boto_exn              (* abort_multipart_upload *)
}.

Inductive world_item :=
| WStop                       (* a turn_off lands before the outer flag check *)
| WSegment (se : segment_env).

Record world := {
  w_client : option boto_exn;
  w_script : list world_item
}.

(** ** The monad *)

Record entity := { _attr_is_on : bool }.

Inductive result (A : Type) :=
| Ok (a : A)
| Raise (e : exn)
| Pending.
Arguments Raise {A} e.
Arguments Pending {A}.

Record outcome (A : Type) := {
  events : list event;
  final : entity;
  value : result A
}.

Definition M (A : Type) := entity -> outcome A.

Definition ret {A} (a : A) : M A :=
  fun s => {| events := []; final := s; value := Ok a |}.

Definition raise {A} (e : exn) : M A :=
  fun s => {| events := []; final := s; value := Raise e |}.

Definition pending {A} : M A :=
  fun s => {| events := []; final := s; value := Pending |}.

Definition emit (e : event) : M unit :=
  fun s => {| events := [e]; final := s; value := Ok tt |}.

(** [prepend evs r]: the outcome [r] reached after the events [evs]. *)
Definition prepend {A} (evs : list event) (r : outcome A) : outcome A :=
  match r with
  | {| events := evs'; final := s; value := v |} =>
      {| events := evs ++ evs'; final := s; value := v |}
  end.

Definition bind {A B} (m : M A) (k : A -> M B) : M B :=
  fun s =>
    match m s with
    | {| events := evs; final := s'; value := v |} =>
        match v with
        | Ok a => prepend evs (k a s')
        | Raise e => {| events := evs; final := s'; value := Raise e |}
        | Pending => {| events := evs; final := s'; value := Pending |}
        end
    end.

Notation "x <- m ;; k" := (bind m (fun x => k))
  (at level 61, m at next level, right associativity).
Notation "m ;; k" := (bind m (fun _ => k))
  (at level 61, right associativity).

(** [try: m except ...: h]: the handler table [h] says which exceptions a
    clause takes. *)
Definition try_except {A} (m : M A) (h : exn -> option (M A)) : M A :=
  fun s =>
    match m s with
    | {| events := evs; final := s'; value := v |} =>
        match v with
        | Raise e =>
            match h e with
            | Some k => prepend evs (k s')
            | None => {| events := evs; final := s'; value := v |}
            end
        | _ => {| events := evs; final := s'; value := v |}
        end
    end.

(** The value of [try: ... finally: ...] when the [try] part ended in [v]
    and the [finally] part in [v']: an exception of the [finally] part
    replaces what the [try] part ended in. *)
Definition finally_value {A} (v : result A) (v' : result unit) : result A :=
  match v' with
  | Ok _ => v
  | Raise e => Raise e
  | Pending => Pending
  end.

(** [try: m finally: k], also the exit of a [with] block: [k] runs whether
    [m] returned or raised. *)
Definition finally {A} (m : M A) (k : M unit) : M A :=
  fun s =>
    match m s with
    | {| events := evs; final := s'; value := v |} =>
        match v with
        | Pending => {| events := evs; final := s'; value := Pending |}
        | _ =>
            match k s' with
            | {| events := evs'; final := s''; value := v' |} =>
                {| events := evs ++ evs'; final := s'';
                   value := finally_value v v' |}
            end
        end
    end.

Definition get_is_on : M bool :=
  fun s => {| events := []; final := s; value := Ok (_attr_is_on s) |}.

Definition set_is_on (b : bool) : M unit :=
  fun s => {| events := [EvSetIsOn b]; final := {| _attr_is_on := b |};
              value := Ok tt |}.

Definition schedule_update_ha_state : M unit :=
  on <- get_is_on ;; emit (EvScheduleUpdate on).

(** ** io.BytesIO *)

Record BytesIO := { getvalue : list byte; pos : nat }.

Definition new_BytesIO : BytesIO := {| getvalue := []; pos := 0 |}.

(** [write] at the position: overwrites what is there, pads with zero bytes
    when the position is past the end, and moves the position on. *)
Definition write (b : BytesIO) (chunk : list byte) : BytesIO :=
  {| getvalue := firstn (pos b) (getvalue b)
                 ++ repeat x00 (pos b - length (getvalue b))
                 ++ chunk
                 ++ skipn (pos b + length chunk) (getvalue b);
     pos := pos b + length chunk |}.

Definition tell (b : BytesIO) : N := N.of_nat (pos b).

Definition seek (b : BytesIO) (n : nat) : BytesIO :=
  {| getvalue := getvalue b; pos := n |}.

(** [truncate(size)] keeps the position. *)
Definition truncate (b : BytesIO) (size : nat) : BytesIO :=
  {| getvalue := firstn size (getvalue b); pos := pos b |}.

(** Reading the stream to its end, as the S3 client does with [Body]. *)
Definition read_to_end (b : BytesIO) : list byte * BytesIO :=
  (skipn (pos b) (getvalue b),
   {| getvalue := getvalue b; pos := Nat.max (pos b) (length (getvalue b)) |}).

Definition blen (l : list byte) : N := N.of_nat (length l).

(** ** switch.py *)

(** [stop_stream_to_s3] (lines 180-187). *)
Definition stop_stream_to_s3 : M unit :=
  on <- get_is_on ;;
  if on then set_is_on false ;; schedule_update_ha_state
  else ret tt.

Definition lift_boto {A} (r : boto_exn + A) : M A :=
  match r with
  | inl e => raise (Boto e)
  | inr a => ret a
  end.

Definition lift_proc {A} (r : proc_exn + A) : M A :=
  match r with
  | inl e => raise (Proc e)
  | inr a => ret a
  end.

Definition lift_boto_unit (r : option boto_exn) : M unit :=
  match r with
  | Some e => raise (Boto e)
  | None => ret tt
  end.

Definition boto3_client (w : world) : M unit :=
  emit (EvClient (w_client w)) ;; lift_boto_unit (w_client w).

Definition create_multipart_upload (se : segment_env) : M upload_id :=
  emit (EvCreateMultipartUpload (se_create se)) ;; lift_boto (se_create se).

Definition popen (se : segment_env) : M pid :=
  emit (EvPopen (se_popen se)) ;; lift_proc (se_popen se).

Definition stdout_read (p : pid) (r : proc_exn + list byte) : M (list byte) :=
  emit (EvRead p r) ;; lift_proc r.

(** [upload_part(..., PartNumber=part_number, Body=buffer)]: the body is the
    stream from its position to its end. *)
Definition upload_part (se : segment_env) (u : upload_id) (part_number : N)
    (buffer : BytesIO) : M (etag * BytesIO) :=
  let '(body, buffer) := read_to_end buffer in
  emit (EvUploadPart u part_number body (se_upload_part se part_number)) ;;
  t <- lift_boto (se_upload_part se part_number) ;;
  ret (t, buffer).

Definition complete_multipart_upload (se : segment_env) (u : upload_id)
    (parts : list (N * etag)) : M unit :=
  emit (EvCompleteMultipartUpload u parts (se_complete se)) ;;
  lift_boto_unit (se_complete se).

Definition abort_multipart_upload (se : segment_env) (u : upload_id) : M unit :=
  emit (EvAbortMultipartUpload u (se_abort se)) ;;
  lift_boto_unit (se_abort se).

(** The locals of the segment loop. *)
Record loop_state := {
  ls_buffer : BytesIO;
  ls_parts : list (N * etag);
  ls_part_number : N
}.

Definition is_empty (chunk : list byte) : bool :=
  match chunk with
  | [] => true
  | _ :: _ => false
  end.

Section Recorder.

(** The part size above which the buffer is sent: [5 * 1024 * 1024] in the
    source. *)
Variable threshold : N.

(** Lines 102-121: the body of the read loop after the end-of-stream test. *)
Definition loop_body (se : segment_env) (u : upload_id) (chunk : list byte)
    (st : loop_state) : M loop_state :=
  let buffer := write (ls_buffer st) chunk in
  if (threshold <? tell buffer)%N then
    let buffer := seek buffer 0 in
    r <- upload_part se u (ls_part_number st) buffer ;;
    let '(t, buffer) := r in
    let parts := ls_parts st ++ [(ls_part_number st, t)] in
    let buffer := seek buffer 0 in
    let buffer := truncate buffer 0 in
    ret {| ls_buffer := buffer; ls_parts := parts;
           ls_part_number := ls_part_number st + 1 |}
  else
    ret {| ls_buffer := buffer; ls_parts := ls_parts st;
           ls_part_number := ls_part_number st |}.

(** Lines 98-121: [while self._attr_is_on: ...]. *)
Fixpoint read_loop (se : segment_env) (p : pid) (u : upload_id)
    (reads : list read_item) (st : loop_state) {struct reads} : M loop_state :=
  match reads with
  | [] =>
      on <- get_is_on ;;
      if on then stdout_read p (inr []) ;; ret st else ret st
  | RStop :: rest =>
      stop_stream_to_s3 ;; read_loop se p u rest st
  | RData chunk :: rest =>
      on <- get_is_on ;;
      if on then
        chunk <- stdout_read p (inr chunk) ;;
        if is_empty chunk then ret st
        else st' <- loop_body se u chunk st ;; read_loop se p u rest st'
      else ret st
  | RError e :: rest =>
      on <- get_is_on ;;
      if on then stdout_read p (inl e) ;; ret st else ret st
  end.

(** Lines 123-137: what is left in the buffer goes out as the last part. *)
Definition flush_remainder (se : segment_env) (u : upload_id)
    (st : loop_state) : M loop_state :=
  if (0 <? tell (ls_buffer st))%N then
    let buffer := seek (ls_buffer st) 0 in
    r <- upload_part se u (ls_part_number st) buffer ;;
    let '(t, buffer) := r in
    ret {| ls_buffer := buffer;
           ls_parts := ls_parts st ++ [(ls_part_number st, t)];
           ls_part_number := ls_part_number st |}
  else ret st.

(** Lines 97-137: [with io.BytesIO() as buffer: ...]. *)
Definition buffer_block (se : segment_env) (p : pid) (u : upload_id)
    : M loop_state :=
  st <- read_loop se p u (se_reads se)
          {| ls_buffer := new_BytesIO; ls_parts := []; ls_part_number := 1 |} ;;
  flush_remainder se u st.

(** Lines 89-145: [with subprocess.Popen(...) as process: ...]. *)
Definition popen_block (se : segment_env) (p : pid) (u : upload_id) : M unit :=
  finally
    (st <- buffer_block se p u ;;
     complete_multipart_upload se u (ls_parts st))
    (emit (EvPopenExit p)).

(** Lines 147-154: the two [except] clauses. *)
Definition segment_handler (se : segment_env) (u : upload_id) (e : exn)
    : option (M unit) :=
  match e with
  | Boto _ => Some (abort_multipart_upload se u)
  | Proc _ => Some stop_stream_to_s3
  | _ => None
  end.

(** Lines 155-158: [finally: process.terminate(); process.wait()], on the
    local [process] as it is bound at that moment. *)
Definition terminate_and_wait (process : option pid) : M unit :=
  match process with
  | None => raise UnboundLocalError
  | Some p => emit (EvTerminate p) ;; emit (EvWait p)
  end.

(** What [process] is bound to once the [with] statement has been reached:
    the new handle when [Popen] returned, the previous binding when it
    raised. *)
Definition bound_process (se : segment_env) (process : option pid)
    : option pid :=
  match se_popen se with
  | inr p => Some p
  | inl _ => process
  end.

(** Lines 74-158: one pass of the outer loop. *)
Definition segment (se : segment_env) (process : option pid)
    : M (option pid) :=
  u <- create_multipart_upload se ;;
  finally
    (try_except
       (p <- popen se ;; popen_block se p u)
       (segment_handler se u))
    (terminate_and_wait (bound_process se process)) ;;
  ret (bound_process se process).

(** Lines 73-158: [while self._attr_is_on: ...]. *)
Fixpoint upload_loop (script : list world_item) (process : option pid)
    {struct script} : M unit :=
  match script with
  | [] =>
      on <- get_is_on ;;
      if on then pending else ret tt
  | WStop :: rest =>
      stop_stream_to_s3 ;; upload_loop rest process
  | WSegment se :: rest =>
      on <- get_is_on ;;
      if on then
        process' <- segment se process ;; upload_loop rest process'
      else ret tt
  end.

(** [upload_to_s3_sync] (lines 65-158). *)
Definition upload_to_s3_sync (w : world) : M unit :=
  boto3_client w ;; upload_loop (w_script w) None.

(** Lines 167-176: the [except] clauses of [start_stream_to_s3]. *)
Definition start_handler (e : exn) : option (M unit) :=
  match e with
  | Boto _ => Some (ret tt)
  | Proc SubprocessError => Some (ret tt)
  | Proc OSError => Some (ret tt)
  | RuntimeError => Some (ret tt)
  | CancelledError => Some (ret tt)
  | _ => None
  end.

(** [start_stream_to_s3] (lines 160-178); the executor job is awaited. *)
Definition start_stream_to_s3 (w : world) : M unit :=
  on <- get_is_on ;;
  if negb on then
    set_is_on true ;;
    schedule_update_ha_state ;;
    finally
      (try_except (upload_to_s3_sync w) start_handler)
      stop_stream_to_s3
  else ret tt.

(** [async_turn_on] (lines 55-59). *)
Definition async_turn_on (w : world) : M unit :=
  on <- get_is_on ;;
  if negb on then start_stream_to_s3 w else ret tt.

(** [async_turn_off] (lines 61-63). *)
Definition async_turn_off : M unit := stop_stream_to_s3.

End Recorder.

(** The two sizes of the source: the threshold of line 104 and the size of
    a read of line 99. *)
Definition THRESHOLD : N := 5 * 1024 * 1024.
Definition READ_SIZE : N := 1024 * 1024.

(** * config_flow.py *)

(** What [json.loads] returns. *)
#[local] Unset Elimination Schemes.

Inductive json :=
| JNull
| JBool (b : bool)
| JNumber (literal : string)
| JString (s : string)
| JArray (items : list json)
| JObject (members : list (string * json)).

#[local] Set Elimination Schemes.

(** What [validate_input] raises: the three errors of the flow and the
    Python errors of a value that is not of the shape the code expects. *)
Inductive config_exn :=
| InvalidStreamURL
| CannotConnect
| InvalidAuth
| AttributeError
| TypeError
| BotoError.

Record user_input := {
  aws_access_key : string;
  aws_secret_key : string;
  aws_region : string;
  bucket_name : string;
  streams : string
}.

(** What the store answers to [validate_bucket_sync]. *)
Inductive bucket_answer :=
| ClientRaises              (* boto3.client(...) itself raises *)
| HeadBucketOk
| HeadNoCredentialsError
| HeadEndpointConnectionError
| HeadOtherException.

Inductive flow_result :=
| CreateEntry (title : string) (data : user_input)
| ShowForm (errors : option string).

(** [s.startswith(prefix)]. *)
Definition startswith (s prefix : string) : bool := String.prefix prefix s.

(** [for stream in streams]: the items of a list, the keys of a dict, the
    characters of a string; anything else is not iterable. *)
Definition iterate (v : json) : config_exn + list json :=
  match v with
  | JArray items => inr items
  | JObject members => inr (map (fun kv => JString (fst kv)) members)
  | JString s =>
      inr (map (fun c => JString (String c EmptyString))
               (list_ascii_of_string s))
  | _ => inl TypeError
  end.

(** [stream.get(key)]: only a dict has [get]; a missing key gives [None]. *)
Definition dict_get (stream : json) (key : string) : config_exn + json :=
  match stream with
  | JObject members =>
      inr match find (fun kv => String.eqb (fst kv) key) members with
          | Some kv => snd kv
          | None => JNull
          end
  | _ => inl AttributeError
  end.

(** Lines 95-99: the test on one url; only a string has [startswith]. *)
Definition check_url (url : json) : config_exn + unit :=
  match url with
  | JString url =>
      if negb (startswith url "rtsp://") && negb (startswith url "rtmp://")
      then inl InvalidStreamURL
      else inr tt
  | _ => inl AttributeError
  end.

(** Lines 93-99: the loop over the streams. *)
Fixpoint validate_streams (l : list json) : config_exn + unit :=
  match l with
  | [] => inr tt
  | stream :: rest =>
      match dict_get stream "url" with
      | inl e => inl e
      | inr url =>
          match check_url url with
          | inl e => inl e
          | inr _ => validate_streams rest
          end
      end
  end.

(** [validate_bucket_sync] (lines 47-69). *)
Definition validate_bucket_sync (a : bucket_answer) : config_exn + unit :=
  match a with
  | ClientRaises => inl BotoError
  | HeadBucketOk => inr tt
  | HeadNoCredentialsError => inl InvalidAuth
  | HeadEndpointConnectionError => inl CannotConnect
  | HeadOtherException => inl CannotConnect
  end.

Section ConfigFlow.

(** [DOMAIN] of [const.py]. *)
Variable DOMAIN : string.

(** [json.loads]; [None] when it raises. *)
Variable json_loads : string -> option json.

(** The answer of the store for the credentials and the bucket given. *)
Variable bucket : user_input -> bucket_answer.

(** [validate_input] (lines 72-101). *)
Definition validate_input (data : user_input) : config_exn + string :=
  match json_loads (streams data) with
  | None => inl InvalidStreamURL
  | Some v =>
      match validate_bucket_sync (bucket data) with
      | inl e => inl e
      | inr _ =>
          match iterate v with
          | inl e => inl e
          | inr l =>
              match validate_streams l with
              | inl e => inl e
              | inr _ => inr DOMAIN
              end
          end
      end
  end.

(** [async_step_user] (lines 109-128). *)
Definition async_step_user (user_input : option user_input) : flow_result :=
  match user_input with
  | None => ShowForm None
  | Some data =>
      match validate_input data with
      | inr title => CreateEntry title data
      | inl CannotConnect => ShowForm (Some "cannot_connect"%string)
      | inl InvalidAuth => ShowForm (Some "invalid_auth"%string)
      | inl InvalidStreamURL => ShowForm (Some "invalid_stream_url"%string)
      | inl _ => ShowForm (Some "unknown"%string)
      end
  end.

End ConfigFlow.

Unset Implicit Arguments.

(** * switch.py: the entity, the command line, the object key *)

(** The Python errors of the set-up code: a key that a dict does not have,
    a value that cannot be subscripted or iterated, a text that is not
    JSON. *)
Inductive py_exn :=
| KeyError (key : string)
| PyTypeError
| JSONDecodeError.

(** [s.split(sep)] with a separator of one character: the pieces between
    the occurrences of [sep]; the empty string gives one empty piece. *)
Fixpoint split (s : string) (sep : ascii) : list string :=
  match s with
  | EmptyString => [EmptyString]
  | String c s' =>
      if Ascii.eqb c sep then EmptyString :: split s' sep
      else match split s' sep with
           | w :: ws => String c w :: ws
           | [] => [String c EmptyString]
           end
  end.

(** [datetime]: what [datetime.now()] returns. *)
Record datetime := {
  year : N; month : N; day : N;
  hour : N; minute : N; second : N; microsecond : N
}.

(** The decimal digit [d], for [d < 10]. *)
Definition digit (d : N) : ascii := ascii_of_N (48 + d).

(** The [w] low decimal digits of [n]: [n] padded with zeros to the width
    [w], for [n < 10 ^ w]. *)
Fixpoint zero_padded (w : nat) (n : N) : string :=
  match w with
  | O => EmptyString
  | S w' => (zero_padded w' (n / 10) ++ String (digit (n mod 10)) "")%string
  end.

(** The directives of [strftime] that the source uses. *)
Definition directive (c : ascii) (now : datetime) : string :=
  match c with
  | "Y"%char => zero_padded 4 (year now)
  | "m"%char => zero_padded 2 (month now)
  | "d"%char => zero_padded 2 (day now)
  | "H"%char => zero_padded 2 (hour now)
  | "M"%char => zero_padded 2 (minute now)
  | "S"%char => zero_padded 2 (second now)
  | _ => String "%" (String c "")
  end.

(** [now.strftime(fmt)]. *)
Fixpoint strftime (now : datetime) (fmt : string) : string :=
  match fmt with
  | String "%" (String c rest) => (directive c now ++ strftime now rest)%string
  | String c rest => String c (strftime now rest)
  | EmptyString => EmptyString
  end.

Module SwitchRecordCameraEntity.

(** The attributes that [__init__] sets.  The name and the url of a stream
    are what [json.loads] gave. *)
Record t := {
  _attr_has_entity_name : bool;
  _attr_unique_id : string;
  _attr_name : string;
  stream_url : json;
  stream_name : json;
  aws_access_key : string;
  aws_secret_key : string;
  aws_region : string;
  bucket_name : string;
  _attr_is_on : bool;
  ffmpeg_command : string
}.

End SwitchRecordCameraEntity.

Module ConfigEntry.

(** Of a [ConfigEntry], what the code reads. *)
Record t := { entry_id : string; data : user_input }.

End ConfigEntry.

(** A Python dict with [str] keys, in the order of insertion. *)
Definition dict (V : Type) : Type := list (string * V).

(** [d[k]]. *)
Fixpoint getitem {V} (d : dict V) (k : string) : py_exn + V :=
  match d with
  | [] => inl (KeyError k)
  | (k', v) :: d =>
      if String.eqb k' k then inr v else getitem d k
  end.

(** [k in d]. *)
Definition contains {V} (d : dict V) (k : string) : bool :=
  match getitem d k with
  | inr _ => true
  | inl _ => false
  end.

(** [d[k] = v]. *)
Fixpoint setitem {V} (d : dict V) (k : string) (v : V) : dict V :=
  match d with
  | [] => [(k, v)]
  | (k', v') :: d =>
      if String.eqb k' k then (k, v) :: d else (k', v') :: setitem d k v
  end.

(** [del d[k]], for a key that [d] has: no item of [d] has the key
    afterwards. *)
Fixpoint delitem {V} (d : dict V) (k : string) : dict V :=
  match d with
  | [] => []
  | (k', v') :: d =>
      if String.eqb k' k then delitem d k else (k', v') :: delitem d k
  end.

(** [d.setdefault(k, v)], as a statement. *)
Definition setdefault {V} (d : dict V) (k : string) (v : V) : dict V :=
  if contains d k then d else setitem d k v.

(** What the integration keeps under [hass.data[DOMAIN][entry_id]]: the
    values of the keys ["configuration"] and ["entities"]. *)
Inductive stored :=
| Configuration (data : user_input)
| Entities (entities : list SwitchRecordCameraEntity.t).

(** [hass.data]: by domain, by entry id, by key. *)
Definition hass_data : Type := dict (dict (dict stored)).

(** [stream[key]], for a value that [json.loads] gave: only a dict can be
    subscripted by a [str]. *)
Definition subscript (stream : json) (key : string) : py_exn + json :=
  match stream with
  | JObject members =>
      match find (fun kv => String.eqb (fst kv) key) members with
      | Some kv => inr (snd kv)
      | None => inl (KeyError key)
      end
  | _ => inl PyTypeError
  end.

Module switch.

Section Platform.

(** [DOMAIN] and [STREAM_LENGTH] of [const.py]; of [STREAM_LENGTH], the
    text that an f-string makes of it. *)
Variable DOMAIN : string.
Variable STREAM_LENGTH : string.

(** [json.loads]; [None] when it raises. *)
Variable json_loads : string -> option json.

(** What an f-string makes of a value that is not a [str]. *)
Variable str_of : json -> string.

(** [f"{v}"]: a [str] as it is. *)
Definition py_format (v : json) : string :=
  match v with
  | JString s => s
  | _ => str_of v
  end.

(** [SwitchRecordCameraEntity.__init__] (lines 26-53). *)
Definition __init__ (stream_name stream_url : json)
    (aws_access_key aws_secret_key aws_region bucket_name : string)
    : SwitchRecordCameraEntity.t :=
  let _attr_unique_id := ("record_" ++ py_format stream_name)%string in
  {| SwitchRecordCameraEntity._attr_has_entity_name := true;
     SwitchRecordCameraEntity._attr_unique_id := _attr_unique_id;
     SwitchRecordCameraEntity._attr_name := _attr_unique_id;
     SwitchRecordCameraEntity.stream_url := stream_url;
     SwitchRecordCameraEntity.stream_name := stream_name;
     SwitchRecordCameraEntity.aws_access_key := aws_access_key;
     SwitchRecordCameraEntity.aws_secret_key := aws_secret_key;
     SwitchRecordCameraEntity.aws_region := aws_region;
     SwitchRecordCameraEntity.bucket_name := bucket_name;
     SwitchRecordCameraEntity._attr_is_on := false;
     SwitchRecordCameraEntity.ffmpeg_command :=
       ("ffmpeg -hide_banner -y -loglevel error -rtsp_transport tcp -t "
        ++ STREAM_LENGTH
        ++ " -use_wallclock_as_timestamps 1 -i " ++ py_format stream_url
        ++ " -vcodec copy -acodec copy -f mp4 -movflags frag_keyframe+empty_moov pipe:1")%string
  |}.

(** Line 90: the arguments of [subprocess.Popen]. *)
Definition popen_args (self : SwitchRecordCameraEntity.t) : list string :=
  split (SwitchRecordCameraEntity.ffmpeg_command self) " ".

(** Lines 74-77: the key of the object of a segment that starts at [now]. *)
Definition output_key (self : SwitchRecordCameraEntity.t) (now : datetime)
    : string :=
  (strftime now "%Y/%m/%d/%Y%m%d%H%M%S_"
   ++ py_format (SwitchRecordCameraEntity.stream_name self) ++ ".mp4")%string.

(** Lines 203-213: the list comprehension over [streams], the items taken
    in order; in an item, [stream["name"]] is evaluated before
    [stream["url"]]. *)
Fixpoint entities_of (config : user_input) (streams : list json)
    : py_exn + list SwitchRecordCameraEntity.t :=
  match streams with
  | [] => inr []
  | stream :: rest =>
      match subscript stream "name" with
      | inl e => inl e
      | inr stream_name =>
          match subscript stream "url" with
          | inl e => inl e
          | inr stream_url =>
              match entities_of config rest with
              | inl e => inl e
              | inr entities =>
                  inr (__init__ stream_name stream_url
                         (aws_access_key config) (aws_secret_key config)
                         (aws_region config) (bucket_name config)
                       :: entities)
              end
          end
      end
  end.

(** What a call of [async_setup_entry] comes to: the list handed to
    [async_add_entities], if the call got there; [hass.data] as it is left;
    and [None] returned, or the error raised. *)
Record setup_outcome := {
  added : option (list SwitchRecordCameraEntity.t);
  hass_after : hass_data;
  returned : py_exn + unit
}.

(** [async_setup_entry] (lines 190-215). *)
Definition async_setup_entry (hass : hass_data) (entry : ConfigEntry.t)
    : setup_outcome :=
  let config := ConfigEntry.data entry in
  match json_loads (streams config) with
  | None => {| added := None; hass_after := hass;
               returned := inl JSONDecodeError |}
  | Some streams =>
      match iterate streams with
      | inl _ => {| added := None; hass_after := hass;
                    returned := inl PyTypeError |}
      | inr items =>
          match entities_of config items with
          | inl e => {| added := None; hass_after := hass; returned := inl e |}
          | inr entities =>
              (* async_add_entities(entities, update_before_add=True) *)
              match getitem hass DOMAIN with
              | inl e => {| added := Some entities; hass_after := hass;
                            returned := inl e |}
              | inr by_entry =>
                  match getitem by_entry (ConfigEntry.entry_id entry) with
                  | inl e => {| added := Some entities; hass_after := hass;
                                returned := inl e |}
                  | inr kept =>
                      {| added := Some entities;
                         hass_after :=
                           setitem hass DOMAIN
                             (setitem by_entry (ConfigEntry.entry_id entry)
                                (setitem kept "entities"
                                   (Entities entities)));
                         returned := inr tt |}
                  end
              end
          end
      end
  end.

End Platform.

End switch.

(** * __init__.py *)

Module stream_recorder_to_s3.

(** What the forwarding of the set-up or of the unloading to the platforms
    comes to: [hass.data] as the platforms leave it, and the value returned
    or the error raised. *)
Definition forwarding (A : Type) : Type :=
  hass_data -> hass_data * (py_exn + A).

Section Integration.

Variable DOMAIN : string.

(** [async_setup_entry] (lines 18-24). *)
Definition async_setup_entry
    (async_forward_entry_setups : forwarding unit)
    (hass : hass_data) (entry : ConfigEntry.t) : hass_data * (py_exn + bool) :=
  let hass := setdefault hass DOMAIN [] in
  match getitem hass DOMAIN with
  | inl e => (hass, inl e)
  | inr by_entry =>
      let hass :=
        setitem hass DOMAIN
          (setitem by_entry (ConfigEntry.entry_id entry)
             [("configuration"%string,
               Configuration (ConfigEntry.data entry))]) in
      match async_forward_entry_setups hass with
      | (hass, inl e) => (hass, inl e)
      | (hass, inr _) => (hass, inr true)
      end
  end.

(** [async_unload_entry] (lines 27-33); what the forwarding returns is not
    looked at. *)
Definition async_unload_entry
    (async_forward_entry_unload : forwarding bool)
    (hass : hass_data) (entry : ConfigEntry.t) : hass_data * (py_exn + bool) :=
  match async_forward_entry_unload hass with
  | (hass, inl e) => (hass, inl e)
  | (hass, inr _) =>
      match getitem hass DOMAIN with
      | inl e => (hass, inl e)
      | inr by_entry =>
          if contains by_entry (ConfigEntry.entry_id entry) then
            (setitem hass DOMAIN
               (delitem by_entry (ConfigEntry.entry_id entry)),
             inr true)
          else (hass, inr true)
      end
  end.

End Integration.

End stream_recorder_to_s3.

(** * Notions used in the statements *)

(** The events a [stop_stream_to_s3] makes when the flag reads [on]. *)
Definition stop_events (on : bool) : list event :=
  if on then [EvSetIsOn false; EvScheduleUpdate false] else [].

(** The flag after the events [evs], when it read [on] before them. *)
Fixpoint flag_after (evs : list event) (on : bool) : bool :=
  match evs with
  | [] => on
  | EvSetIsOn b :: evs => flag_after evs b
  | _ :: evs => flag_after evs on
  end.

(** The computation changes the flag only through events. *)
Definition tracked {A} (m : M A) : Prop :=
  forall s,
    _attr_is_on (final (m s)) = flag_after (events (m s)) (_attr_is_on s).

(** The events of a segment loop that goes well: reads that return, parts
    that are acknowledged, and a turn_off landing. *)
Definition quiet (p : pid) (u : upload_id) (e : event) : Prop :=
  match e with
  | EvRead p' (inr _) => p' = p
  | EvUploadPart u' _ _ (inr _) => u' = u
  | EvSetIsOn false | EvScheduleUpdate false => True
  | _ => False
  end.

(** The three ways the buffer block ends: well, on a part that the store
    refuses, on a read that raises. *)
Inductive block_shape (p : pid) (u : upload_id) {A} (r : outcome A) : Prop :=
| BlockOk a :
    value r = Ok a -> Forall (quiet p u) (events r) -> block_shape p u r
| BlockUploadFails e pn body pre :
    value r = Raise (Boto e) ->
    events r = pre ++ [EvUploadPart u pn body (inl e)] ->
    Forall (quiet p u) pre -> block_shape p u r
| BlockReadFails e pre :
    value r = Raise (Proc e) ->
    events r = pre ++ [EvRead p (inl e)] ->
    Forall (quiet p u) pre -> block_shape p u r.

(** An [upload_part] or [complete_multipart_upload] call on [u] that raised. *)
Inductive failed_call (u : upload_id) : event -> Prop :=
| FailedUploadPart pn body e :
    failed_call u (EvUploadPart u pn body (inl e))
| FailedComplete parts e :
    failed_call u (EvCompleteMultipartUpload u parts (Some e)).

(** The events of the [finally] clause on the binding [process]. *)
Definition terminate_events (process : option pid) : list event :=
  match process with
  | Some p => [EvTerminate p; EvWait p]
  | None => []
  end.

(** The five ways through one pass of the outer loop. *)
Inductive segment_shape (se : segment_env) (process : option pid) (s : entity)
    (r : outcome (option pid)) : Prop :=
| SegCreateFails e :
    se_create se = inl e ->
    events r = [EvCreateMultipartUpload (inl e)] ->
    value r = Raise (Boto e) ->
    segment_shape se process s r
| SegPopenFails u e :
    se_create se = inr u -> se_popen se = inl e ->
    events r = [EvCreateMultipartUpload (inr u); EvPopen (inl e)]
               ++ stop_events (_attr_is_on s) ++ terminate_events process ->
    value r = match process with
              | Some _ => Ok process
              | None => Raise UnboundLocalError
              end ->
    segment_shape se process s r
| SegCompleted u p body parts :
    se_create se = inr u -> se_popen se = inr p ->
    Forall (quiet p u) body ->
    events r = EvCreateMultipartUpload (inr u) :: EvPopen (inr p) :: body
               ++ [EvCompleteMultipartUpload u parts None; EvPopenExit p;
                   EvTerminate p; EvWait p] ->
    value r = Ok (Some p) ->
    segment_shape se process s r
| SegStorageFails u p body ev :
    se_create se = inr u -> se_popen se = inr p ->
    Forall (quiet p u) body ->
    failed_call u ev ->
    events r = EvCreateMultipartUpload (inr u) :: EvPopen (inr p) :: body
               ++ [ev; EvPopenExit p; EvAbortMultipartUpload u (se_abort se);
                   EvTerminate p; EvWait p] ->
    value r = match se_abort se with
              | None => Ok (Some p)
              | Some e => Raise (Boto e)
              end ->
    segment_shape se process s r
| SegReadFails u p body e :
    se_create se = inr u -> se_popen se = inr p ->
    Forall (quiet p u) body ->
    events r = EvCreateMultipartUpload (inr u) :: EvPopen (inr p) :: body
               ++ [EvRead p (inl e); EvPopenExit p]
               ++ stop_events (flag_after body (_attr_is_on s))
               ++ [EvTerminate p; EvWait p] ->
    value r = Ok (Some p) ->
    segment_shape se process s r.

(** An S3 call made on the upload [u]. *)
Definition s3_event_on (u : upload_id) (e : event) : Prop :=
  match e with
  | EvUploadPart u' _ _ _ => u' = u
  | EvCompleteMultipartUpload u' _ _ => u' = u
  | EvAbortMultipartUpload u' _ => u' = u
  | _ => False
  end.

(** The upload ids the store hands out along a script. *)
Fixpoint created_ids (script : list world_item) : list upload_id :=
  match script with
  | [] => []
  | WStop :: rest => created_ids rest
  | WSegment se :: rest =>
      match se_create se with
      | inr u => u :: created_ids rest
      | inl _ => created_ids rest
      end
  end.

(** A failed storage call on some upload. *)
Definition some_failed_call (e : event) : Prop := exists u, failed_call u e.

(** What is left of the outer loop after a pass that ended in [r]. *)
Definition loop_rest (t : N) (rest : list world_item)
    (r : outcome (option pid)) : list event :=
  match value r with
  | Ok q => events (upload_loop t rest q (final r))
  | _ => []
  end.

(** The position of the buffer is at its end. *)
Definition at_end (b : BytesIO) : Prop := pos b = length (getvalue b).

(** The bodies of the parts sent, in the order of sending. *)
Fixpoint bodies (evs : list event) : list (list byte) :=
  match evs with
  | [] => []
  | EvUploadPart _ _ body _ :: evs => body :: bodies evs
  | _ :: evs => bodies evs
  end.

(** Every [upload_part] call of the segment is acknowledged. *)
Definition uploads_ok (se : segment_env) : Prop :=
  forall pn, exists tg, se_upload_part se pn = inr tg.

(** The events of reads that bring data and of parts that are
    acknowledged. *)
Definition data_event (p : pid) (u : upload_id) (e : event) : Prop :=
  match e with
  | EvRead p' (inr (_ :: _)) => p' = p
  | EvUploadPart u' _ _ (inr _) => u' = u
  | _ => False
  end.

(** The sum of the sizes of the chunks. *)
Definition sizes_sum (chunks : list (list byte)) : N :=
  fold_right N.add 0%N (map blen chunks).

(** [ceil (n / t)]. *)
Definition ceil_div (n t : N) : N := ((n + t - 1) / t)%N.

(** How a read loop that met only data comes to its end: on the end of the
    stream, or on a turn_off. *)
Definition clean_exit (tail : list read_item) : Prop :=
  match tail with
  | [] | RStop :: _ => True
  | _ => False
  end.

(** The events of that end: the empty read, or the turn_off. *)
Definition exit_events (p : pid) (tail : list read_item) : list event :=
  match tail with
  | [] => [EvRead p (inr [])]
  | _ => stop_events true
  end.

(** The flag after that end. *)
Definition exit_flag (tail : list read_item) : bool :=
  match tail with
  | [] => true
  | _ => false
  end.

(** What [async_turn_on] on an entity that is off comes to, given what the
    recording job comes to. *)
Definition start_outcome (job : outcome unit) : outcome unit :=
  match value job with
  | Pending =>
      {| events := [EvSetIsOn true; EvScheduleUpdate true] ++ events job;
         final := final job; value := Pending |}
  | v =>
      {| events := [EvSetIsOn true; EvScheduleUpdate true] ++ events job
                   ++ stop_events (_attr_is_on (final job));
         final := {| _attr_is_on := false |};
         value := match v with
                  | Raise e => match start_handler e with
                               | Some _ => Ok tt
                               | None => Raise e
                               end
                  | _ => v
                  end |}
  end.

(** The capture processes that are launched and not yet reaped, and the
    uploads that are created and neither completed nor aborted. *)
Record resources := { live : list pid; open_uploads : list upload_id }.

(** Nothing alive, nothing open. *)
Definition no_resources : resources := {| live := []; open_uploads := [] |}.

(** What an event takes or gives back. *)
Definition res_step (r : resources) (e : event) : resources :=
  match e with
  | EvPopen (inr p) => {| live := p :: live r; open_uploads := open_uploads r |}
  | EvPopenExit p | EvWait p =>
      {| live := remove N.eq_dec p (live r); open_uploads := open_uploads r |}
  | EvCreateMultipartUpload (inr u) =>
      {| live := live r; open_uploads := u :: open_uploads r |}
  | EvCompleteMultipartUpload u _ None | EvAbortMultipartUpload u None =>
      {| live := live r;
         open_uploads := remove string_dec u (open_uploads r) |}
  | _ => r
  end.

(** The resources held after the events [evs], from [r]. *)
Definition resources_after (evs : list event) (r : resources) : resources :=
  fold_left res_step evs r.

(** At most one capture process alive and at most one upload open. *)
Definition at_most_one (r : resources) : Prop :=
  length (live r) <= 1 /\ length (open_uploads r) <= 1.

(** At every moment of [evs], started from [r]. *)
Definition always_at_most_one (r : resources) (evs : list event) : Prop :=
  forall pre post, evs = pre ++ post -> at_most_one (resources_after pre r).

(** An event that neither takes nor gives back a resource. *)
Definition neutral (e : event) : Prop := forall r, res_step r e = r.

(** Every read brings at most [r] bytes. *)
Definition reads_bounded (r : N) (reads : list read_item) : Prop :=
  Forall (fun item => match item with
                      | RData c => (blen c <= r)%N
                      | _ => True
                      end) reads.

(** The state of the buffer at the head of the read loop. *)
Definition buffer_inv (t : N) (st : loop_state) : Prop :=
  at_end (ls_buffer st) /\ (blen (getvalue (ls_buffer st)) <= t)%N.

(** The url begins with one of the two accepted schemes. *)
Definition rtsp_or_rtmp (url : string) : Prop :=
  (exists rest, url = ("rtsp://" ++ rest)%string) \/
  (exists rest, url = ("rtmp://" ++ rest)%string).

(** A stream descriptor that has a url, and the url is a string. *)
Definition has_url (d : json) (url : string) : Prop :=
  dict_get d "url" = inr (JString url).

(** ** The claims that the code does not meet, as they are stated *)


(** The start call is back at its caller as soon as the recording task is
    launched, not only when the recording loop has come to its end. *)
Definition returns_once_launched (r : outcome unit) : Prop :=
  (exists p, In (EvPopen (inr p)) (events r)) -> value r <> Pending.

(** The state is reported on only after a capture process was launched. *)
Definition reported_on_only_after_launch (evs : list event) : Prop :=
  forall pre post,
    evs = pre ++ EvScheduleUpdate true :: post ->
    exists p, In (EvPopen (inr p)) pre.

(** The accumulator emits exactly [ceil (N / t)] chunks. *)
Definition emits_exactly_ceil (t : N) (data : list (list byte))
    (chunks : list (list byte)) : Prop :=
  N.of_nat (length chunks) = ceil_div (blen (concat data)) t.

(** The events of a session: the start commands given to one entity, one
    after the other, each with the world that its run meets; a start is
    given when the one before it has returned. *)
Fixpoint session_events (t : N) (starts : list world) (s : entity)
    : list event :=
  match starts with
  | [] => []
  | w :: rest =>
      events (async_turn_on t w s)
      ++ session_events t rest (final (async_turn_on t w s))
  end.

(** At any time the session has at most one capture process and at most
    one open upload. *)
Definition one_process_one_upload (t : N) (starts : list world) (s : entity)
    : Prop :=
  always_at_most_one no_resources (session_events t starts s).

(** * Concrete worlds *)

Definition idle : entity := {| _attr_is_on := false |}.
Definition active : entity := {| _attr_is_on := true |}.

(** A segment of three bytes that is stopped by a turn_off. *)
Definition se_stopped : segment_env :=
  {| se_create := inr "upload-2"%string; se_popen := inr 102%N;
     se_reads := [RData [x03; x04; x05]; RStop];
     se_upload_part := fun _ => inr "etag"%string;
     se_complete := None; se_abort := None |}.

(** A segment of two bytes whose stream ends; the store is well. *)
Definition se_ended : segment_env :=
  {| se_create := inr "upload-1"%string; se_popen := inr 101%N;
     se_reads := [RData [x01; x02]];
     se_upload_part := fun _ => inr "etag"%string;
     se_complete := None; se_abort := None |}.

(** The same segment on a store that refuses every part. *)
Definition se_part_fails : segment_env :=
  {| se_create := inr "upload-1"%string; se_popen := inr 101%N;
     se_reads := [RData [x01; x02]];
     se_upload_part := fun _ => inl ClientError;
     se_complete := None; se_abort := None |}.

(** A segment whose capture process cannot be launched. *)
Definition se_launch_fails : segment_env :=
  {| se_create := inr "upload-1"%string; se_popen := inl OSError;
     se_reads := [];
     se_upload_part := fun _ => inr "etag"%string;
     se_complete := None; se_abort := None |}.

(** A segment whose first read raises. *)
Definition se_read_fails : segment_env :=
  {| se_create := inr "upload-1"%string; se_popen := inr 101%N;
     se_reads := [RError OSError];
     se_upload_part := fun _ => inr "etag"%string;
     se_complete := None; se_abort := None |}.

Definition w_read_fails : world :=
  {| w_client := None; w_script := [WSegment se_read_fails] |}.

(** Two starts: the run of the first ends on a read that raises, the run of
    the second is stopped by a turn_off.  The events of the session, cut
    after the creation of the second upload. *)
Definition two_starts_before : list event :=
  [EvSetIsOn true; EvScheduleUpdate true; EvClient None;
   EvCreateMultipartUpload (inr "upload-1"%string);
   EvPopen (inr 101%N); EvRead 101%N (inl OSError); EvPopenExit 101%N;
   EvSetIsOn false; EvScheduleUpdate false;
   EvTerminate 101%N; EvWait 101%N;
   EvSetIsOn true; EvScheduleUpdate true; EvClient None;
   EvCreateMultipartUpload (inr "upload-2"%string)].

Definition two_starts_after : list event :=
  [EvPopen (inr 102%N); EvRead 102%N (inr [x03; x04; x05]);
   EvSetIsOn false; EvScheduleUpdate false;
   EvUploadPart "upload-2"%string 1 [x03; x04; x05] (inr "etag"%string);
   EvCompleteMultipartUpload "upload-2"%string [(1%N, "etag"%string)] None;
   EvPopenExit 102%N; EvTerminate 102%N; EvWait 102%N].

Definition w_part_fails : world :=
  {| w_client := None;
     w_script := [WSegment se_part_fails; WSegment se_stopped] |}.

Definition w_recording : world :=
  {| w_client := None; w_script := [WSegment se_ended] |}.

Definition w_launch_fails : world :=
  {| w_client := None; w_script := [WSegment se_launch_fails] |}.

Definition w_stopped : world :=
  {| w_client := None; w_script := [WSegment se_stopped] |}.

(** A segment of seven bytes read two at a time. *)
Definition se_small : segment_env :=
  {| se_create := inr "upload-1"%string; se_popen := inr 101%N;
     se_reads := [RData [x01; x02]; RData [x03; x04]; RData [x05; x06];
                  RData [x07]];
     se_upload_part := fun _ => inr "etag"%string;
     se_complete := None; se_abort := None |}.

(** The run of [w_part_fails], cut at the call that the store refuses. *)
Definition part_fails_before : list event :=
  [EvClient None; EvCreateMultipartUpload (inr "upload-1"%string);
   EvPopen (inr 101%N); EvRead 101%N (inr [x01; x02]);
   EvRead 101%N (inr [])].

Definition part_fails_call : event :=
  EvUploadPart "upload-1"%string 1 [x01; x02] (inl ClientError).

Definition part_fails_after : list event :=
  [EvPopenExit 101%N; EvAbortMultipartUpload "upload-1"%string None;
   EvTerminate 101%N; EvWait 101%N;
   EvCreateMultipartUpload (inr "upload-2"%string);
   EvPopen (inr 102%N); EvRead 102%N (inr [x03; x04; x05]);
   EvSetIsOn false; EvScheduleUpdate false;
   EvUploadPart "upload-2"%string 1 [x03; x04; x05] (inr "etag"%string);
   EvCompleteMultipartUpload "upload-2"%string [(1%N, "etag"%string)] None;
   EvPopenExit 102%N; EvTerminate 102%N; EvWait 102%N].

(** One full read: [READ_SIZE] bytes. *)
Definition full_read : list byte := repeat x00 (N.to_nat READ_SIZE).

Definition six_full_reads : list (list byte) :=
  [full_read; full_read; full_read; full_read; full_read; full_read].

(** A segment of six full reads, 6 MiB, on a store that is well. *)
Definition se_six_mebibytes : segment_env :=
  {| se_create := inr "upload-1"%string; se_popen := inr 101%N;
     se_reads := map RData six_full_reads;
     se_upload_part := fun _ => inr "etag"%string;
     se_complete := None; se_abort := None |}.

(** A configuration with one stream, on a reachable bucket. *)
Definition one_stream : user_input :=
  {| aws_access_key := "key"; aws_secret_key := "secret";
     aws_region := "eu-west-1"; bucket_name := "recordings";
     streams := "[{name: cam, url: rtsp://camera.local/live}]" |}.

Definition one_stream_parsed : json :=
  JArray [JObject [("name"%string, JString "cam");
                   ("url"%string, JString "rtsp://camera.local/live")]].

(** * Notions used in the further properties *)

(** The [PartNumber] and [ETag] of the parts that the store acknowledged,
    in the order of sending. *)
Fixpoint acked (evs : list event) : list (N * etag) :=
  match evs with
  | [] => []
  | EvUploadPart _ pn _ (inr tg) :: evs => (pn, tg) :: acked evs
  | _ :: evs => acked evs
  end.

(** What the reads of the capture process returned, in the order of
    reading. *)
Fixpoint chunks_read (evs : list event) : list (list byte) :=
  match evs with
  | [] => []
  | EvRead _ (inr c) :: evs => c :: chunks_read evs
  | _ :: evs => chunks_read evs
  end.

(** [first; first + 1; ...], [n] numbers. *)
Fixpoint count_from (first : N) (n : nat) : list N :=
  match n with
  | O => []
  | S n => first :: count_from (first + 1) n
  end.

(** What a stretch of the read loop that took the locals from [st] to [st']
    with the events [evs], reading [data], keeps. *)
Definition carried (st : loop_state) (evs : list event) (data : list byte)
    (st' : loop_state) : Prop :=
  at_end (ls_buffer st') /\
  ls_parts st' = ls_parts st ++ acked evs /\
  ls_part_number st' = (ls_part_number st + N.of_nat (length (acked evs)))%N /\
  map fst (acked evs) = count_from (ls_part_number st) (length (acked evs)) /\
  length (bodies evs) = length (acked evs) /\
  concat (bodies evs) ++ getvalue (ls_buffer st')
  = getvalue (ls_buffer st) ++ data /\
  Forall (fun b => b <> []) (bodies evs).

(** The answer to the first launch of a capture process among [evs]. *)
Fixpoint first_popen (evs : list event) : option (proc_exn + pid) :=
  match evs with
  | [] => None
  | EvPopen r :: _ => Some r
  | _ :: evs => first_popen evs
  end.

(** The pass over [se_stopped], cut at the completion of the upload. *)
Definition stopped_before : list event :=
  [EvCreateMultipartUpload (inr "upload-2"%string); EvPopen (inr 102%N);
   EvRead 102%N (inr [x03; x04; x05]);
   EvSetIsOn false; EvScheduleUpdate false;
   EvUploadPart "upload-2"%string 1 [x03; x04; x05] (inr "etag"%string)].

Definition stopped_after : list event :=
  [EvPopenExit 102%N; EvTerminate 102%N; EvWait 102%N].

(** A call that closes the upload [u]: its completion or its abort. *)
Definition closes (u : upload_id) (e : event) : Prop :=
  match e with
  | EvCompleteMultipartUpload u' _ _ | EvAbortMultipartUpload u' _ => u' = u
  | _ => False
  end.

(** An error of the capture: a launch that fails, a read that raises. *)
Definition capture_error (e : event) : Prop :=
  match e with
  | EvPopen (inl _) | EvRead _ (inl _) => True
  | _ => False
  end.

(** The storage calls whose failure no [except] clause of
    [upload_to_s3_sync] takes: the making of the client, the creation of an
    upload, and the abort (it is made inside an [except] clause). *)
Definition fatal_call (e : event) : Prop :=
  match e with
  | EvClient (Some _) | EvCreateMultipartUpload (inl _)
  | EvAbortMultipartUpload _ (Some _) => True
  | _ => False
  end.

(** Reaping the capture process and switching the entity off. *)
Definition winding_down (e : event) : Prop :=
  match e with
  | EvTerminate _ | EvWait _ | EvSetIsOn false | EvScheduleUpdate false => True
  | _ => False
  end.

(** A segment on a store that refuses every part and the abort as well. *)
Definition se_abort_fails : segment_env :=
  {| se_create := inr "upload-1"%string; se_popen := inr 101%N;
     se_reads := [RData [x01; x02]];
     se_upload_part := fun _ => inl ClientError;
     se_complete := None; se_abort := Some ClientError |}.

Definition w_abort_fails : world :=
  {| w_client := None;
     w_script := [WSegment se_abort_fails; WSegment se_stopped] |}.

(** The run of [w_abort_fails] from an entity that is off, cut at the
    abort. *)
Definition abort_fails_before : list event :=
  [EvSetIsOn true; EvScheduleUpdate true; EvClient None;
   EvCreateMultipartUpload (inr "upload-1"%string);
   EvPopen (inr 101%N); EvRead 101%N (inr [x01; x02]);
   EvRead 101%N (inr []);
   EvUploadPart "upload-1"%string 1 [x01; x02] (inl ClientError);
   EvPopenExit 101%N].

Definition abort_fails_after : list event :=
  [EvTerminate 101%N; EvWait 101%N; EvSetIsOn false; EvScheduleUpdate false].

(** Two segments: the stream of the first ends, the second is stopped. *)
Definition w_two_segments : world :=
  {| w_client := None; w_script := [WSegment se_ended; WSegment se_stopped] |}.

(** The calls to the outside; not the writes of the flag and the reports
    to Home Assistant. *)
Definition plain (e : event) : Prop :=
  match e with
  | EvSetIsOn _ | EvScheduleUpdate _ => False
  | _ => True
  end.

(** Every write of the flag is followed at once by a
    [schedule_update_ha_state] that reports the value written, and nothing
    is reported otherwise. *)
Inductive published : list event -> Prop :=
| PublishedNil : published []
| PublishedFlag b evs :
    published evs -> published (EvSetIsOn b :: EvScheduleUpdate b :: evs)
| PublishedPlain e evs :
    plain e -> published evs -> published (e :: evs).

(** The ranges of the fields of a [datetime] with a year of four digits. *)
Definition in_range (now : datetime) : Prop :=
  (1000 <= year now <= 9999 /\ 1 <= month now <= 12 /\ 1 <= day now <= 31 /\
   hour now <= 23 /\ minute now <= 59 /\ second now <= 59 /\
   microsecond now <= 999999)%N.

(** The two moments are in the same second. *)
Definition same_second (a b : datetime) : Prop :=
  year a = year b /\ month a = month b /\ day a = day b /\
  hour a = hour b /\ minute a = minute b /\ second a = second b.

(** An entity for the stream [cam], with a [STREAM_LENGTH] of 60. *)
Definition cam_entity : SwitchRecordCameraEntity.t :=
  switch.__init__ "60" (fun _ => EmptyString)
    (JString "cam") (JString "rtsp://camera.local/live")
    "key" "secret" "eu-west-1" "recordings".

(** Two moments of one second. *)
Definition half_past_ten : datetime :=
  {| year := 2024; month := 5; day := 17;
     hour := 10; minute := 30; second := 5; microsecond := 1 |}.

Definition half_past_ten_later : datetime :=
  {| year := 2024; month := 5; day := 17;
     hour := 10; minute := 30; second := 5; microsecond := 999999 |}.

(** The stream descriptor is a dict with the key ["name"]. *)
Definition has_name (d : json) : Prop :=
  exists name, subscript d "name" = inr name.

(** The entity [e] is the one that [SwitchRecordCameraEntity(...)] makes of
    the descriptor [d], a dict with a name and with a url that is a string
    of an accepted scheme, and of the credentials of [config]. *)
Definition built_from (STREAM_LENGTH : string) (str_of : json -> string)
    (config : user_input) (d : json) (e : SwitchRecordCameraEntity.t) : Prop :=
  exists name url,
    subscript d "name" = inr name /\ has_url d url /\ rtsp_or_rtmp url /\
    e = switch.__init__ STREAM_LENGTH str_of name (JString url)
          (aws_access_key config) (aws_secret_key config)
          (aws_region config) (bucket_name config).

(** [hass.data] with two entries of the integration, and the first of the
    two entries. *)
Definition hass_two_entries : hass_data :=
  [("stream_recorder_to_s3"%string,
    [("entry-1"%string,
      [("configuration"%string, Configuration one_stream)]);
     ("entry-2"%string,
      [("configuration"%string, Configuration one_stream)])])].

Definition entry_one : ConfigEntry.t :=
  {| ConfigEntry.entry_id := "entry-1"; ConfigEntry.data := one_stream |}.

(** The stream descriptors of [one_stream_parsed]. *)
Definition one_stream_items : list json :=
  [JObject [("name"%string, JString "cam");
            ("url"%string, JString "rtsp://camera.local/live")]].

(** The set-up of the platform for [entry_one]. *)
Definition cam_setup (hass : hass_data) : switch.setup_outcome :=
  switch.async_setup_entry "stream_recorder_to_s3" "60"
    (fun _ => Some one_stream_parsed) (fun _ => EmptyString) hass entry_one.

(** Three stream descriptors: one that is accepted, one without a url, and
    a value that is no dict. *)
Definition cam_descriptor : json :=
  JObject [("name"%string, JString "cam");
           ("url"%string, JString "rtsp://camera.local/live")].

Definition door_descriptor : json := JObject [("name"%string, JString "door")].

Definition three_streams_parsed : json :=
  JArray [cam_descriptor; door_descriptor; JString "garden"].

(** * The model on concrete worlds *)

(** A turn_off in the first segment: the part is sent, the upload completed,
    the process reaped, and the call returns. *)
Example run_stopped :
  async_turn_on THRESHOLD w_stopped idle
  = {| events :=
         [EvSetIsOn true; EvScheduleUpdate true; EvClient None;
          EvCreateMultipartUpload (inr "upload-2"%string);
          EvPopen (inr 102%N); EvRead 102%N (inr [x03; x04; x05]);
          EvSetIsOn false; EvScheduleUpdate false;
          EvUploadPart "upload-2"%string 1 [x03; x04; x05]
            (inr "etag"%string);
          EvCompleteMultipartUpload "upload-2"%string [(1%N, "etag"%string)]
            None;
          EvPopenExit 102%N; EvTerminate 102%N; EvWait 102%N];
       final := idle; value := Ok tt |}.
Proof. reflexivity. Qed.

(** The capture process cannot be launched in the first pass: the entity is
    stopped, the upload is left as it is, and the [finally] clause finds
    [process] unbound. *)
Example run_launch_fails :
  async_turn_on THRESHOLD w_launch_fails idle
  = {| events :=
         [EvSetIsOn true; EvScheduleUpdate true; EvClient None;
          EvCreateMultipartUpload (inr "upload-1"%string);
          EvPopen (inl OSError); EvSetIsOn false; EvScheduleUpdate false];
       final := idle; value := Raise UnboundLocalError |}.
Proof. reflexivity. Qed.

(** The store refuses the part: abort, and on to the next segment. *)
Example run_part_fails :
  upload_to_s3_sync THRESHOLD w_part_fails active
  = {| events := part_fails_before ++ part_fails_call :: part_fails_after;
       final := idle; value := Ok tt |}.
Proof. reflexivity. Qed.

(** The buffer block with a threshold of four bytes: the buffer is sent when
    it is above four, whole, and the rest goes out at the end. *)
Example buffer_block_small :
  bodies (events (buffer_block 4 se_small 101%N "upload-1"%string active))
  = [[x01; x02; x03; x04; x05; x06]; [x07]].
Proof. reflexivity. Qed.

(** Two starts, one after the other: the read of the first run raises and
    its upload stays open; the second run creates its own. *)
Example run_two_starts :
  session_events THRESHOLD [w_read_fails; w_stopped] idle
  = two_starts_before ++ two_starts_after.
Proof. reflexivity. Qed.

(** * Facts about the monad *)

Lemma bind_Ok A B (m : M A) (k : A -> M B) s a :
  value (m s) = Ok a ->
  bind m k s = {| events := events (m s) ++ events (k a (final (m s)));
                  final := final (k a (final (m s)));
                  value := value (k a (final (m s))) |}.
Proof.
  unfold bind. destruct (m s) as [evs f v]; simpl. intros ->.
  now destruct (k a f).
Qed.

Lemma bind_Raise A B (m : M A) (k : A -> M B) s e :
  value (m s) = Raise e ->
  bind m k s = {| events := events (m s); final := final (m s);
                  value := Raise e |}.
Proof. unfold bind. destruct (m s) as [evs f v]; simpl. now intros ->. Qed.

Lemma stop_stream_to_s3_eq s :
  stop_stream_to_s3 s
  = {| events := stop_events (_attr_is_on s);
       final := {| _attr_is_on := false |}; value := Ok tt |}.
Proof. destruct s as [[|]]; reflexivity. Qed.

(** ** The flag is a function of the events *)

Lemma flag_after_app evs1 evs2 on :
  flag_after (evs1 ++ evs2) on = flag_after evs2 (flag_after evs1 on).
Proof.
  revert on. induction evs1 as [|e evs1 IH]; intros on; [reflexivity|].
  destruct e; simpl; apply IH.
Qed.

Lemma tracked_ret A (a : A) : tracked (ret a).
Proof. intros s. reflexivity. Qed.

Lemma tracked_raise A e : tracked (@raise A e).
Proof. intros s. reflexivity. Qed.

Lemma tracked_pending A : tracked (@pending A).
Proof. intros s. reflexivity. Qed.

Lemma tracked_get_is_on : tracked get_is_on.
Proof. intros s. reflexivity. Qed.

Lemma tracked_set_is_on b : tracked (set_is_on b).
Proof. intros s. reflexivity. Qed.

Lemma tracked_bind A B (m : M A) (k : A -> M B) :
  tracked m -> (forall a, tracked (k a)) -> tracked (bind m k).
Proof.
  intros Hm Hk s. specialize (Hm s). unfold bind.
  destruct (m s) as [evs f [a|e|]]; simpl in *; auto.
  specialize (Hk a f). destruct (k a f) as [evs' f' v']; simpl in *.
  now rewrite flag_after_app, <- Hm.
Qed.

Lemma tracked_try_except A (m : M A) h :
  tracked m -> (forall e k, h e = Some k -> tracked k) ->
  tracked (try_except m h).
Proof.
  intros Hm Hh s. specialize (Hm s). unfold try_except.
  destruct (m s) as [evs f [a|e|]]; simpl in *; auto.
  destruct (h e) as [k|] eqn:Ek; simpl; auto.
  specialize (Hh _ _ Ek f). destruct (k f) as [evs' f' v']; simpl in *.
  now rewrite flag_after_app, <- Hm.
Qed.

Lemma tracked_finally A (m : M A) k :
  tracked m -> tracked k -> tracked (finally m k).
Proof.
  intros Hm Hk s. specialize (Hm s). unfold finally.
  destruct (m s) as [evs f [a|e|]]; simpl in *; auto;
    specialize (Hk f); destruct (k f) as [evs' f' v']; simpl in *;
    now rewrite flag_after_app, <- Hm.
Qed.

Lemma tracked_emit e : (forall b, e <> EvSetIsOn b) -> tracked (emit e).
Proof. intros H s. destruct e; try reflexivity. now destruct (H b). Qed.

Lemma tracked_if A (b : bool) (m1 m2 : M A) :
  tracked m1 -> tracked m2 -> tracked (if b then m1 else m2).
Proof. now destruct b. Qed.

Create HintDb tracked.
#[export] Hint Resolve tracked_ret tracked_raise tracked_pending
  tracked_get_is_on tracked_set_is_on tracked_bind tracked_try_except
  tracked_finally tracked_if : tracked.

Ltac tracked_emit := apply tracked_emit; intros ?; discriminate.
#[export] Hint Extern 2 (tracked (emit _)) => tracked_emit : tracked.

Lemma tracked_schedule_update_ha_state : tracked schedule_update_ha_state.
Proof. unfold schedule_update_ha_state. auto with tracked. Qed.

Lemma tracked_stop_stream_to_s3 : tracked stop_stream_to_s3.
Proof. intros [[|]]; reflexivity. Qed.

Lemma tracked_lift_boto A (r : boto_exn + A) : tracked (lift_boto r).
Proof. destruct r; simpl; auto with tracked. Qed.

Lemma tracked_lift_proc A (r : proc_exn + A) : tracked (lift_proc r).
Proof. destruct r; simpl; auto with tracked. Qed.

Lemma tracked_lift_boto_unit r : tracked (lift_boto_unit r).
Proof. destruct r; simpl; auto with tracked. Qed.

#[export] Hint Resolve tracked_schedule_update_ha_state
  tracked_stop_stream_to_s3 tracked_lift_boto tracked_lift_proc
  tracked_lift_boto_unit : tracked.

Lemma tracked_upload_part se u pn b : tracked (upload_part se u pn b).
Proof. unfold upload_part, read_to_end. auto with tracked. Qed.

Lemma tracked_stdout_read p r : tracked (stdout_read p r).
Proof. unfold stdout_read. auto with tracked. Qed.

#[export] Hint Resolve tracked_upload_part tracked_stdout_read : tracked.

Lemma tracked_loop_body t se u chunk st : tracked (loop_body t se u chunk st).
Proof.
  unfold loop_body. apply tracked_if; auto with tracked.
  apply tracked_bind; auto with tracked. intros [e b]. auto with tracked.
Qed.

#[export] Hint Resolve tracked_loop_body : tracked.

Lemma tracked_read_loop t se p u reads st :
  tracked (read_loop t se p u reads st).
Proof.
  revert st. induction reads as [|[|chunk|e] rest IH]; intros st; simpl;
    auto 12 with tracked.
Qed.

#[export] Hint Resolve tracked_read_loop : tracked.

Lemma tracked_flush_remainder se u st : tracked (flush_remainder se u st).
Proof.
  unfold flush_remainder. apply tracked_if; auto with tracked.
  apply tracked_bind; auto with tracked. intros [e b]. auto with tracked.
Qed.

#[export] Hint Resolve tracked_flush_remainder : tracked.

Lemma tracked_buffer_block t se p u : tracked (buffer_block t se p u).
Proof. unfold buffer_block. auto with tracked. Qed.

#[export] Hint Resolve tracked_buffer_block : tracked.

Lemma tracked_segment t se process : tracked (segment t se process).
Proof.
  unfold segment, create_multipart_upload, popen, popen_block, buffer_block,
    complete_multipart_upload.
  apply tracked_bind; auto with tracked. intros u.
  apply tracked_bind; auto with tracked.
  apply tracked_finally.
  - apply tracked_try_except; auto 10 with tracked.
    intros e k. unfold segment_handler, abort_multipart_upload.
    destruct e; intros [= <-]; auto with tracked.
  - unfold terminate_and_wait. destruct (bound_process se process);
      auto with tracked.
Qed.

#[export] Hint Resolve tracked_segment : tracked.

Lemma tracked_upload_loop t script process :
  tracked (upload_loop t script process).
Proof.
  revert process. induction script as [|[|se] rest IH]; intros process; simpl;
    auto 12 with tracked.
Qed.

#[export] Hint Resolve tracked_upload_loop : tracked.

(** ** The shape of what the buffer block does *)

Lemma block_shape_bind p u A B (m : M A) (k : A -> M B) s :
  block_shape p u (m s) -> (forall a s', block_shape p u (k a s')) ->
  block_shape p u (bind m k s).
Proof.
  intros [a Hv Hq|e pn body pre Hv He Hq|e pre Hv He Hq] Hk.
  - rewrite (bind_Ok _ _ _ _ _ _ Hv).
    destruct (Hk a (final (m s)))
      as [b Hv' Hq'|e pn body pre Hv' He' Hq'|e pre Hv' He' Hq'].
    + eapply BlockOk; simpl; eauto using Forall_app. apply Forall_app; auto.
    + eapply BlockUploadFails with (pre := events (m s) ++ pre); simpl; eauto.
      * rewrite He'. now rewrite app_assoc.
      * apply Forall_app; auto.
    + eapply BlockReadFails with (pre := events (m s) ++ pre); simpl; eauto.
      * rewrite He'. now rewrite app_assoc.
      * apply Forall_app; auto.
  - rewrite (bind_Raise _ _ _ _ _ _ Hv). eapply BlockUploadFails; simpl; eauto.
  - rewrite (bind_Raise _ _ _ _ _ _ Hv). eapply BlockReadFails; simpl; eauto.
Qed.

Lemma block_shape_ret p u A (a : A) s : block_shape p u (ret a s).
Proof. eapply BlockOk; simpl; eauto. Qed.

Lemma block_shape_get_is_on p u s : block_shape p u (get_is_on s).
Proof. eapply BlockOk; simpl; eauto. Qed.

Lemma block_shape_stop p u s : block_shape p u (stop_stream_to_s3 s).
Proof.
  rewrite stop_stream_to_s3_eq. eapply BlockOk; simpl; eauto.
  destruct (_attr_is_on s); simpl; repeat constructor.
Qed.

Lemma block_shape_stdout_read p u r s : block_shape p u (stdout_read p r s).
Proof.
  destruct r as [e|c].
  - eapply BlockReadFails with (pre := []); simpl; eauto.
  - eapply BlockOk; simpl; eauto. repeat constructor.
Qed.

Lemma block_shape_upload_part p u se pn b s :
  block_shape p u (upload_part se u pn b s).
Proof.
  unfold upload_part, read_to_end, bind, emit. simpl.
  destruct (se_upload_part se pn) as [e|t]; simpl.
  - eapply BlockUploadFails with (pre := []); simpl; eauto.
  - eapply BlockOk; simpl; eauto. repeat constructor.
Qed.

Lemma block_shape_if p u A (b : bool) (m1 m2 : M A) s :
  block_shape p u (m1 s) -> block_shape p u (m2 s) ->
  block_shape p u ((if b then m1 else m2) s).
Proof. now destruct b. Qed.

Create HintDb shape.
#[export] Hint Resolve block_shape_bind block_shape_ret block_shape_get_is_on
  block_shape_stop block_shape_stdout_read block_shape_upload_part
  block_shape_if : shape.

Lemma block_shape_loop_body t p u se chunk st s :
  block_shape p u (loop_body t se u chunk st s).
Proof.
  unfold loop_body. apply block_shape_if; auto with shape.
  apply block_shape_bind; auto with shape. intros [e b] s'. auto with shape.
Qed.

#[export] Hint Resolve block_shape_loop_body : shape.

Lemma block_shape_read_loop t p u se reads st s :
  block_shape p u (read_loop t se p u reads st s).
Proof.
  revert st s. induction reads as [|[|chunk|e] rest IH]; intros st s; simpl;
    auto 12 with shape.
Qed.

Lemma block_shape_flush_remainder p u se st s :
  block_shape p u (flush_remainder se u st s).
Proof.
  unfold flush_remainder. apply block_shape_if; auto with shape.
  apply block_shape_bind; auto with shape. intros [e b] s'. auto with shape.
Qed.

Lemma block_shape_buffer_block t p u se s :
  block_shape p u (buffer_block t se p u s).
Proof.
  unfold buffer_block.
  auto using block_shape_read_loop, block_shape_flush_remainder with shape.
Qed.

(** ** The shape of a segment *)

Lemma flag_after_read_fails body p e on :
  flag_after (body ++ [EvRead p (inl e)]) on = flag_after body on.
Proof. now rewrite flag_after_app. Qed.

Lemma segment_shape_holds t se process s :
  segment_shape se process s (segment t se process s).
Proof.
  unfold segment, create_multipart_upload, bound_process, popen.
  destruct (se_create se) as [e|u] eqn:Ec.
  { eapply SegCreateFails; [exact Ec|reflexivity|reflexivity]. }
  destruct (se_popen se) as [e|p] eqn:Ep.
  { eapply SegPopenFails; [exact Ec|exact Ep| |];
      destruct s as [[|]]; destruct process; reflexivity. }
  pose proof (block_shape_buffer_block t p u se s) as H.
  pose proof (tracked_buffer_block t se p u s) as Hf.
  unfold popen_block, complete_multipart_upload, terminate_and_wait,
    abort_multipart_upload.
  unfold bind, finally, try_except, emit, ret, raise, lift_boto_unit;
    cbn -[buffer_block].
  destruct (buffer_block t se p u s) as [evs f v].
  destruct H as [st Hv Hq|e pn body pre Hv He Hq|e pre Hv He Hq];
    simpl in Hv, Hq, Hf; try simpl in He; subst v; cbn.
  - destruct (se_complete se) as [e|] eqn:Ecomp; cbn.
    + eapply SegStorageFails with (body := evs)
        (ev := EvCompleteMultipartUpload u (ls_parts st) (Some e));
        [exact Ec|exact Ep|exact Hq|constructor| |].
      * destruct (se_abort se); cbn; now rewrite <- ?app_assoc.
      * destruct (se_abort se); reflexivity.
    + eapply SegCompleted with (body := evs);
        [exact Ec|exact Ep|exact Hq| |reflexivity]; cbn.
      now rewrite <- ?app_assoc.
  - eapply SegStorageFails with (body := pre);
      [exact Ec|exact Ep|exact Hq|constructor| |].
    + subst evs. destruct (se_abort se); cbn; now rewrite <- ?app_assoc.
    + destruct (se_abort se); reflexivity.
  - eapply SegReadFails with (body := pre);
      [exact Ec|exact Ep|exact Hq| |].
    + subst evs. rewrite flag_after_read_fails in Hf.
      destruct f as [on]; simpl in Hf; subst on.
      destruct (flag_after pre (_attr_is_on s)); cbn;
        now rewrite <- ?app_assoc.
    + destruct f as [[|]]; reflexivity.
Qed.

Lemma segment_returns t se process s :
  value (segment t se process s) <> Pending.
Proof.
  destruct (segment_shape_holds t se process s)
    as [e _ _ Hv|u e _ _ _ Hv|u p body parts _ _ _ _ Hv
       |u p body ev _ _ _ _ _ Hv|u p body e _ _ _ _ Hv];
    rewrite Hv; try discriminate.
  - now destruct process.
  - now destruct (se_abort se).
Qed.

Lemma quiet_not_failed p u u' e : quiet p u e -> failed_call u' e -> False.
Proof. intros Hq Hf. destruct Hf; simpl in Hq; exact Hq. Qed.

Lemma stop_events_In e on :
  In e (stop_events on) -> e = EvSetIsOn false \/ e = EvScheduleUpdate false.
Proof. destruct on; simpl; intuition. Qed.

Lemma terminate_events_In e process :
  In e (terminate_events process) ->
  exists p, e = EvTerminate p \/ e = EvWait p.
Proof. destruct process as [p|]; simpl; [exists p|]; intuition. Qed.

(** Splits the memberships in the lists of [segment_shape] into their
    cases. *)
Ltac in_cases H :=
  simpl in H; repeat (rewrite in_app_iff in H; simpl in H);
  repeat match goal with
  | H' : _ \/ _ |- _ => destruct H' as [H'|H']
  | H' : False |- _ => destruct H'
  | H' : In _ (stop_events _) |- _ => apply stop_events_In in H'
  | H' : In _ (terminate_events _) |- _ =>
      apply terminate_events_In in H'; destruct H' as [? H']
  end.

(** Closes a goal in which an event that is not [quiet] is among quiet
    ones. *)
Ltac not_quiet Hin Hq :=
  exfalso; exact (proj1 (Forall_forall _ _) Hq _ Hin).

(** The five cases of [segment_shape_holds], with fixed names. *)
Ltac shape_cases t se process s :=
  destruct (segment_shape_holds t se process s)
    as [e' Hc He Hv|u' e' Hc Hp He Hv|u' q body parts Hc Hp Hq He Hv
       |u' q body ev' Hc Hp Hq Hf He Hv|u' q body e' Hc Hp Hq He Hv].

Lemma segment_popen_event t se process s r :
  In (EvPopen r) (events (segment t se process s)) -> se_popen se = r.
Proof.
  intros Hin. shape_cases t se process s; rewrite He in Hin; in_cases Hin;
    try congruence;
    try not_quiet Hin Hq.
  subst ev'. inversion Hf.
Qed.

(** * The capture process is reaped on every way out of a segment *)

(** C7: in every pass of the outer loop, whichever way it goes (the stream
    ends, a read or the subprocess raises, an S3 call raises, a turn_off
    lands), the pass itself comes to an end, and a capture process that was
    launched in it has [terminate] and then [wait] called on it as the last
    two things the pass does. *)
Theorem capture_process_always_reaped t se process s p :
  In (EvPopen (inr p)) (events (segment t se process s)) ->
  value (segment t se process s) <> Pending /\
  exists pre,
    events (segment t se process s) = pre ++ [EvTerminate p; EvWait p].
Proof.
  intros Hin. split; [apply segment_returns|].
  pose proof (segment_popen_event _ _ _ _ _ Hin) as Hpo.
  shape_cases t se process s; rewrite He; try congruence;
    try (assert (q = p) by congruence; subst q).
  - rewrite He in Hin. in_cases Hin; congruence.
  - exists (EvCreateMultipartUpload (inr u') :: EvPopen (inr p) :: body
            ++ [EvCompleteMultipartUpload u' parts None; EvPopenExit p]).
    simpl. now rewrite <- app_assoc.
  - exists (EvCreateMultipartUpload (inr u') :: EvPopen (inr p) :: body
            ++ [ev'; EvPopenExit p; EvAbortMultipartUpload u' (se_abort se)]).
    simpl. now rewrite <- app_assoc.
  - exists (EvCreateMultipartUpload (inr u') :: EvPopen (inr p) :: body
            ++ [EvRead p (inl e'); EvPopenExit p]
            ++ stop_events (flag_after body (_attr_is_on s))).
    simpl. now rewrite <- !app_assoc.
Qed.

(** * Storage failures *)

Lemma quiet_s3_event_on p u u' e : quiet p u e -> s3_event_on u' e -> u = u'.
Proof.
  intros Hq Hs. destruct e; simpl in *; try contradiction.
  destruct r; [contradiction|congruence].
Qed.

Lemma failed_call_s3_event_on u u' e :
  failed_call u e -> s3_event_on u' e -> u = u'.
Proof. intros []; simpl; auto. Qed.

Lemma failed_call_is_s3_event u e : failed_call u e -> s3_event_on u e.
Proof. intros []; reflexivity. Qed.

Lemma segment_s3_event_on t se process s u e :
  In e (events (segment t se process s)) -> s3_event_on u e ->
  se_create se = inr u.
Proof.
  intros Hin Hon.
  shape_cases t se process s; rewrite He in Hin; in_cases Hin;
    try (subst e; simpl in Hon; try contradiction; congruence);
    try (pose proof (proj1 (Forall_forall _ _) Hq _ Hin) as Hx;
         rewrite (quiet_s3_event_on _ _ _ _ Hx Hon) in Hc; exact Hc).
  subst e. rewrite (failed_call_s3_event_on _ _ _ Hf Hon) in Hc. exact Hc.
Qed.

Lemma upload_loop_s3_event_on t script process s u e :
  In e (events (upload_loop t script process s)) -> s3_event_on u e ->
  In u (created_ids script).
Proof.
  revert process s. induction script as [|[|se] rest IH]; intros process s.
  - simpl. unfold bind, get_is_on. destruct (_attr_is_on s); simpl;
      contradiction.
  - simpl. unfold bind at 1. rewrite stop_stream_to_s3_eq.
    destruct (upload_loop t rest process {| _attr_is_on := false |})
      as [evs f v] eqn:E. simpl.
    intros Hin Hon. in_cases Hin; try (subst e; contradiction).
    apply (IH process {| _attr_is_on := false |}); [|exact Hon].
    rewrite E. exact Hin.
  - simpl. unfold bind at 1, get_is_on.
    destruct (_attr_is_on s); [|simpl; contradiction].
    simpl. unfold bind.
    pose proof (segment_s3_event_on t se process s u e) as Hs.
    destruct (segment t se process s) as [evs f [q| |]]; simpl in *;
      rewrite ?app_nil_r; intros Hin Hon;
      try (rewrite (Hs Hin Hon); now left).
    specialize (IH q f).
    destruct (upload_loop t rest q f) as [evs' f' v']; simpl in *.
    in_cases Hin.
    + rewrite (Hs Hin Hon); now left.
    + specialize (IH Hin Hon). destruct (se_create se); [exact IH|now right].
Qed.

Lemma split_unique A (P : A -> Prop) (l1 l2 l1' l2' : list A) x x' :
  l1 ++ x :: l2 = l1' ++ x' :: l2' ->
  Forall (fun a => ~ P a) l1 -> Forall (fun a => ~ P a) l2 -> P x' ->
  l1 = l1' /\ x = x' /\ l2 = l2'.
Proof.
  revert l1'. induction l1 as [|a l1 IH]; intros [|y l1'] Heq H1 H2 Hx;
    simpl in Heq; injection Heq as -> Heq.
  - auto.
  - subst l2. rewrite Forall_forall in H2.
    destruct (H2 x'); auto using in_elt.
  - inversion H1; subst. contradiction.
  - inversion H1; subst.
    destruct (IH _ Heq) as (-> & -> & ->); auto.
Qed.

Lemma quiet_no_failed_call p u body :
  Forall (quiet p u) body -> Forall (fun e => ~ some_failed_call e) body.
Proof.
  intros H. eapply Forall_impl; [|exact H].
  intros e Hq [u' Hf]. eapply quiet_not_failed; eauto.
Qed.

Lemma quiet_no_abort p u body u' r :
  Forall (quiet p u) body -> ~ In (EvAbortMultipartUpload u' r) body.
Proof. intros H Hin. not_quiet Hin H. Qed.

(** Within one pass: a failed call on [u] is followed by the exit of the
    [with] block, one abort of [u], and the reaping of the process; no abort
    comes before it. *)
Lemma segment_failed_call t se process s u pre ev post :
  events (segment t se process s) = pre ++ ev :: post ->
  failed_call u ev ->
  se_create se = inr u /\
  (forall u' r, ~ In (EvAbortMultipartUpload u' r) pre) /\
  exists p, post = [EvPopenExit p; EvAbortMultipartUpload u (se_abort se);
                    EvTerminate p; EvWait p].
Proof.
  intros Heq Hfail.
  assert (Hin : In ev (events (segment t se process s)))
    by (rewrite Heq; apply in_elt).
  shape_cases t se process s; rewrite He in Hin.
  1,2,3,5: exfalso; in_cases Hin; try (subst ev; inversion Hfail);
    (eapply quiet_not_failed;
     [exact (proj1 (Forall_forall _ _) Hq _ Hin)|exact Hfail]).
  clear Hin. rewrite He in Heq.
  change (EvCreateMultipartUpload (inr u') :: EvPopen (inr q) :: body
          ++ [ev'; EvPopenExit q; EvAbortMultipartUpload u' (se_abort se);
              EvTerminate q; EvWait q])
    with ((EvCreateMultipartUpload (inr u') :: EvPopen (inr q) :: body)
          ++ ev' :: [EvPopenExit q; EvAbortMultipartUpload u' (se_abort se);
                     EvTerminate q; EvWait q]) in Heq.
  apply split_unique with (P := some_failed_call) in Heq.
  - destruct Heq as (<- & -> & <-).
    assert (u' = u) as ->.
    { eapply failed_call_s3_event_on; [exact Hf|].
      now apply failed_call_is_s3_event. }
    split; [exact Hc|]. split; [|now exists q].
    intros u0 r Hin. in_cases Hin; try discriminate.
    eapply quiet_no_abort; eauto.
  - repeat constructor; try (intros [? Hx]; inversion Hx).
    eapply quiet_no_failed_call; eauto.
  - repeat constructor; intros [? Hx]; inversion Hx.
  - now exists u.
Qed.

Lemma app_split A (l1 l2 pre post : list A) x :
  l1 ++ l2 = pre ++ x :: post ->
  (exists post1, l1 = pre ++ x :: post1 /\ post = post1 ++ l2) \/
  (exists pre2, pre = l1 ++ pre2 /\ l2 = pre2 ++ x :: post).
Proof.
  revert pre. induction l1 as [|a l1 IH]; intros pre Heq.
  - right. now exists pre.
  - destruct pre as [|b pre]; simpl in Heq; injection Heq as -> Heq.
    + left. now exists l1.
    + destruct (IH _ Heq) as [(post1 & -> & ->)|(pre2 & -> & ->)].
      * left. now exists post1.
      * right. now exists pre2.
Qed.

(** What the outer loop does from a pass on: the events of the pass, then
    those of the rest of the loop. *)
Lemma upload_loop_segment t se rest process s :
  _attr_is_on s = true ->
  events (upload_loop t (WSegment se :: rest) process s)
  = events (segment t se process s)
    ++ loop_rest t rest (segment t se process s).
Proof.
  intros Hon. simpl. unfold bind at 1, get_is_on. rewrite Hon. simpl.
  unfold bind, loop_rest.
  destruct (segment t se process s) as [evs f [q| |]]; simpl.
  - now destruct (upload_loop t rest q f) as [evs' f' v'].
  - now rewrite app_nil_r.
  - now rewrite app_nil_r.
Qed.

Lemma loop_rest_s3_event_on t rest r u e :
  In e (loop_rest t rest r) -> s3_event_on u e -> In u (created_ids rest).
Proof.
  unfold loop_rest. destruct (value r); try contradiction.
  apply upload_loop_s3_event_on.
Qed.

Lemma upload_loop_off t script process s :
  _attr_is_on s = false ->
  upload_loop t script process s
  = {| events := []; final := s; value := Ok tt |}.
Proof.
  revert s. induction script as [|[|se] rest IH]; intros [on] Hon;
    simpl in Hon; subst on.
  - reflexivity.
  - simpl. unfold bind at 1. rewrite stop_stream_to_s3_eq. simpl.
    now rewrite IH.
  - reflexivity.
Qed.

Lemma upload_loop_stop t rest process s :
  upload_loop t (WStop :: rest) process s
  = {| events := stop_events (_attr_is_on s);
       final := {| _attr_is_on := false |}; value := Ok tt |}.
Proof.
  simpl. unfold bind at 1. rewrite stop_stream_to_s3_eq.
  rewrite upload_loop_off by reflexivity. simpl. now rewrite app_nil_r.
Qed.

Lemma created_ids_segment_NoDup se rest :
  NoDup (created_ids (WSegment se :: rest)) ->
  NoDup (created_ids rest) /\
  forall u, se_create se = inr u -> ~ In u (created_ids rest).
Proof.
  simpl. destruct (se_create se) as [e|u0].
  - intros H. split; [exact H|]. discriminate.
  - intros H. inversion H; subst. split; [assumption|].
    now intros u [= <-].
Qed.

Lemma upload_loop_failed_call t script :
  forall process s u pre ev post,
    NoDup (created_ids script) ->
    events (upload_loop t script process s) = pre ++ ev :: post ->
    failed_call u ev ->
    (forall r, ~ In (EvAbortMultipartUpload u r) pre) /\
    exists p r post',
      post = EvPopenExit p :: EvAbortMultipartUpload u r :: post' /\
      Forall (fun e => ~ s3_event_on u e) post'.
Proof.
  induction script as [|[|se] rest IH];
    intros process s u pre ev post Hnd Heq Hf.
  - exfalso. simpl in Heq. unfold bind, get_is_on in Heq.
    destruct (_attr_is_on s); simpl in Heq; now destruct pre.
  - exfalso. rewrite upload_loop_stop in Heq. simpl in Heq.
    assert (Hin : In ev (stop_events (_attr_is_on s)))
      by (rewrite Heq; apply in_elt).
    apply stop_events_In in Hin. destruct Hin; subst ev; inversion Hf.
  - destruct (_attr_is_on s) eqn:Hon.
    2:{ exfalso. rewrite upload_loop_off in Heq by exact Hon.
        simpl in Heq. now destruct pre. }
    destruct (created_ids_segment_NoDup _ _ Hnd) as [Hnd' Hfresh].
    rewrite (upload_loop_segment t se rest process s Hon) in Heq.
    pose proof (loop_rest_s3_event_on t rest (segment t se process s) u)
      as Html.
    apply app_split in Heq.
    destruct Heq as [(post1 & Hs & ->)|(pre2 & -> & Ht)].
    + destruct (segment_failed_call _ _ _ _ _ _ _ _ Hs Hf)
        as (Hc & Hna & p & ->).
      split; [intros r; apply Hna|].
      exists p, (se_abort se),
        ([EvTerminate p; EvWait p]
         ++ loop_rest t rest (segment t se process s)).
      split; [reflexivity|].
      apply Forall_app. split; [repeat constructor; intros []|].
      apply Forall_forall. intros e Hin Hs3.
      apply (Hfresh u Hc). eauto.
    + assert (Hev : In ev (loop_rest t rest (segment t se process s)))
        by (rewrite Ht; apply in_elt).
      unfold loop_rest in Ht.
      destruct (value (segment t se process s)) as [q| |];
        try (now destruct pre2).
      destruct (IH _ _ _ _ _ _ Hnd' Ht Hf) as (Hna & Hpost).
      split; [|exact Hpost].
      intros r Hin. apply in_app_iff in Hin. destruct Hin as [Hin|Hin].
      * assert (Hc : se_create se = inr u)
          by (eapply segment_s3_event_on; [exact Hin|reflexivity]).
        apply (Hfresh u Hc).
        apply (Html ev Hev). now apply failed_call_is_s3_event.
      * exact (Hna r Hin).
Qed.

(** * A failed storage call is answered by exactly one abort *)

(** C5: in every run of the recorder, on a store that hands out each upload
    id once, a failed [upload_part] or [complete_multipart_upload] call on
    an upload [u] has no abort of [u] before it, is followed at once by the
    exit of the [with] block and the abort of [u], and after that abort no
    call on [u] is made any more: no part, no completion, no second abort. *)
Theorem failed_call_aborted_exactly_once t w s u pre ev post :
  NoDup (created_ids (w_script w)) ->
  events (upload_to_s3_sync t w s) = pre ++ ev :: post ->
  failed_call u ev ->
  (forall r, ~ In (EvAbortMultipartUpload u r) pre) /\
  exists p r post',
    post = EvPopenExit p :: EvAbortMultipartUpload u r :: post' /\
    Forall (fun e => ~ s3_event_on u e) post'.
Proof.
  intros Hnd Heq Hf.
  unfold upload_to_s3_sync, boto3_client in Heq.
  unfold bind at 1 2, emit in Heq.
  destruct (w_client w) as [e|]; simpl in Heq.
  - destruct pre as [|a [|b pre]]; simpl in Heq; try discriminate.
    injection Heq as <-. inversion Hf.
  - destruct (upload_loop t (w_script w) None s) as [evs f v] eqn:E.
    simpl in Heq. destruct pre as [|a pre]; simpl in Heq.
    + injection Heq as <- _. inversion Hf.
    + injection Heq as <- Heq.
      assert (Heq' : events (upload_loop t (w_script w) None s)
                     = pre ++ ev :: post) by (rewrite E; exact Heq).
      destruct (upload_loop_failed_call _ _ _ _ _ _ _ _ Hnd Heq' Hf)
        as (Hna & Hpost).
      split; [|exact Hpost].
      intros r [Hin|Hin]; [discriminate|exact (Hna r Hin)].
Qed.

(** * The buffer *)

Lemma blen_app l1 l2 : blen (l1 ++ l2) = (blen l1 + blen l2)%N.
Proof. unfold blen. rewrite length_app. lia. Qed.

Lemma blen_nil : blen [] = 0%N.
Proof. reflexivity. Qed.

Lemma blen_pos l : l <> [] -> (0 < blen l)%N.
Proof. destruct l; [congruence|]. unfold blen. simpl. lia. Qed.

Lemma write_at_end b chunk :
  at_end b ->
  write b chunk = {| getvalue := getvalue b ++ chunk;
                     pos := length (getvalue b ++ chunk) |}.
Proof.
  unfold at_end, write. intros ->.
  rewrite firstn_all, Nat.sub_diag, skipn_all2 by lia.
  simpl. now rewrite app_nil_r, length_app.
Qed.

Lemma at_end_new : at_end new_BytesIO.
Proof. reflexivity. Qed.

Lemma bodies_app evs1 evs2 : bodies (evs1 ++ evs2) = bodies evs1 ++ bodies evs2.
Proof.
  induction evs1 as [|e evs1 IH]; [reflexivity|].
  destruct e; simpl; now rewrite ?IH.
Qed.

(** One turn of the read loop on a chunk, when the part (if one is sent) is
    acknowledged: either the buffer went over the threshold, was sent whole
    and is empty again, or it stayed within the threshold and was kept. *)
Lemma loop_body_ok t se u chunk st s :
  at_end (ls_buffer st) -> uploads_ok se ->
  exists evs st',
    loop_body t se u chunk st s
    = {| events := evs; final := s; value := Ok st' |} /\
    ((t < blen (getvalue (ls_buffer st) ++ chunk))%N /\
     (exists tg, evs = [EvUploadPart u (ls_part_number st)
                          (getvalue (ls_buffer st) ++ chunk) (inr tg)]) /\
     ls_buffer st' = new_BytesIO
     \/
     (blen (getvalue (ls_buffer st) ++ chunk) <= t)%N /\
     evs = [] /\
     ls_buffer st' = {| getvalue := getvalue (ls_buffer st) ++ chunk;
                        pos := length (getvalue (ls_buffer st) ++ chunk) |}).
Proof.
  intros Hend Hok. unfold loop_body. rewrite (write_at_end _ chunk Hend).
  unfold tell. cbn [pos].
  change (N.of_nat (length (getvalue (ls_buffer st) ++ chunk)))
    with (blen (getvalue (ls_buffer st) ++ chunk)).
  destruct (t <? blen (getvalue (ls_buffer st) ++ chunk))%N eqn:E.
  - apply N.ltb_lt in E. destruct (Hok (ls_part_number st)) as [tg Htg].
    unfold upload_part, read_to_end, seek. simpl.
    unfold bind, emit, lift_boto. rewrite Htg. simpl.
    eexists _, _. split; [reflexivity|]. left.
    split; [exact E|]. split; [now exists tg|reflexivity].
  - apply N.ltb_ge in E.
    eexists _, _. split; [reflexivity|]. right. simpl. auto.
Qed.

Lemma prepend_nil A (r : outcome A) : prepend [] r = r.
Proof. now destruct r. Qed.

Lemma prepend_prepend A evs1 evs2 (r : outcome A) :
  prepend evs1 (prepend evs2 r) = prepend (evs1 ++ evs2) r.
Proof. destruct r. simpl. now rewrite app_assoc. Qed.

Lemma bind_eq A B (m : M A) (k : A -> M B) s evs s' a :
  m s = {| events := evs; final := s'; value := Ok a |} ->
  bind m k s = prepend evs (k a s').
Proof. unfold bind. now intros ->. Qed.

Lemma bind_get_is_on B (k : bool -> M B) s :
  bind get_is_on k s = k (_attr_is_on s) s.
Proof. unfold bind, get_is_on. apply prepend_nil. Qed.

Lemma bind_stdout_read B p c (k : list byte -> M B) s :
  bind (stdout_read p (inr c)) k s = prepend [EvRead p (inr c)] (k c s).
Proof. reflexivity. Qed.

Lemma bind_stop B (k : unit -> M B) s :
  bind stop_stream_to_s3 k s
  = prepend (stop_events (_attr_is_on s)) (k tt {| _attr_is_on := false |}).
Proof. apply bind_eq. apply stop_stream_to_s3_eq. Qed.

(** Once the flag is off the read loop is over, whatever is still to come. *)
Lemma read_loop_off t se p u reads st s :
  _attr_is_on s = false ->
  read_loop t se p u reads st s
  = {| events := []; final := s; value := Ok st |}.
Proof.
  revert s. induction reads as [|[|c|e] rest IH]; intros [on] Hon;
    simpl in Hon; subst on; try reflexivity.
  simpl. rewrite bind_stop. simpl. now rewrite IH.
Qed.

(** The read loop over reads that all bring data, with every part
    acknowledged and no turn_off: the parts sent and the buffer that is left
    are together what was in the buffer and what was read, every part sent
    is larger than the threshold, and a buffer within the threshold stays
    within it. *)
Lemma read_loop_data t se p u data :
  forall st s tail,
    _attr_is_on s = true -> Forall (fun c => c <> []) data ->
    uploads_ok se -> at_end (ls_buffer st) ->
    exists evs st',
      read_loop t se p u (map RData data ++ tail) st s
      = prepend evs (read_loop t se p u tail st' s) /\
      Forall (data_event p u) evs /\
      at_end (ls_buffer st') /\
      concat (bodies evs) ++ getvalue (ls_buffer st')
      = getvalue (ls_buffer st) ++ concat data /\
      Forall (fun b => (t < blen b)%N) (bodies evs) /\
      ((blen (getvalue (ls_buffer st)) <= t)%N ->
       (blen (getvalue (ls_buffer st')) <= t)%N).
Proof.
  induction data as [|c data IH]; intros st s tail Hon Hne Hok Hend.
  - exists [], st. simpl. rewrite prepend_nil, app_nil_r. repeat split; auto.
  - inversion Hne as [|? ? Hc Hne']; subst.
    destruct (loop_body_ok t se u c st s Hend Hok)
      as (evs1 & st1 & Hbody & Hcase).
    assert (Hend1 : at_end (ls_buffer st1)).
    { destruct Hcase as [(_ & _ & ->)|(_ & _ & ->)]; reflexivity. }
    destruct (IH st1 s tail Hon Hne' Hok Hend1)
      as (evs2 & st2 & Hloop & Hev2 & Hend2 & Hcat & Hbig & Hsmall).
    exists (EvRead p (inr c) :: evs1 ++ evs2), st2.
    split; [|split; [|split; [exact Hend2|split; [|split]]]].
    + cbn [map app read_loop]. rewrite bind_get_is_on, Hon.
      rewrite bind_stdout_read.
      destruct c as [|b c]; [congruence|]. cbn [is_empty].
      rewrite (bind_eq _ _ _ _ _ _ _ _ Hbody), Hloop.
      now rewrite !prepend_prepend.
    + constructor; [destruct c; [congruence|reflexivity]|].
      apply Forall_app. split; [|exact Hev2].
      destruct Hcase as [(_ & (tg & ->) & _)|(_ & -> & _)];
        repeat constructor.
    + cbn [bodies]. rewrite bodies_app, concat_app, <- app_assoc, Hcat.
      destruct Hcase as [(_ & (tg & ->) & ->)|(_ & -> & ->)]; simpl;
        now rewrite ?app_nil_r, <- ?app_assoc.
    + cbn [bodies]. rewrite bodies_app. apply Forall_app.
      split; [|exact Hbig].
      destruct Hcase as [(Hlt & (tg & ->) & _)|(_ & -> & _)];
        repeat constructor. exact Hlt.
    + intros _. apply Hsmall.
      destruct Hcase as [(_ & _ & ->)|(Hle & _ & ->)]; simpl;
        [rewrite blen_nil; lia|exact Hle].
Qed.

(** The last part: what is left in the buffer, if anything is. *)
Lemma flush_remainder_ok se u st s :
  at_end (ls_buffer st) -> uploads_ok se ->
  exists evs st',
    flush_remainder se u st s
    = {| events := evs; final := s; value := Ok st' |} /\
    (getvalue (ls_buffer st) = [] /\ evs = [] /\ ls_parts st' = ls_parts st
     \/
     getvalue (ls_buffer st) <> [] /\
     exists tg, evs = [EvUploadPart u (ls_part_number st)
                         (getvalue (ls_buffer st)) (inr tg)]).
Proof.
  intros Hend Hok. unfold flush_remainder, tell. rewrite Hend.
  destruct (getvalue (ls_buffer st)) as [|b l] eqn:E.
  - simpl. eexists _, _. split; [reflexivity|]. left. auto.
  - destruct (Hok (ls_part_number st)) as [tg Htg].
    replace (0 <? N.of_nat (length (b :: l)))%N with true
      by (symmetry; apply N.ltb_lt; simpl; lia).
    unfold upload_part, read_to_end, seek. simpl. rewrite E.
    unfold bind, emit, lift_boto. rewrite Htg. simpl.
    eexists _, _. split; [reflexivity|]. right.
    split; [discriminate|]. now exists tg.
Qed.

Lemma read_loop_eof t se p u st s :
  _attr_is_on s = true ->
  read_loop t se p u [] st s
  = {| events := [EvRead p (inr [])]; final := s; value := Ok st |}.
Proof. intros Hon. simpl. rewrite bind_get_is_on, Hon. reflexivity. Qed.

Lemma read_loop_stop t se p u rest st s :
  read_loop t se p u (RStop :: rest) st s
  = {| events := stop_events (_attr_is_on s);
       final := {| _attr_is_on := false |}; value := Ok st |}.
Proof.
  simpl. rewrite bind_stop, read_loop_off by reflexivity.
  simpl. now rewrite app_nil_r.
Qed.

(** ** Sizes *)

Lemma sizes_sum_concat chunks : sizes_sum chunks = blen (concat chunks).
Proof.
  induction chunks as [|c chunks IH]; [reflexivity|].
  unfold sizes_sum in *. simpl. now rewrite blen_app, IH.
Qed.

Lemma sizes_sum_app l1 l2 :
  sizes_sum (l1 ++ l2) = (sizes_sum l1 + sizes_sum l2)%N.
Proof. now rewrite !sizes_sum_concat, concat_app, blen_app. Qed.

Lemma sizes_sum_big t chunks :
  Forall (fun b => (t < blen b)%N) chunks ->
  (N.of_nat (length chunks) * (t + 1) <= sizes_sum chunks)%N.
Proof.
  induction 1 as [|c chunks Hc _ IH]; [reflexivity|].
  unfold sizes_sum in *. cbn [length map fold_right]. lia.
Qed.

Lemma buffer_block_data t se p u s data tail :
  _attr_is_on s = true ->
  se_reads se = map RData data ++ tail -> clean_exit tail ->
  Forall (fun c => c <> []) data -> uploads_ok se ->
  exists body flush st',
    buffer_block t se p u s
    = {| events := body ++ exit_events p tail ++ flush;
         final := {| _attr_is_on := exit_flag tail |}; value := Ok st' |} /\
    Forall (data_event p u) body /\
    concat (bodies body) ++ concat (bodies flush) = concat data /\
    Forall (fun b => (t < blen b)%N) (bodies body) /\
    (flush = [] \/
     exists pn b tg, b <> [] /\ flush = [EvUploadPart u pn b (inr tg)]).
Proof.
  intros Hon Hreads Hexit Hne Hok.
  destruct (read_loop_data t se p u data
              {| ls_buffer := new_BytesIO; ls_parts := []; ls_part_number := 1 |}
              s tail Hon Hne Hok at_end_new)
    as (body & st1 & Hloop & Hbody & Hend & Hcat & Hbig & _).
  simpl in Hcat.
  assert (Htail : read_loop t se p u tail st1 s
                  = {| events := exit_events p tail;
                       final := {| _attr_is_on := exit_flag tail |};
                       value := Ok st1 |}).
  { destruct tail as [|[|c|e] post]; try contradiction.
    - rewrite read_loop_eof by exact Hon. destruct s as [on].
      simpl in Hon. now subst on.
    - rewrite read_loop_stop. now rewrite Hon. }
  destruct (flush_remainder_ok se u st1 {| _attr_is_on := exit_flag tail |}
              Hend Hok) as (flush & st2 & Hflush & Hcase).
  exists body, flush, st2. split; [|split; [exact Hbody|split; [|split]]].
  - unfold buffer_block. rewrite <- Hreads in Hloop.
    erewrite bind_eq; [|rewrite Hloop, Htail; reflexivity].
    rewrite Hflush. simpl. now rewrite <- app_assoc.
  - rewrite <- Hcat. f_equal.
    destruct Hcase as [(-> & -> & _)|(_ & tg & ->)]; simpl;
      now rewrite ?app_nil_r.
  - exact Hbig.
  - destruct Hcase as [(_ & -> & _)|(Hnil & tg & ->)]; [now left|right].
    now exists (ls_part_number st1), (getvalue (ls_buffer st1)), tg.
Qed.

(** * The chunk accumulator *)

(** C4, amended: for every threshold [t] above zero and every input read
    in non-empty pieces, with every part acknowledged and no turn_off, the
    parts sent by the buffer block (the read loop and the last flush) are at
    most [ceil (N / t)] in number, their sizes add up to the [N] bytes read
    (they are the input, cut), and every part but the last is larger than
    [t]. *)
Theorem accumulator_emits_at_most_ceil t se p u s data :
  (0 < t)%N ->
  _attr_is_on s = true ->
  se_reads se = map RData data ->
  Forall (fun c => c <> []) data ->
  uploads_ok se ->
  let chunks := bodies (events (buffer_block t se p u s)) in
  (N.of_nat (length chunks) <= ceil_div (blen (concat data)) t)%N /\
  sizes_sum chunks = blen (concat data) /\
  concat chunks = concat data /\
  (forall pre last, chunks = pre ++ [last] ->
                    Forall (fun b => (t < blen b)%N) pre).
Proof.
  intros Ht Hon Hreads Hne Hok chunks.
  assert (Hreads' : se_reads se = map RData data ++ [])
    by now rewrite app_nil_r.
  destruct (buffer_block_data t se p u s data [] Hon Hreads' I Hne Hok) as
    (body & flush & st' & Hblock & _ & Hcat & Hbig & Hflush).
  assert (Hch : chunks = bodies body ++ bodies flush).
  { unfold chunks. rewrite Hblock. simpl.
    now rewrite bodies_app. }
  assert (Hconcat : concat chunks = concat data)
    by (rewrite Hch, concat_app; exact Hcat).
  assert (Hsum : sizes_sum chunks = blen (concat data))
    by (rewrite sizes_sum_concat; now f_equal).
  pose proof (sizes_sum_big t (bodies body) Hbig) as Hlow.
  split; [|split; [exact Hsum|split; [exact Hconcat|]]].
  - unfold ceil_div. apply N.div_le_lower_bound; [lia|].
    rewrite <- Hsum, Hch, sizes_sum_app, length_app.
    destruct Hflush as [->|(pn & b & tg & Hb & ->)]; simpl.
    + unfold sizes_sum at 2. simpl. nia.
    + apply blen_pos in Hb. unfold sizes_sum at 2. simpl. nia.
  - intros pre last Hsplit. rewrite Hch in Hsplit.
    destruct Hflush as [->|(pn & b & tg & Hb & ->)]; simpl in Hsplit.
    + rewrite app_nil_r in Hsplit. rewrite Hsplit in Hbig.
      apply Forall_app in Hbig. tauto.
    + apply app_inj_tail in Hsplit. destruct Hsplit as [<- _]. exact Hbig.
Qed.

(** * A turn_off in the middle of a segment *)

(** A pass whose buffer block ended well and whose completion is
    acknowledged. *)
Lemma segment_completes t se process s u p evs f st :
  se_create se = inr u -> se_popen se = inr p ->
  buffer_block t se p u s = {| events := evs; final := f; value := Ok st |} ->
  se_complete se = None ->
  segment t se process s
  = {| events := EvCreateMultipartUpload (inr u) :: EvPopen (inr p) :: evs
                 ++ [EvCompleteMultipartUpload u (ls_parts st) None;
                     EvPopenExit p; EvTerminate p; EvWait p];
       final := f; value := Ok (Some p) |}.
Proof.
  intros Hc Hp Hblock Hcomp.
  unfold segment, create_multipart_upload, bound_process, popen, popen_block,
    complete_multipart_upload, terminate_and_wait.
  rewrite Hc, Hp, Hcomp.
  unfold bind, finally, try_except, emit, ret, raise, lift_boto_unit;
    cbn -[buffer_block].
  rewrite Hblock. cbn. now rewrite app_nil_r, <- !app_assoc.
Qed.

(** C6: a turn_off that lands while a segment is being read (after reads
    that brought data, all parts so far acknowledged) is seen at the next
    check of the read loop: no further read is made; what is left in the
    buffer goes out as a last part; the upload is completed, and never
    aborted; then the [with] block is left, the capture process is
    terminated and waited for; then the outer loop ends and the recording
    task returns with the flag off, without opening another segment. *)
Theorem stop_mid_segment_finalizes t se rest process s u p data post :
  _attr_is_on s = true ->
  se_create se = inr u -> se_popen se = inr p ->
  se_reads se = map RData data ++ RStop :: post ->
  Forall (fun c => c <> []) data ->
  uploads_ok se -> se_complete se = None ->
  exists body flush parts,
    upload_loop t (WSegment se :: rest) process s
    = {| events := EvCreateMultipartUpload (inr u) :: EvPopen (inr p) :: body
                   ++ [EvSetIsOn false; EvScheduleUpdate false] ++ flush
                   ++ [EvCompleteMultipartUpload u parts None;
                       EvPopenExit p; EvTerminate p; EvWait p];
         final := {| _attr_is_on := false |}; value := Ok tt |} /\
    Forall (data_event p u) body /\
    (flush = [] \/
     exists pn b tg, b <> [] /\ flush = [EvUploadPart u pn b (inr tg)]) /\
    concat (bodies body) ++ concat (bodies flush) = concat data.
Proof.
  intros Hon Hc Hp Hreads Hne Hok Hcomp.
  destruct (buffer_block_data t se p u s data (RStop :: post)
              Hon Hreads I Hne Hok)
    as (body & flush & st' & Hblock & Hbody & Hcat & _ & Hflush).
  exists body, flush, (ls_parts st').
  split; [|split; [exact Hbody|split; [exact Hflush|exact Hcat]]].
  cbn [upload_loop]. rewrite bind_get_is_on, Hon.
  erewrite bind_eq;
    [|apply (segment_completes t se process s u p _ _ _ Hc Hp Hblock Hcomp)].
  rewrite upload_loop_off by reflexivity. simpl.
  rewrite app_nil_r, <- !app_assoc. reflexivity.
Qed.

(** * After a storage failure *)


Lemma segment_first_event t se process s :
  exists tl,
    events (segment t se process s)
    = EvCreateMultipartUpload (se_create se) :: tl.
Proof.
  shape_cases t se process s; rewrite He, Hc; simpl; eexists; reflexivity.
Qed.



(** * Turning on *)

Lemma async_turn_on_off_entity t w s :
  _attr_is_on s = false ->
  async_turn_on t w s
  = start_outcome (upload_to_s3_sync t w {| _attr_is_on := true |}).
Proof.
  intros Hoff. unfold async_turn_on.
  rewrite bind_get_is_on, Hoff. cbn [negb]. unfold start_stream_to_s3.
  rewrite bind_get_is_on, Hoff. cbn [negb].
  unfold set_is_on, schedule_update_ha_state, start_outcome.
  unfold bind, finally, try_except, emit, get_is_on;
    cbn -[upload_to_s3_sync stop_stream_to_s3].
  destruct (upload_to_s3_sync t w {| _attr_is_on := true |})
    as [evs f [[]|e|]]; cbn -[stop_stream_to_s3]; try reflexivity.
  - rewrite stop_stream_to_s3_eq. reflexivity.
  - destruct e as [e|[]| | |]; cbn -[stop_stream_to_s3];
      rewrite stop_stream_to_s3_eq; cbn; rewrite ?app_nil_r; reflexivity.
Qed.

Lemma async_turn_on_on_entity t w s :
  _attr_is_on s = true ->
  async_turn_on t w s = {| events := []; final := s; value := Ok tt |}.
Proof.
  intros Hon. unfold async_turn_on. rewrite bind_get_is_on, Hon. reflexivity.
Qed.

Lemma upload_to_s3_sync_first_event t w s :
  exists tl, events (upload_to_s3_sync t w s) = EvClient (w_client w) :: tl.
Proof.
  unfold upload_to_s3_sync, boto3_client. unfold bind at 1 2, emit.
  destruct (w_client w); simpl.
  - eexists; reflexivity.
  - destruct (upload_loop t (w_script w) None s). simpl. eexists; reflexivity.
Qed.

(** C2, amended: [async_turn_on] on an entity that is off hands the
    recording loop to the executor and awaits it: the call is back at its
    caller exactly when the recording loop has come to its end, never
    before; when it is back, everything the loop did lies before the return
    and the flag is off again. *)
Theorem start_returns_after_recording t w s :
  _attr_is_on s = false ->
  (value (async_turn_on t w s) = Pending <->
   value (upload_to_s3_sync t w {| _attr_is_on := true |}) = Pending) /\
  (value (async_turn_on t w s) <> Pending ->
   _attr_is_on (final (async_turn_on t w s)) = false /\
   events (async_turn_on t w s)
   = [EvSetIsOn true; EvScheduleUpdate true]
     ++ events (upload_to_s3_sync t w {| _attr_is_on := true |})
     ++ stop_events
          (_attr_is_on (final (upload_to_s3_sync t w {| _attr_is_on := true |})))).
Proof.
  intros Hoff. rewrite (async_turn_on_off_entity t w s Hoff).
  unfold start_outcome.
  destruct (upload_to_s3_sync t w {| _attr_is_on := true |})
    as [evs f [[]|e|]]; simpl.
  - split; [split; discriminate|auto].
  - split; [|auto]. destruct (start_handler e); split; discriminate.
  - split; [tauto|congruence].
Qed.

(** C3, amended: on an entity that is off, [async_turn_on] sets the flag and
    schedules the state update first, before the S3 client is made, before
    the upload is created and before the capture process is launched: every
    [Popen] of the call comes after the state was reported on. *)
Theorem on_flag_set_before_capture t w s :
  _attr_is_on s = false ->
  (exists tl,
     events (async_turn_on t w s)
     = EvSetIsOn true :: EvScheduleUpdate true :: EvClient (w_client w) :: tl)
  /\
  (forall pre r post,
     events (async_turn_on t w s) = pre ++ EvPopen r :: post ->
     In (EvScheduleUpdate true) pre).
Proof.
  intros Hoff.
  assert (H : exists tl,
             events (async_turn_on t w s)
             = EvSetIsOn true :: EvScheduleUpdate true
               :: EvClient (w_client w) :: tl).
  { rewrite (async_turn_on_off_entity t w s Hoff). unfold start_outcome.
    destruct (upload_to_s3_sync_first_event t w {| _attr_is_on := true |})
      as [tl Htl].
    destruct (upload_to_s3_sync t w {| _attr_is_on := true |})
      as [evs f [[]|e|]]; simpl in *; subst evs; simpl; eexists; reflexivity. }
  split; [exact H|].
  destruct H as [tl ->]. intros pre r post Heq.
  destruct pre as [|x [|y pre]]; simpl in Heq; try discriminate.
  injection Heq as _ <- _. right. now left.
Qed.

(** * One capture process and one open upload at a time *)

Lemma resources_after_app evs1 evs2 r :
  resources_after (evs1 ++ evs2) r
  = resources_after evs2 (resources_after evs1 r).
Proof. apply fold_left_app. Qed.

Lemma always_nil r : at_most_one r -> always_at_most_one r [].
Proof.
  intros H pre post Heq. symmetry in Heq. apply app_eq_nil in Heq.
  destruct Heq as [-> _]. exact H.
Qed.

Lemma always_cons r e evs :
  at_most_one r -> always_at_most_one (res_step r e) evs ->
  always_at_most_one r (e :: evs).
Proof.
  intros H0 H pre post Heq. destruct pre as [|x pre]; [exact H0|].
  simpl in Heq. injection Heq as <- Heq. simpl. now apply (H pre post).
Qed.

Lemma always_start r evs : always_at_most_one r evs -> at_most_one r.
Proof. intros H. exact (H [] evs eq_refl). Qed.

Lemma always_end r evs :
  always_at_most_one r evs -> at_most_one (resources_after evs r).
Proof. intros H. apply (H evs []). now rewrite app_nil_r. Qed.

Lemma always_app r evs1 evs2 :
  always_at_most_one r evs1 ->
  always_at_most_one (resources_after evs1 r) evs2 ->
  always_at_most_one r (evs1 ++ evs2).
Proof.
  revert r. induction evs1 as [|e evs1 IH]; intros r H1 H2; [exact H2|].
  simpl. apply always_cons; [exact (always_start _ _ H1)|].
  apply IH; [|exact H2].
  intros pre post Heq. apply (H1 (e :: pre) post). simpl. now rewrite Heq.
Qed.

Lemma resources_after_cons e evs r :
  resources_after (e :: evs) r = resources_after evs (res_step r e).
Proof. reflexivity. Qed.

Lemma resources_after_neutral evs r :
  Forall neutral evs -> resources_after evs r = r.
Proof.
  induction 1 as [|e evs He _ IH]; [reflexivity|].
  simpl. now rewrite He.
Qed.

Lemma always_neutral evs r :
  Forall neutral evs -> at_most_one r -> always_at_most_one r evs.
Proof.
  induction 1 as [|e evs He _ IH]; intros Hr; [now apply always_nil|].
  apply always_cons; [exact Hr|]. rewrite He. now apply IH.
Qed.

Lemma quiet_neutral p u body : Forall (quiet p u) body -> Forall neutral body.
Proof.
  intros H. eapply Forall_impl; [|exact H].
  intros e Hq r. destruct e; simpl in Hq; try contradiction; reflexivity.
Qed.

Lemma stop_events_neutral on : Forall neutral (stop_events on).
Proof. destruct on; repeat constructor. Qed.

Lemma failed_call_neutral u ev : failed_call u ev -> neutral ev.
Proof. intros [] r; reflexivity. Qed.

Lemma remove_self_N (p : pid) : remove N.eq_dec p [p] = [].
Proof. simpl. destruct (N.eq_dec p p); congruence. Qed.

Lemma remove_self_string (u : upload_id) : remove string_dec u [u] = [].
Proof. simpl. destruct (string_dec u u); congruence. Qed.

Lemma at_most_one_none : at_most_one no_resources.
Proof. split; simpl; lia. Qed.

Lemma loop_rest_off t rest r :
  _attr_is_on (final r) = false -> loop_rest t rest r = [].
Proof.
  intros Hoff. unfold loop_rest. destruct (value r); try reflexivity.
  now rewrite upload_loop_off.
Qed.

Lemma loop_rest_raise t rest r e : value r = Raise e -> loop_rest t rest r = [].
Proof. intros Hv. unfold loop_rest. now rewrite Hv. Qed.

(** Closes [at_most_one] goals on explicit resources. *)
Ltac at_most_one_tac :=
  split; simpl; rewrite ?remove_self_N, ?remove_self_string; simpl; lia.

(** Walks [always_at_most_one] along an explicit list of events. *)
Ltac always_walk :=
  repeat first
    [ apply always_nil; at_most_one_tac
    | apply always_cons; [at_most_one_tac|];
      cbn [res_step live open_uploads];
      rewrite ?remove_self_N, ?remove_self_string ].

(** A pass of the outer loop never holds more than one capture process and
    one open upload, and when it leaves one behind (an upload that was
    neither completed nor aborted) the outer loop is over. *)
Lemma segment_resources t se process s :
  always_at_most_one no_resources (events (segment t se process s)) /\
  (resources_after (events (segment t se process s)) no_resources
   = no_resources
   \/ forall rest, loop_rest t rest (segment t se process s) = []).
Proof.
  pose proof (tracked_segment t se process s) as Hflag.
  shape_cases t se process s; rewrite He in Hflag |- *.
  - split; [always_walk|]. now left.
  - split.
    + simpl. apply always_cons; [at_most_one_tac|]. cbn [res_step].
      apply always_cons; [at_most_one_tac|]. cbn [res_step].
      apply always_app.
      * apply always_neutral; [apply stop_events_neutral|at_most_one_tac].
      * rewrite resources_after_neutral by apply stop_events_neutral.
        destruct process; simpl; always_walk.
    + right. intros rest. destruct process as [p0|].
      * apply loop_rest_off. rewrite Hflag.
        destruct (_attr_is_on s); reflexivity.
      * eapply loop_rest_raise. exact Hv.
  - pose proof (quiet_neutral _ _ _ Hq) as Hn. split.
    + apply always_cons; [at_most_one_tac|]. cbn [res_step].
      apply always_cons; [at_most_one_tac|]. cbn [res_step].
      apply always_app.
      * apply always_neutral; [exact Hn|at_most_one_tac].
      * rewrite resources_after_neutral by exact Hn. always_walk.
    + left. rewrite 2!resources_after_cons, resources_after_app,
        (resources_after_neutral body _ Hn).
      unfold resources_after.
      cbn [fold_left res_step live open_uploads no_resources].
      now rewrite ?remove_self_N, ?remove_self_string.
  - pose proof (quiet_neutral _ _ _ Hq) as Hn.
    pose proof (failed_call_neutral _ _ Hf) as Hev. split.
    + apply always_cons; [at_most_one_tac|]. cbn [res_step].
      apply always_cons; [at_most_one_tac|]. cbn [res_step].
      apply always_app.
      * apply always_neutral; [exact Hn|at_most_one_tac].
      * rewrite resources_after_neutral by exact Hn.
        apply always_cons; [at_most_one_tac|]. rewrite Hev.
        destruct (se_abort se); always_walk.
    + destruct (se_abort se) as [e|] eqn:Ea.
      * right. intros rest. eapply loop_rest_raise. exact Hv.
      * left. rewrite 2!resources_after_cons, resources_after_app,
          (resources_after_neutral body _ Hn), resources_after_cons, Hev.
        unfold resources_after.
        cbn [fold_left res_step live open_uploads no_resources].
        now rewrite ?remove_self_N, ?remove_self_string.
  - pose proof (quiet_neutral _ _ _ Hq) as Hn. split.
    + apply always_cons; [at_most_one_tac|]. cbn [res_step].
      apply always_cons; [at_most_one_tac|]. cbn [res_step].
      apply always_app.
      * apply always_neutral; [exact Hn|at_most_one_tac].
      * rewrite resources_after_neutral by exact Hn.
        apply always_cons; [at_most_one_tac|]. cbn [res_step].
        apply always_cons; [at_most_one_tac|]. cbn [res_step live open_uploads].
        rewrite remove_self_N.
        apply always_app.
        -- apply always_neutral; [apply stop_events_neutral|at_most_one_tac].
        -- rewrite resources_after_neutral by apply stop_events_neutral.
           always_walk.
    + right. intros rest. apply loop_rest_off. rewrite Hflag.
      simpl. rewrite flag_after_app. simpl.
      destruct (flag_after body (_attr_is_on s)); reflexivity.
Qed.

Lemma upload_loop_resources t script :
  forall process s,
    always_at_most_one no_resources (events (upload_loop t script process s)).
Proof.
  induction script as [|[|se] rest IH]; intros process s.
  - simpl. rewrite bind_get_is_on.
    destruct (_attr_is_on s); apply always_nil, at_most_one_none.
  - rewrite upload_loop_stop. simpl.
    apply always_neutral; [apply stop_events_neutral|apply at_most_one_none].
  - destruct (_attr_is_on s) eqn:Hon.
    2:{ rewrite upload_loop_off by exact Hon. apply always_nil,
          at_most_one_none. }
    rewrite upload_loop_segment by exact Hon.
    destruct (segment_resources t se process s) as [Hseg [Hnone|Hover]].
    + apply always_app; [exact Hseg|]. rewrite Hnone.
      unfold loop_rest. destruct (value (segment t se process s));
        [apply IH|apply always_nil, at_most_one_none
        |apply always_nil, at_most_one_none].
    + rewrite Hover, app_nil_r. exact Hseg.
Qed.

Lemma upload_to_s3_sync_resources t w s :
  always_at_most_one no_resources (events (upload_to_s3_sync t w s)).
Proof.
  unfold upload_to_s3_sync, boto3_client. unfold bind at 1 2, emit.
  pose proof (upload_loop_resources t (w_script w) None s) as H.
  destruct (w_client w); simpl.
  - always_walk.
  - destruct (upload_loop t (w_script w) None s) as [evs f v]. simpl in *.
    apply always_cons; [apply at_most_one_none|exact H].
Qed.

(** C8, amended: on an entity that is on, [async_turn_on] does nothing and
    returns: no event, no change, no exception, so no second recording
    task, capture process or upload.  And one run of [async_turn_on], in
    which nothing but turn_offs changes the flag from outside (the worlds
    of this model: no further start lands while the run goes on), takes up,
    counted from its start, at most one capture process and at most one
    open upload at every moment.  What the entity holds over several runs
    is not bounded by this. *)
Theorem start_on_active_is_noop t w s :
  (_attr_is_on s = true ->
   async_turn_on t w s = {| events := []; final := s; value := Ok tt |}) /\
  (forall pre post,
     events (async_turn_on t w s) = pre ++ post ->
     at_most_one (resources_after pre no_resources)).
Proof.
  split; [apply async_turn_on_on_entity|].
  change (always_at_most_one no_resources (events (async_turn_on t w s))).
  destruct (_attr_is_on s) eqn:Hon.
  - rewrite async_turn_on_on_entity by exact Hon.
    apply always_nil, at_most_one_none.
  - rewrite async_turn_on_off_entity by exact Hon.
    pose proof (upload_to_s3_sync_resources t w {| _attr_is_on := true |}) as H.
    unfold start_outcome.
    destruct (upload_to_s3_sync t w {| _attr_is_on := true |})
      as [evs f [[]|e|]]; simpl in *;
      (apply always_cons; [apply at_most_one_none|]);
      (apply always_cons; [apply at_most_one_none|]);
      cbn [res_step]; try exact H;
      (apply always_app; [exact H|]);
      (apply always_neutral; [apply stop_events_neutral|]);
      apply always_end; exact H.
Qed.

(** * The buffer stays within the threshold plus one read *)

(** One turn of the read loop on a chunk, whatever the store answers. *)
Lemma loop_body_cases t se u chunk st s :
  at_end (ls_buffer st) ->
  exists evs v,
    loop_body t se u chunk st s = {| events := evs; final := s; value := v |} /\
    v <> Pending /\
    ((t < blen (getvalue (ls_buffer st) ++ chunk))%N /\
     evs = [EvUploadPart u (ls_part_number st)
              (getvalue (ls_buffer st) ++ chunk)
              (se_upload_part se (ls_part_number st))] /\
     (forall st', v = Ok st' -> ls_buffer st' = new_BytesIO)
     \/
     (blen (getvalue (ls_buffer st) ++ chunk) <= t)%N /\
     evs = [] /\
     exists st', v = Ok st' /\
       ls_buffer st' = {| getvalue := getvalue (ls_buffer st) ++ chunk;
                          pos := length (getvalue (ls_buffer st) ++ chunk) |}).
Proof.
  intros Hend. unfold loop_body. rewrite (write_at_end _ chunk Hend).
  unfold tell. cbn [pos].
  change (N.of_nat (length (getvalue (ls_buffer st) ++ chunk)))
    with (blen (getvalue (ls_buffer st) ++ chunk)).
  destruct (t <? blen (getvalue (ls_buffer st) ++ chunk))%N eqn:E.
  - apply N.ltb_lt in E.
    unfold upload_part, read_to_end, seek. simpl.
    unfold bind, emit, lift_boto.
    destruct (se_upload_part se (ls_part_number st)) as [e|tg]; simpl.
    + eexists _, _. split; [reflexivity|]. split; [discriminate|]. left.
      split; [exact E|]. split; [reflexivity|]. discriminate.
    + eexists _, _. split; [reflexivity|]. split; [discriminate|]. left.
      split; [exact E|]. split; [reflexivity|]. now intros st' [= <-].
  - apply N.ltb_ge in E.
    eexists _, _. split; [reflexivity|]. split; [discriminate|]. right.
    split; [exact E|]. split; [reflexivity|]. eexists. split; reflexivity.
Qed.

Lemma read_loop_bounded t r se p u reads :
  forall st s,
    buffer_inv t st -> reads_bounded r reads ->
    Forall (fun b => (blen b <= t + r)%N)
           (bodies (events (read_loop t se p u reads st s))) /\
    forall st', value (read_loop t se p u reads st s) = Ok st' ->
                buffer_inv t st'.
Proof.
  induction reads as [|[|c|e] rest IH]; intros st s Hinv Hb.
  - simpl. rewrite bind_get_is_on. destruct (_attr_is_on s); simpl;
      (split; [constructor|now intros st' [= <-]]).
  - inversion Hb as [|? ? _ Hb']; subst. simpl. rewrite bind_stop.
    destruct (IH st {| _attr_is_on := false |} Hinv Hb') as [H1 H2].
    destruct (read_loop t se p u rest st {| _attr_is_on := false |})
      as [evs f v]. simpl in *. split; [|exact H2].
    rewrite bodies_app.
    apply Forall_app. split; [|exact H1].
    destruct (_attr_is_on s); constructor.
  - inversion Hb as [|? ? Hc Hb']; subst. simpl. rewrite bind_get_is_on.
    destruct (_attr_is_on s);
      [|simpl; split; [constructor|now intros st' [= <-]]].
    rewrite bind_stdout_read.
    destruct c as [|b c]; cbn [is_empty].
    { simpl. split; [constructor|now intros st' [= <-]]. }
    destruct Hinv as [Hend Hle].
    destruct (loop_body_cases t se u (b :: c) st s Hend)
      as (evs & v & Hbody & Hnp & Hcase).
    assert (Hsize : (blen (getvalue (ls_buffer st) ++ b :: c) <= t + r)%N)
      by (rewrite blen_app; lia).
    destruct v as [st1| |]; [|clear IH|now destruct Hnp].
    + rewrite (bind_eq _ _ _ _ _ _ _ _ Hbody).
      assert (Hinv1 : buffer_inv t st1).
      { unfold buffer_inv.
        destruct Hcase as [(_ & _ & Hnew)|(Hk & _ & st' & [= <-] & Hbuf)].
        - rewrite (Hnew st1 eq_refl). split; [reflexivity|].
          simpl. rewrite blen_nil. lia.
        - rewrite Hbuf. split; [reflexivity|exact Hk]. }
      destruct (IH st1 s Hinv1 Hb') as [H1 H2].
      destruct (read_loop t se p u rest st1 s) as [evs' f v']. simpl in *.
      split; [|exact H2]. rewrite bodies_app. apply Forall_app.
      split; [|exact H1].
      destruct Hcase as [(_ & -> & _)|(_ & -> & _)]; repeat constructor.
      exact Hsize.
    + unfold bind. rewrite Hbody. simpl.
      split; [|discriminate].
      destruct Hcase as [(_ & -> & _)|(_ & _ & st' & Hx & _)];
        [|discriminate Hx].
      repeat constructor. exact Hsize.
  - simpl. rewrite bind_get_is_on. destruct (_attr_is_on s); simpl;
      (split; [constructor|]); [discriminate|now intros st' [= <-]].
Qed.

Lemma flush_remainder_bodies se u st s :
  bodies (events (flush_remainder se u st s)) = [] \/
  bodies (events (flush_remainder se u st s)) = [getvalue (ls_buffer st)].
Proof.
  unfold flush_remainder.
  destruct (0 <? tell (ls_buffer st))%N; [|now left].
  right. unfold upload_part, read_to_end, seek. simpl.
  unfold bind, emit, lift_boto.
  destruct (se_upload_part se (ls_part_number st)); reflexivity.
Qed.

(** C9: with reads of at most [r] bytes (one read unit; 1 MiB in the source)
    and the threshold [t] (5 MiB in the source): every part the buffer
    block sends, in the loop or as the last flush, is at most [t + r] bytes,
    whatever the store, the process and the event loop do; and in one turn
    of the loop on a buffer within the threshold, the buffer after the write
    is at most [t + r], the turn leaves a buffer within the threshold, and
    when the buffer went over the threshold and the part was acknowledged,
    the buffer left is the empty one, at position 0. *)
Theorem buffer_within_threshold_plus_read t r se p u s :
  reads_bounded r (se_reads se) ->
  Forall (fun b => (blen b <= t + r)%N)
         (bodies (events (buffer_block t se p u s))) /\
  (forall chunk st s',
     buffer_inv t st -> (blen chunk <= r)%N ->
     (tell (write (ls_buffer st) chunk) <= t + r)%N /\
     forall st',
       value (loop_body t se u chunk st s') = Ok st' ->
       buffer_inv t st' /\
       ((t < tell (write (ls_buffer st) chunk))%N ->
        ls_buffer st' = new_BytesIO)).
Proof.
  intros Hb. split.
  - unfold buffer_block.
    assert (Hinv0 : buffer_inv t {| ls_buffer := new_BytesIO; ls_parts := [];
                                    ls_part_number := 1 |}).
    { split; [reflexivity|]. simpl. rewrite blen_nil. lia. }
    destruct (read_loop_bounded t r se p u (se_reads se) _ s Hinv0 Hb)
      as [H1 H2].
    unfold bind.
    destruct (read_loop t se p u (se_reads se)
                {| ls_buffer := new_BytesIO; ls_parts := [];
                   ls_part_number := 1 |} s) as [evs f [st'| |]];
      simpl in *; try exact H1.
    destruct (H2 st' eq_refl) as [_ Hle].
    pose proof (flush_remainder_bodies se u st' f) as Hfl.
    destruct (flush_remainder se u st' f) as [evs' f' v']. simpl in *.
    rewrite bodies_app. apply Forall_app. split; [exact H1|].
    destruct Hfl as [->| ->]; repeat constructor. lia.
  - intros chunk st s' [Hend Hle] Hc.
    rewrite (write_at_end _ chunk Hend). unfold tell. cbn [pos].
    change (N.of_nat (length (getvalue (ls_buffer st) ++ chunk)))
      with (blen (getvalue (ls_buffer st) ++ chunk)).
    split; [rewrite blen_app; lia|].
    intros st' Hv.
    destruct (loop_body_cases t se u chunk st s' Hend)
      as (evs & v & Hbody & _ & Hcase).
    rewrite Hbody in Hv. simpl in Hv. subst v.
    destruct Hcase as [(Hlt & _ & Hnew)|(Hk & _ & st1 & [= <-] & Hbuf)].
    + unfold buffer_inv. rewrite (Hnew st' eq_refl). split; [|reflexivity].
      split; [reflexivity|]. simpl. rewrite blen_nil. lia.
    + split; [|lia]. unfold buffer_inv. rewrite Hbuf.
      split; [reflexivity|exact Hk].
Qed.

(** * The stream urls of the configuration *)

Lemma startswith_spec s p :
  startswith s p = true <-> exists rest, s = (p ++ rest)%string.
Proof.
  unfold startswith. revert s. induction p as [|a p IH]; intros s.
  - split; [intros _; now exists s|]. intros _. now destruct s.
  - destruct s as [|b s]; simpl.
    + split; [discriminate|]. intros [rest H]. discriminate.
    + destruct (Ascii.ascii_dec a b) as [->|Hne].
      * rewrite IH. split; intros [rest H]; exists rest; congruence.
      * split; [discriminate|]. intros [rest H]. congruence.
Qed.

Lemma check_url_spec url :
  (check_url (JString url) = inr tt <-> rtsp_or_rtmp url) /\
  (check_url (JString url) = inl InvalidStreamURL <-> ~ rtsp_or_rtmp url).
Proof.
  unfold check_url, rtsp_or_rtmp.
  rewrite <- !startswith_spec.
  destruct (startswith url "rtsp://"), (startswith url "rtmp://"); simpl;
    split; split; try discriminate; try tauto; intuition discriminate.
Qed.

Lemma validate_streams_spec descs :
  Forall (fun d => exists url, has_url d url) descs ->
  (validate_streams descs = inr tt <->
   Forall (fun d => exists url, has_url d url /\ rtsp_or_rtmp url) descs) /\
  (validate_streams descs <> inr tt ->
   validate_streams descs = inl InvalidStreamURL).
Proof.
  induction 1 as [|d descs [url Hurl] _ [IH1 IH2]].
  - simpl. split; [split; [constructor|reflexivity]|congruence].
  - simpl. unfold has_url in Hurl. rewrite Hurl.
    destruct (check_url_spec url) as [Hok Hbad].
    destruct (check_url (JString url)) as [e|[]] eqn:E.
    + split.
      * split; [discriminate|]. intros Hall. inversion Hall as [|? ? Hd _].
        destruct Hd as (url' & Hu & Hr). unfold has_url in Hu.
        rewrite Hurl in Hu. injection Hu as <-.
        apply Hok in Hr. discriminate.
      * intros _. f_equal. unfold check_url in E.
        destruct (negb (startswith url "rtsp://")
                  && negb (startswith url "rtmp://")); congruence.
    + split; [|exact IH2]. rewrite IH1. split.
      * intros Hall. constructor; [|exact Hall].
        exists url. split; [exact Hurl|]. now apply Hok.
      * intros Hall. now inversion Hall.
Qed.

Lemma validate_streams_sound l :
  validate_streams l = inr tt ->
  Forall (fun d => exists url, has_url d url /\ rtsp_or_rtmp url) l.
Proof.
  induction l as [|d l IH]; simpl; intros H; [constructor|].
  destruct (dict_get d "url") as [e|url] eqn:Hget; [discriminate|].
  destruct url as [| | |url| |]; simpl in H; try discriminate.
  destruct (check_url_spec url) as [Hok _].
  destruct (check_url (JString url)) as [e|[]] eqn:E;
    simpl in E; rewrite E in H; [discriminate|].
  constructor; [|now apply IH].
  exists url. split; [exact Hget|]. now apply Hok.
Qed.

(** C10: the flow creates the config entry, from which alone the entities
    are set up, only if every stream descriptor carries a url that begins
    with [rtsp://] or [rtmp://]; and for a list of descriptors that each
    carry a url string (the streams text parsed, the bucket reachable) it
    creates the entry if and only if every url begins so: when one does
    not, [validate_input] raises [InvalidStreamURL], no entry is created and
    the form is shown again with the error [invalid_stream_url]; the flow
    does not run the validation a second time. *)
Theorem stream_url_scheme_validated DOMAIN json_loads bucket data :
  (forall title data',
     async_step_user DOMAIN json_loads bucket (Some data)
     = CreateEntry title data' ->
     exists v l,
       json_loads (streams data) = Some v /\ iterate v = inr l /\
       Forall (fun d => exists url, has_url d url /\ rtsp_or_rtmp url) l)
  /\
  (forall descs,
     json_loads (streams data) = Some (JArray descs) ->
     validate_bucket_sync (bucket data) = inr tt ->
     Forall (fun d => exists url, has_url d url) descs ->
     (async_step_user DOMAIN json_loads bucket (Some data)
      = CreateEntry DOMAIN data
      <-> Forall (fun d => exists url, has_url d url /\ rtsp_or_rtmp url)
                 descs)
     /\
     (~ Forall (fun d => exists url, has_url d url /\ rtsp_or_rtmp url) descs ->
      validate_input DOMAIN json_loads bucket data = inl InvalidStreamURL /\
      async_step_user DOMAIN json_loads bucket (Some data)
      = ShowForm (Some "invalid_stream_url"%string))).
Proof.
  split.
  - intros title data'. unfold async_step_user, validate_input.
    destruct (json_loads (streams data)) as [v|]; [|discriminate].
    destruct (validate_bucket_sync (bucket data)) as [e|[]];
      [destruct e; discriminate|].
    destruct (iterate v) as [e|l] eqn:Hit; [destruct e; discriminate|].
    destruct (validate_streams l) as [e|[]] eqn:E;
      [destruct e; discriminate|].
    intros _. exists v, l. split; [reflexivity|]. split; [exact Hit|].
    now apply validate_streams_sound.
  - intros descs Hparse Hbucket Hurls.
    destruct (validate_streams_spec descs Hurls) as [Hiff Hbad].
    unfold async_step_user, validate_input.
    rewrite Hparse, Hbucket. simpl iterate. cbv iota.
    destruct (validate_streams descs) as [e|[]] eqn:E.
    + assert (e = InvalidStreamURL) as ->
        by (assert (H : inl e = inl InvalidStreamURL :> config_exn + unit)
              by (apply Hbad; discriminate); congruence).
      split; [|auto].
      split; [discriminate|]. intros Hall. apply Hiff in Hall. discriminate.
    + split; [|intros Hno; destruct Hno; now apply Hiff].
      split; [intros _; now apply Hiff|reflexivity].
Qed.

(** * What the code does where the claims say otherwise *)


(** C2 as stated fails: a whole segment has been recorded and completed and
    the recording goes on; the start call is not back at its caller. *)
Lemma start_awaits_recording_counterexample :
  ~ returns_once_launched (async_turn_on THRESHOLD w_recording idle).
Proof.
  intros H. apply H; [|reflexivity].
  exists 101%N. simpl. auto 10.
Qed.

(** C3 as stated fails: the capture process cannot be launched, and the
    state was reported on all the same, before the launch was tried. *)
Lemma on_before_launch_counterexample :
  ~ reported_on_only_after_launch
      (events (async_turn_on THRESHOLD w_launch_fails idle)).
Proof.
  intros H.
  destruct (H [EvSetIsOn true]
              [EvClient None; EvCreateMultipartUpload (inr "upload-1"%string);
               EvPopen (inl OSError); EvSetIsOn false; EvScheduleUpdate false]
              eq_refl) as [p [Hp|[]]].
  discriminate Hp.
Qed.

Lemma blen_full_read : blen full_read = READ_SIZE.
Proof. unfold blen, full_read. now rewrite repeat_length, N2Nat.id. Qed.

(** One turn of the read loop in which the buffer goes over the threshold
    and the part is acknowledged. *)
Lemma read_loop_flush_step t se p u c rest st s tg :
  _attr_is_on s = true -> c <> [] -> at_end (ls_buffer st) ->
  (t < blen (getvalue (ls_buffer st) ++ c))%N ->
  se_upload_part se (ls_part_number st) = inr tg ->
  read_loop t se p u (RData c :: rest) st s
  = prepend [EvRead p (inr c);
             EvUploadPart u (ls_part_number st)
               (getvalue (ls_buffer st) ++ c) (inr tg)]
      (read_loop t se p u rest
         {| ls_buffer := new_BytesIO;
            ls_parts := ls_parts st ++ [(ls_part_number st, tg)];
            ls_part_number := ls_part_number st + 1 |} s).
Proof.
  intros Hon Hc Hend Hlt Htg.
  cbn [read_loop]. rewrite bind_get_is_on, Hon, bind_stdout_read.
  destruct c as [|b c]; [congruence|]. cbn [is_empty].
  assert (Hbody : loop_body t se u (b :: c) st s
                  = {| events := [EvUploadPart u (ls_part_number st)
                                    (getvalue (ls_buffer st) ++ b :: c)
                                    (inr tg)];
                       final := s;
                       value := Ok {| ls_buffer := new_BytesIO;
                                      ls_parts := ls_parts st
                                                  ++ [(ls_part_number st, tg)];
                                      ls_part_number := ls_part_number st + 1
                                   |} |}).
  { unfold loop_body. rewrite (write_at_end _ (b :: c) Hend).
    unfold tell. cbn [pos].
    change (N.of_nat (length (getvalue (ls_buffer st) ++ b :: c)))
      with (blen (getvalue (ls_buffer st) ++ b :: c)).
    apply N.ltb_lt in Hlt. rewrite Hlt.
    unfold upload_part, read_to_end, seek. cbn [pos getvalue skipn].
    unfold bind, emit, lift_boto. rewrite Htg. reflexivity. }
  rewrite (bind_eq _ _ _ _ _ _ _ _ Hbody). now rewrite prepend_prepend.
Qed.

Lemma flush_remainder_empty se u st s :
  ls_buffer st = new_BytesIO ->
  flush_remainder se u st s = {| events := []; final := s; value := Ok st |}.
Proof. intros H. unfold flush_remainder. now rewrite H. Qed.

(** Six reads of one read unit each against the threshold of the source:
    the first five fill the buffer up to the threshold, the sixth takes it
    over, and all of it goes out as one part. *)
Lemma six_reads_one_part se p u c :
  blen c = READ_SIZE -> uploads_ok se ->
  se_reads se = map RData [c; c; c; c; c; c] ->
  length (bodies (events (buffer_block THRESHOLD se p u active))) = 1.
Proof.
  intros Hb Hok Hreads.
  assert (Hne : c <> []).
  { intros ->. discriminate Hb. }
  destruct (read_loop_data THRESHOLD se p u [c; c; c; c; c]
              {| ls_buffer := new_BytesIO; ls_parts := [];
                 ls_part_number := 1 |}
              active [RData c] eq_refl)
    as (evs & st & Hloop & _ & Hend & Hcat & Hbig & _);
    [repeat constructor; exact Hne|exact Hok|exact at_end_new|].
  cbn [ls_buffer getvalue new_BytesIO app concat] in Hcat.
  assert (Hsize : (blen (concat (bodies evs))
                   + blen (getvalue (ls_buffer st)) = 5 * READ_SIZE)%N).
  { rewrite <- blen_app, Hcat, !blen_app, blen_nil, Hb. lia. }
  assert (Hnone : bodies evs = []).
  { destruct (bodies evs) as [|b bs]; [reflexivity|exfalso].
    inversion Hbig as [|? ? Hlt _]; subst.
    cbn [concat] in Hsize. rewrite blen_app in Hsize.
    unfold THRESHOLD, READ_SIZE in *. lia. }
  rewrite Hnone in Hsize. cbn [concat] in Hsize. rewrite blen_nil in Hsize.
  assert (Hlt : (THRESHOLD < blen (getvalue (ls_buffer st) ++ c))%N).
  { rewrite blen_app, Hb. unfold THRESHOLD, READ_SIZE in *. lia. }
  destruct (Hok (ls_part_number st)) as [tg Htg].
  pose proof (read_loop_flush_step THRESHOLD se p u c [] st active tg
                eq_refl Hne Hend Hlt Htg) as Hstep.
  rewrite read_loop_eof in Hstep by reflexivity.
  unfold buffer_block. rewrite Hreads.
  change (map RData [c; c; c; c; c; c])
    with (map RData [c; c; c; c; c] ++ [RData c]).
  erewrite bind_eq; [|rewrite Hloop, Hstep; reflexivity].
  rewrite flush_remainder_empty by reflexivity.
  cbn [prepend events app]. rewrite app_nil_r, bodies_app, Hnone.
  reflexivity.
Qed.

(** C4 as stated fails on the source's own sizes: six full reads of 1 MiB
    against the threshold of 5 MiB go out as one part of 6 MiB (the buffer
    is sent when it is above the threshold, and after five reads it is at
    it), where [ceil (6 MiB / 5 MiB)] is 2. *)
Lemma six_mebibytes_one_chunk_counterexample :
  ~ emits_exactly_ceil THRESHOLD six_full_reads
      (bodies (events (buffer_block THRESHOLD se_six_mebibytes 101%N
                         "upload-1"%string active))).
Proof.
  unfold emits_exactly_ceil.
  rewrite (six_reads_one_part se_six_mebibytes 101%N "upload-1"%string
             full_read blen_full_read);
    [|intros pn; now exists "etag"%string|reflexivity].
  unfold six_full_reads. cbn [concat].
  rewrite !blen_app, blen_nil, blen_full_read.
  vm_compute. discriminate.
Qed.

(** C8 as stated fails: the run of a first start ends on a read that raises,
    which switches the entity off and leaves the upload of the segment
    open (the [except] clause of the capture errors does not abort it); a
    second start, on the entity that is off, creates a second upload.  The
    session then has two open uploads. *)
Lemma second_start_beside_open_upload_counterexample :
  ~ one_process_one_upload THRESHOLD [w_read_fails; w_stopped] idle.
Proof.
  intros H.
  destruct (H two_starts_before two_starts_after eq_refl) as (_ & Hopen).
  vm_compute in Hopen. lia.
Qed.

(** * The theorems at work *)

(** C7 on a segment that a turn_off stops. *)
Lemma capture_process_always_reaped_witness :
  In (EvPopen (inr 102%N)) (events (segment THRESHOLD se_stopped None active))
  /\ value (segment THRESHOLD se_stopped None active) <> Pending
  /\ exists pre,
       events (segment THRESHOLD se_stopped None active)
       = pre ++ [EvTerminate 102%N; EvWait 102%N].
Proof.
  assert (H : In (EvPopen (inr 102%N))
                 (events (segment THRESHOLD se_stopped None active)))
    by (vm_compute; auto).
  split; [exact H|].
  exact (capture_process_always_reaped THRESHOLD se_stopped None active
           102%N H).
Defined.

(** C5 on the run in which the store refuses the part of the first
    segment. *)
Lemma failed_call_aborted_exactly_once_witness :
  NoDup (created_ids (w_script w_part_fails)) /\
  events (upload_to_s3_sync THRESHOLD w_part_fails active)
  = part_fails_before ++ part_fails_call :: part_fails_after /\
  failed_call "upload-1"%string part_fails_call /\
  (forall r,
     ~ In (EvAbortMultipartUpload "upload-1"%string r) part_fails_before) /\
  exists p r post',
    part_fails_after
    = EvPopenExit p :: EvAbortMultipartUpload "upload-1"%string r :: post' /\
    Forall (fun e => ~ s3_event_on "upload-1"%string e) post'.
Proof.
  assert (Hnd : NoDup (created_ids (w_script w_part_fails))).
  { simpl. repeat constructor; simpl; intuition discriminate. }
  assert (Hf : failed_call "upload-1"%string part_fails_call) by constructor.
  split; [exact Hnd|]. split; [reflexivity|]. split; [exact Hf|].
  exact (failed_call_aborted_exactly_once THRESHOLD w_part_fails active
           "upload-1"%string part_fails_before part_fails_call
           part_fails_after Hnd eq_refl Hf).
Defined.

(** C6 on a segment of three bytes that a turn_off stops. *)
Lemma stop_mid_segment_finalizes_witness :
  _attr_is_on active = true /\
  se_reads se_stopped = map RData [[x03; x04; x05]] ++ RStop :: [] /\
  exists body flush parts,
    upload_loop THRESHOLD [WSegment se_stopped] None active
    = {| events := EvCreateMultipartUpload (inr "upload-2"%string)
                   :: EvPopen (inr 102%N) :: body
                   ++ [EvSetIsOn false; EvScheduleUpdate false] ++ flush
                   ++ [EvCompleteMultipartUpload "upload-2"%string parts None;
                       EvPopenExit 102%N; EvTerminate 102%N; EvWait 102%N];
         final := {| _attr_is_on := false |}; value := Ok tt |} /\
    Forall (data_event 102%N "upload-2"%string) body /\
    (flush = [] \/
     exists pn b tg,
       b <> [] /\ flush = [EvUploadPart "upload-2"%string pn b (inr tg)]) /\
    concat (bodies body) ++ concat (bodies flush) = concat [[x03; x04; x05]].
Proof.
  split; [reflexivity|]. split; [reflexivity|].
  apply (stop_mid_segment_finalizes THRESHOLD se_stopped [] None active
           "upload-2"%string 102%N [[x03; x04; x05]] []);
    try reflexivity.
  - repeat constructor. discriminate.
  - intros pn. exists "etag"%string. reflexivity.
Defined.


(** C2, amended, on a run that a turn_off stops. *)
Lemma start_returns_after_recording_witness :
  _attr_is_on idle = false /\
  (value (async_turn_on THRESHOLD w_stopped idle) = Pending <->
   value (upload_to_s3_sync THRESHOLD w_stopped {| _attr_is_on := true |})
   = Pending) /\
  (value (async_turn_on THRESHOLD w_stopped idle) <> Pending ->
   _attr_is_on (final (async_turn_on THRESHOLD w_stopped idle)) = false /\
   events (async_turn_on THRESHOLD w_stopped idle)
   = [EvSetIsOn true; EvScheduleUpdate true]
     ++ events (upload_to_s3_sync THRESHOLD w_stopped {| _attr_is_on := true |})
     ++ stop_events
          (_attr_is_on
             (final (upload_to_s3_sync THRESHOLD w_stopped
                       {| _attr_is_on := true |})))).
Proof.
  split; [reflexivity|].
  exact (start_returns_after_recording THRESHOLD w_stopped idle eq_refl).
Defined.

(** C3, amended, on the run in which the capture process cannot be
    launched. *)
Lemma on_flag_set_before_capture_witness :
  _attr_is_on idle = false /\
  (exists tl,
     events (async_turn_on THRESHOLD w_launch_fails idle)
     = EvSetIsOn true :: EvScheduleUpdate true
       :: EvClient (w_client w_launch_fails) :: tl) /\
  (forall pre r post,
     events (async_turn_on THRESHOLD w_launch_fails idle)
     = pre ++ EvPopen r :: post ->
     In (EvScheduleUpdate true) pre).
Proof.
  split; [reflexivity|].
  exact (on_flag_set_before_capture THRESHOLD w_launch_fails idle eq_refl).
Defined.

(** C4, amended, on a segment of two bytes. *)
Lemma accumulator_emits_at_most_ceil_witness :
  (0 < THRESHOLD)%N /\
  se_reads se_ended = map RData [[x01; x02]] /\
  let chunks := bodies (events (buffer_block THRESHOLD se_ended 101%N
                                  "upload-1"%string active)) in
  (N.of_nat (length chunks) <= ceil_div (blen (concat [[x01; x02]])) THRESHOLD)%N
  /\ sizes_sum chunks = blen (concat [[x01; x02]])
  /\ concat chunks = concat [[x01; x02]]
  /\ (forall pre last, chunks = pre ++ [last] ->
                       Forall (fun b => (THRESHOLD < blen b)%N) pre).
Proof.
  split; [reflexivity|]. split; [reflexivity|].
  apply (accumulator_emits_at_most_ceil THRESHOLD se_ended 101%N
           "upload-1"%string active [[x01; x02]]); try reflexivity.
  - repeat constructor. discriminate.
  - intros pn. exists "etag"%string. reflexivity.
Defined.

(** C8 on an entity that is on, and on the run that a turn_off stops. *)
Lemma start_on_active_is_noop_witness :
  _attr_is_on active = true /\
  async_turn_on THRESHOLD w_stopped active
  = {| events := []; final := active; value := Ok tt |} /\
  (forall pre post,
     events (async_turn_on THRESHOLD w_stopped idle) = pre ++ post ->
     at_most_one (resources_after pre no_resources)).
Proof.
  split; [reflexivity|]. split.
  - exact (proj1 (start_on_active_is_noop THRESHOLD w_stopped active) eq_refl).
  - exact (proj2 (start_on_active_is_noop THRESHOLD w_stopped idle)).
Defined.

(** C9 on the sizes of the source. *)
Lemma buffer_within_threshold_plus_read_witness :
  reads_bounded READ_SIZE (se_reads se_stopped) /\
  Forall (fun b => (blen b <= THRESHOLD + READ_SIZE)%N)
         (bodies (events (buffer_block THRESHOLD se_stopped 102%N
                            "upload-2"%string active))).
Proof.
  assert (H : reads_bounded READ_SIZE (se_reads se_stopped)).
  { repeat constructor. vm_compute. discriminate. }
  split; [exact H|].
  exact (proj1 (buffer_within_threshold_plus_read THRESHOLD READ_SIZE
                  se_stopped 102%N "upload-2"%string active H)).
Defined.

(** C10 on a configuration with one rtsp stream. *)
Lemma stream_url_scheme_validated_witness :
  validate_bucket_sync HeadBucketOk = inr tt /\
  Forall (fun d => exists url, has_url d url)
         [JObject [("name"%string, JString "cam");
                   ("url"%string, JString "rtsp://camera.local/live")]] /\
  async_step_user "stream_recorder_to_s3" (fun _ => Some one_stream_parsed)
    (fun _ => HeadBucketOk) (Some one_stream)
  = CreateEntry "stream_recorder_to_s3" one_stream.
Proof.
  assert (H : Forall (fun d => exists url, has_url d url)
                [JObject [("name"%string, JString "cam");
                          ("url"%string, JString "rtsp://camera.local/live")]]).
  { repeat constructor. exists "rtsp://camera.local/live"%string.
    reflexivity. }
  split; [reflexivity|]. split; [exact H|].
  apply (proj1 (proj2 (stream_url_scheme_validated "stream_recorder_to_s3"
                         (fun _ => Some one_stream_parsed)
                         (fun _ => HeadBucketOk) one_stream)
                  _ eq_refl eq_refl H)).
  repeat constructor. exists "rtsp://camera.local/live"%string.
  split; [reflexivity|]. left. exists "camera.local/live"%string. reflexivity.
Defined.

(** * The parts of a completed upload *)

Lemma acked_app evs1 evs2 : acked (evs1 ++ evs2) = acked evs1 ++ acked evs2.
Proof.
  induction evs1 as [|e evs1 IH]; [reflexivity|].
  destruct e as [| | | | | |? ? ? [?|?]| | | | |]; simpl; now rewrite ?IH.
Qed.

Lemma chunks_read_app evs1 evs2 :
  chunks_read (evs1 ++ evs2) = chunks_read evs1 ++ chunks_read evs2.
Proof.
  induction evs1 as [|e evs1 IH]; [reflexivity|].
  destruct e as [| | | | |? [?|?]| | | | | |]; simpl; now rewrite ?IH.
Qed.

Lemma count_from_app first n m :
  count_from first (n + m)
  = count_from first n ++ count_from (first + N.of_nat n) m.
Proof.
  revert first. induction n as [|n IH]; intros first.
  - simpl. now rewrite N.add_0_r.
  - cbn [Nat.add count_from app]. rewrite IH. do 3 f_equal. lia.
Qed.

Lemma carried_refl st : at_end (ls_buffer st) -> carried st [] [] st.
Proof.
  intros Hend. unfold carried. simpl.
  rewrite !app_nil_r, N.add_0_r. repeat split; auto.
Qed.

Lemma carried_trans st evs1 d1 st1 evs2 d2 st2 :
  carried st evs1 d1 st1 -> carried st1 evs2 d2 st2 ->
  carried st (evs1 ++ evs2) (d1 ++ d2) st2.
Proof.
  intros (_ & Hp1 & Hn1 & Hc1 & Hl1 & Hd1 & Hb1)
         (He2 & Hp2 & Hn2 & Hc2 & Hl2 & Hd2 & Hb2).
  unfold carried.
  rewrite acked_app, bodies_app, !length_app, map_app, concat_app.
  split; [exact He2|]. split; [now rewrite Hp2, Hp1, app_assoc|].
  split; [rewrite Hn2, Hn1; lia|].
  split; [now rewrite count_from_app, Hc1, Hc2, Hn1|].
  split; [now rewrite Hl1, Hl2|].
  split; [now rewrite <- app_assoc, Hd2, app_assoc, Hd1, app_assoc|].
  apply Forall_app. now split.
Qed.

(** Events that are neither a read that returned nor a part. *)
Lemma carried_events st evs data st' evs0 :
  acked evs0 = [] -> bodies evs0 = [] ->
  carried st evs data st' -> carried st (evs0 ++ evs) data st'.
Proof.
  intros Ha Hb H. unfold carried in *.
  now rewrite acked_app, bodies_app, Ha, Hb.
Qed.

(** One turn of the read loop on a chunk that is not empty. *)
Lemma loop_body_carried t se u chunk st s st' :
  at_end (ls_buffer st) -> chunk <> [] ->
  value (loop_body t se u chunk st s) = Ok st' ->
  carried st (events (loop_body t se u chunk st s)) chunk st'.
Proof.
  intros Hend Hne. unfold loop_body. rewrite (write_at_end _ chunk Hend).
  unfold tell. cbn [pos].
  destruct (t <? _)%N.
  - unfold upload_part, read_to_end, seek. simpl.
    unfold bind, emit, lift_boto.
    destruct (se_upload_part se (ls_part_number st)) as [e|tg]; simpl;
      intros Hv; [discriminate|].
    injection Hv as <-. unfold carried. simpl.
    rewrite !app_nil_r.
    repeat split; auto. constructor; [|constructor].
    destruct chunk; [congruence|]. now destruct (getvalue (ls_buffer st)).
  - simpl. intros Hv. injection Hv as <-. unfold carried. simpl.
    rewrite app_nil_r, N.add_0_r. repeat split; auto.
Qed.

Lemma loop_body_no_read t se u chunk st s :
  chunks_read (events (loop_body t se u chunk st s)) = [].
Proof.
  unfold loop_body. destruct (t <? _)%N; [|reflexivity].
  unfold upload_part, read_to_end, seek. simpl. unfold bind, emit, lift_boto.
  now destruct (se_upload_part se (ls_part_number st)).
Qed.

Lemma stop_events_no_part on :
  acked (stop_events on) = [] /\ bodies (stop_events on) = [] /\
  chunks_read (stop_events on) = [].
Proof. now destruct on. Qed.

(** The read loop, whatever the world: when it ends well, the parts it
    recorded are the parts acknowledged, numbered on from the part number it
    started with, and what was sent and what is left in the buffer are
    together what was in the buffer and what was read. *)
Lemma read_loop_carried t se p u reads :
  forall st s st',
    at_end (ls_buffer st) ->
    value (read_loop t se p u reads st s) = Ok st' ->
    carried st (events (read_loop t se p u reads st s))
      (concat (chunks_read (events (read_loop t se p u reads st s)))) st'.
Proof.
  induction reads as [|[|c|e] rest IH]; intros st s st' Hend.
  - simpl. rewrite bind_get_is_on.
    destruct (_attr_is_on s); simpl; intros Hv; injection Hv as <-.
    + apply (carried_events _ [] [] _ [EvRead p (inr [])]);
        [reflexivity|reflexivity|now apply carried_refl].
    + now apply carried_refl.
  - cbn [read_loop]. rewrite bind_stop.
    rewrite read_loop_off by reflexivity. simpl. rewrite app_nil_r.
    intros Hv. injection Hv as <-.
    destruct (stop_events_no_part (_attr_is_on s)) as (Ha & Hb & ->).
    rewrite <- (app_nil_r (stop_events _)).
    apply carried_events; [exact Ha|exact Hb|now apply carried_refl].
  - cbn [read_loop]. rewrite bind_get_is_on.
    destruct (_attr_is_on s);
      [|simpl; intros Hv; injection Hv as <-; now apply carried_refl].
    rewrite bind_stdout_read.
    destruct c as [|b c]; cbn [is_empty].
    { simpl. intros Hv. injection Hv as <-.
      apply (carried_events _ [] [] _ [EvRead p (inr [])]);
        [reflexivity|reflexivity|now apply carried_refl]. }
    pose proof (loop_body_carried t se u (b :: c) st s) as Hbody.
    pose proof (loop_body_no_read t se u (b :: c) st s) as Hnr.
    destruct (loop_body t se u (b :: c) st s) as [evs1 f1 [st1| |]] eqn:Hb;
      simpl in Hbody, Hnr;
      [|unfold bind; rewrite Hb; simpl; discriminate..].
    rewrite (bind_eq _ _ _ _ _ _ _ _ Hb).
    specialize (Hbody st1 Hend ltac:(discriminate) eq_refl).
    pose proof (IH st1 f1 st') as IH'.
    destruct (read_loop t se p u rest st1 f1) as [evs2 f2 v2].
    simpl in IH' |- *. intros Hv.
    specialize (IH' ltac:(apply Hbody) Hv).
    rewrite chunks_read_app, Hnr. simpl.
    change (b :: c ++ concat (chunks_read evs2))
      with ((b :: c) ++ concat (chunks_read evs2)).
    apply (carried_events _ _ _ _ [EvRead p (inr (b :: c))]);
      [reflexivity|reflexivity|].
    now apply carried_trans with (st1 := st1).
  - cbn [read_loop]. rewrite bind_get_is_on.
    destruct (_attr_is_on s); simpl; [discriminate|].
    intros Hv. injection Hv as <-. now apply carried_refl.
Qed.

(** The buffer block, whatever the world: when it ends well, the list of
    parts it hands on is the list of the parts acknowledged, numbered from
    one, every part sent was acknowledged, none is empty, and the parts are
    together the bytes read. *)
Lemma buffer_block_parts t se p u s st :
  value (buffer_block t se p u s) = Ok st ->
  ls_parts st = acked (events (buffer_block t se p u s)) /\
  map fst (ls_parts st) = count_from 1 (length (ls_parts st)) /\
  length (bodies (events (buffer_block t se p u s))) = length (ls_parts st) /\
  concat (bodies (events (buffer_block t se p u s)))
  = concat (chunks_read (events (buffer_block t se p u s))) /\
  Forall (fun b => b <> []) (bodies (events (buffer_block t se p u s))).
Proof.
  unfold buffer_block.
  pose proof (read_loop_carried t se p u (se_reads se)
                {| ls_buffer := new_BytesIO; ls_parts := [];
                   ls_part_number := 1 |} s) as Hloop.
  destruct (read_loop t se p u (se_reads se) _ s) as [evs1 f1 [st1| |]] eqn:Hr;
    [|unfold bind; rewrite Hr; simpl; discriminate..].
  rewrite (bind_eq _ _ _ _ _ _ _ _ Hr).
  destruct (Hloop st1 at_end_new eq_refl)
    as (Hend & Hp & Hn & Hc & Hl & Hd & Hb).
  cbn [ls_parts ls_part_number ls_buffer getvalue new_BytesIO app events]
    in Hp, Hn, Hc, Hl, Hd, Hb.
  clear Hloop. unfold flush_remainder, tell. rewrite Hend.
  destruct (0 <? _)%N eqn:E.
  - apply N.ltb_lt in E.
    unfold upload_part, read_to_end, seek. simpl.
    unfold bind, emit, lift_boto.
    destruct (se_upload_part se (ls_part_number st1)) as [e|tg]; simpl;
      intros Hv; [discriminate|].
    injection Hv as <-. simpl.
    rewrite acked_app, bodies_app, chunks_read_app, concat_app. simpl.
    rewrite !app_nil_r, Hp, map_app, !length_app, Hc, Hl, Hn, Hd.
    cbn [map fst length].
    split; [reflexivity|]. split; [now rewrite count_from_app|].
    split; [reflexivity|]. split; [reflexivity|].
    apply Forall_app. split; [exact Hb|]. constructor; [|constructor].
    intros Hnil. rewrite Hnil in E. simpl in E. lia.
  - simpl. intros Hv. injection Hv as <-.
    apply N.ltb_ge in E.
    assert (Hnil : getvalue (ls_buffer st1) = [])
      by (destruct (getvalue (ls_buffer st1)); [reflexivity|simpl in E; lia]).
    rewrite Hnil, app_nil_r in Hd. rewrite !app_nil_r, Hp, Hc, Hl, Hd.
    repeat split; auto.
Qed.

(** A [complete_multipart_upload] call in a pass of the outer loop: the
    buffer block ended well, the call comes right after it and is the only
    one. *)
Lemma segment_complete_event t se process s u parts r :
  In (EvCompleteMultipartUpload u parts r) (events (segment t se process s)) ->
  exists p st tl,
    se_create se = inr u /\ se_popen se = inr p /\ r = se_complete se /\
    value (buffer_block t se p u s) = Ok st /\ parts = ls_parts st /\
    events (segment t se process s)
    = (EvCreateMultipartUpload (inr u) :: EvPopen (inr p)
       :: events (buffer_block t se p u s))
      ++ EvCompleteMultipartUpload u parts r :: tl /\
    Forall (quiet p u) (events (buffer_block t se p u s)) /\
    forall u' parts' r', ~ In (EvCompleteMultipartUpload u' parts' r') tl.
Proof.
  unfold segment, create_multipart_upload, bound_process, popen.
  destruct (se_create se) as [e|u0] eqn:Ec.
  { simpl. intros [H|[]]. discriminate. }
  destruct (se_popen se) as [e|p] eqn:Ep.
  { destruct s as [[|]]; destruct process; simpl; intros H; in_cases H;
      discriminate. }
  pose proof (block_shape_buffer_block t p u0 se s) as H.
  unfold popen_block, complete_multipart_upload, terminate_and_wait,
    abort_multipart_upload.
  unfold bind, finally, try_except, emit, ret, raise, lift_boto_unit;
    cbn -[buffer_block].
  destruct (buffer_block t se p u0 s) as [evs f v] eqn:Hblock.
  destruct H as [st Hv Hq|e pn body pre Hv He Hq|e pre Hv He Hq];
    simpl in Hv, Hq; try simpl in He; subst v; cbn.
  - destruct (se_complete se) as [e|] eqn:Ecomp; cbn;
      [destruct (se_abort se); cbn|]; rewrite <- ?app_assoc; cbn [app];
      intros Hin; in_cases Hin; try discriminate; try not_quiet Hin Hq;
      injection Hin as <- <- <-;
      eexists p, st, _; rewrite Hblock; cbn [events value];
      (split; [reflexivity|]); (split; [reflexivity|]);
      (split; [reflexivity|]); (split; [reflexivity|]);
      (split; [reflexivity|]); (split; [reflexivity|]);
      (split; [exact Hq|]);
      intros u' parts' r' Hin; in_cases Hin; discriminate.
  - subst evs. destruct (se_abort se); cbn; rewrite <- ?app_assoc; cbn [app];
      intros Hin; in_cases Hin; try discriminate; not_quiet Hin Hq.
  - subst evs. destruct f as [[|]]; cbn; rewrite <- ?app_assoc; cbn [app];
      intros Hin; in_cases Hin; try discriminate; not_quiet Hin Hq.
Qed.

(** The events before a [complete_multipart_upload] call of a pass are the
    creation of the upload, the launch, and the events of the buffer
    block. *)
Lemma segment_complete_split t se process s u parts r pre post :
  events (segment t se process s)
  = pre ++ EvCompleteMultipartUpload u parts r :: post ->
  exists p st,
    se_create se = inr u /\ se_popen se = inr p /\ r = se_complete se /\
    value (buffer_block t se p u s) = Ok st /\ parts = ls_parts st /\
    pre = EvCreateMultipartUpload (inr u) :: EvPopen (inr p)
          :: events (buffer_block t se p u s).
Proof.
  intros He.
  assert (Hin : In (EvCompleteMultipartUpload u parts r)
                   (events (segment t se process s)))
    by (rewrite He; apply in_elt).
  destruct (segment_complete_event t se process s u parts r Hin)
    as (p & st & tl & Hc & Hp & Hr & Hv & Hparts & He' & Hq & Htl).
  exists p, st. repeat (split; [assumption|]).
  rewrite He' in He.
  destruct (split_unique _
              (fun e => exists u' parts' r',
                          e = EvCompleteMultipartUpload u' parts' r')
              _ _ _ _ _ _ He) as (Hpre & _).
  - constructor; [intros (? & ? & ? & ?); discriminate|].
    constructor; [intros (? & ? & ? & ?); discriminate|].
    apply Forall_forall. intros e Hin' (u' & parts' & r' & ->).
    not_quiet Hin' Hq.
  - apply Forall_forall. intros e Hin' (u' & parts' & r' & ->).
    exact (Htl _ _ _ Hin').
  - now exists u, parts, r.
  - now symmetry.
Qed.

(** X1: in every pass of the outer loop, whatever the store and the capture
    process answer and whenever a turn_off lands, the list of parts handed
    to [complete_multipart_upload] is the list of the parts that the store
    acknowledged before, with their ETags and in the order of sending; the
    part numbers are 1, 2, ... without a gap; and every part that was sent
    before was acknowledged. *)
Theorem completed_parts_are_the_acknowledged_parts
    t se process s u parts r pre post :
  events (segment t se process s)
  = pre ++ EvCompleteMultipartUpload u parts r :: post ->
  parts = acked pre /\
  map fst parts = count_from 1 (length parts) /\
  length (bodies pre) = length parts.
Proof.
  intros He.
  destruct (segment_complete_split _ _ _ _ _ _ _ _ _ He)
    as (p & st & _ & _ & _ & Hv & -> & ->).
  destruct (buffer_block_parts _ _ _ _ _ _ Hv) as (Hp & Hc & Hl & _).
  cbn [acked bodies]. auto.
Qed.

(** X2: in every pass of the outer loop, when [complete_multipart_upload]
    is called, the bodies of the parts sent before are, one after the other,
    exactly the bytes that the reads of the capture process returned: no
    byte is lost, doubled or out of order; no part is empty; and the list of
    parts is empty exactly when no byte was read. *)
Theorem completed_upload_holds_the_bytes_read
    t se process s u parts r pre post :
  events (segment t se process s)
  = pre ++ EvCompleteMultipartUpload u parts r :: post ->
  concat (bodies pre) = concat (chunks_read pre) /\
  Forall (fun b => b <> []) (bodies pre) /\
  (parts = [] <-> concat (chunks_read pre) = []).
Proof.
  intros He.
  destruct (segment_complete_split _ _ _ _ _ _ _ _ _ He)
    as (p & st & _ & _ & _ & Hv & -> & ->).
  destruct (buffer_block_parts _ _ _ _ _ _ Hv) as (_ & _ & Hl & Hd & Hb).
  cbn [chunks_read bodies].
  split; [exact Hd|]. split; [exact Hb|].
  rewrite <- Hd.
  destruct (bodies (events (buffer_block t se p u s))) as [|b bs];
    destruct (ls_parts st) as [|pt pts]; try discriminate.
  - now split.
  - split; [discriminate|]. simpl. intros Hnil.
    apply app_eq_nil in Hnil. inversion Hb; subst. tauto.
Qed.

(** X1 on the pass that a turn_off stops. *)
Lemma completed_parts_are_the_acknowledged_parts_witness :
  events (segment THRESHOLD se_stopped None active)
  = stopped_before
    ++ EvCompleteMultipartUpload "upload-2"%string [(1%N, "etag"%string)] None
    :: stopped_after /\
  [(1%N, "etag"%string)] = acked stopped_before /\
  map fst [(1%N, "etag"%string)] = count_from 1 1 /\
  length (bodies stopped_before) = 1.
Proof.
  split; [reflexivity|].
  apply (completed_parts_are_the_acknowledged_parts THRESHOLD se_stopped None
           active "upload-2"%string [(1%N, "etag"%string)] None
           stopped_before stopped_after).
  reflexivity.
Defined.

(** X2 on the pass that a turn_off stops. *)
Lemma completed_upload_holds_the_bytes_read_witness :
  events (segment THRESHOLD se_stopped None active)
  = stopped_before
    ++ EvCompleteMultipartUpload "upload-2"%string [(1%N, "etag"%string)] None
    :: stopped_after /\
  concat (bodies stopped_before) = concat (chunks_read stopped_before) /\
  Forall (fun b => b <> []) (bodies stopped_before) /\
  ([(1%N, "etag"%string)] = [] <-> concat (chunks_read stopped_before) = []).
Proof.
  split; [reflexivity|].
  apply (completed_upload_holds_the_bytes_read THRESHOLD se_stopped None
           active "upload-2"%string [(1%N, "etag"%string)] None
           stopped_before stopped_after).
  reflexivity.
Defined.

(** * What [async_turn_on] raises *)

Lemma first_popen_app evs1 evs2 :
  first_popen (evs1 ++ evs2)
  = match first_popen evs1 with
    | Some r => Some r
    | None => first_popen evs2
    end.
Proof.
  induction evs1 as [|e evs1 IH]; [reflexivity|]. now destruct e.
Qed.

Lemma first_popen_stop_events on : first_popen (stop_events on) = None.
Proof. now destruct on. Qed.

(** One turn of the outer loop when the flag is on. *)
Lemma upload_loop_step t se rest process s :
  _attr_is_on s = true ->
  upload_loop t (WSegment se :: rest) process s
  = bind (segment t se process) (fun q => upload_loop t rest q) s.
Proof. intros Hon. cbn [upload_loop]. now rewrite bind_get_is_on, Hon. Qed.

(** The flag after a pass in which the launch failed. *)
Lemma segment_popen_fails_off t se process s u e :
  se_create se = inr u -> se_popen se = inl e ->
  _attr_is_on (final (segment t se process s)) = false.
Proof.
  intros Hc0 Hp0. rewrite tracked_segment.
  shape_cases t se process s; try congruence.
  rewrite He. destruct s as [[|]]; destruct process; reflexivity.
Qed.

(** What the outer loop raises: an error of the store, or the
    [UnboundLocalError] of the [finally] clause, and this one exactly when
    no capture process was launched before and the first launch fails. *)
Lemma upload_loop_unbound t script :
  forall process s,
    (forall e, value (upload_loop t script process s) = Raise e ->
               (exists b, e = Boto b) \/ e = UnboundLocalError) /\
    (process <> None ->
     value (upload_loop t script process s) <> Raise UnboundLocalError) /\
    (process = None ->
     (value (upload_loop t script process s) = Raise UnboundLocalError <->
      exists pe, first_popen (events (upload_loop t script process s))
                 = Some (inl pe))).
Proof.
  induction script as [|[|se] rest IH]; intros process s.
  - cbn [upload_loop]. rewrite bind_get_is_on.
    destruct (_attr_is_on s); simpl;
      (split; [discriminate|split; [discriminate|]]);
      intros _; (split; [discriminate|intros (pe & H); discriminate]).
  - rewrite upload_loop_stop. simpl. rewrite first_popen_stop_events.
    split; [discriminate|split; [discriminate|]].
    intros _. split; [discriminate|intros (pe & H); discriminate].
  - destruct (_attr_is_on s) eqn:Hon.
    2:{ rewrite upload_loop_off by exact Hon. simpl.
        split; [discriminate|split; [discriminate|]].
        intros _. split; [discriminate|intros (pe & H); discriminate]. }
    rewrite upload_loop_step by exact Hon.
    pose proof (segment_popen_fails_off t se process s) as Hoff.
    shape_cases t se process s.
    + rewrite (bind_Raise _ _ _ _ _ _ Hv), He. simpl.
      split; [intros e H; injection H as <-; left; now exists e'|].
      split; [discriminate|].
      intros _. split; [discriminate|intros (pe & H); discriminate].
    + destruct process as [q|].
      * rewrite (bind_Ok _ _ _ _ _ _ Hv).
        rewrite upload_loop_off by exact (Hoff _ _ Hc Hp). simpl.
        split; [discriminate|split; [discriminate|]].
        intros H; discriminate.
      * rewrite (bind_Raise _ _ _ _ _ _ Hv), He. simpl.
        split; [intros e H; injection H as <-; now right|].
        split; [congruence|].
        intros _. split; [now exists e'|reflexivity].
    + rewrite (bind_Ok _ _ _ _ _ _ Hv), He.
      destruct (IH (Some q) (final (segment t se process s)))
        as (IH1 & IH2 & _).
      cbn [events value app first_popen].
      split; [exact IH1|]. split; [intros _; now apply IH2|].
      intros _. split; [intros H; now apply IH2 in H|].
      intros (pe & H); discriminate.
    + destruct (se_abort se) as [b|].
      * rewrite (bind_Raise _ _ _ _ _ _ Hv), He.
        cbn [events value app first_popen].
        split; [intros e H; injection H as <-; left; now exists b|].
        split; [discriminate|].
        intros _. split; [discriminate|intros (pe & H); discriminate].
      * rewrite (bind_Ok _ _ _ _ _ _ Hv), He.
        destruct (IH (Some q) (final (segment t se process s)))
          as (IH1 & IH2 & _).
        cbn [events value app first_popen].
        split; [exact IH1|]. split; [intros _; now apply IH2|].
        intros _. split; [intros H; now apply IH2 in H|].
        intros (pe & H); discriminate.
    + rewrite (bind_Ok _ _ _ _ _ _ Hv), He.
      destruct (IH (Some q) (final (segment t se process s)))
        as (IH1 & IH2 & _).
      cbn [events value app first_popen].
      split; [exact IH1|]. split; [intros _; now apply IH2|].
      intros _. split; [intros H; now apply IH2 in H|].
      intros (pe & H); discriminate.
Qed.

Lemma upload_to_s3_sync_client_ok t w s :
  w_client w = None ->
  upload_to_s3_sync t w s
  = prepend [EvClient None] (upload_loop t (w_script w) None s).
Proof.
  intros Hc. unfold upload_to_s3_sync, boto3_client. rewrite Hc.
  unfold bind, emit, lift_boto_unit, ret. simpl.
  now destruct (upload_loop t (w_script w) None s).
Qed.

Lemma upload_to_s3_sync_client_fails t w s e :
  w_client w = Some e ->
  upload_to_s3_sync t w s
  = {| events := [EvClient (Some e)]; final := s; value := Raise (Boto e) |}.
Proof.
  intros Hc. unfold upload_to_s3_sync, boto3_client. now rewrite Hc.
Qed.

(** X3: [async_turn_on] lets an exception out exactly when the first launch
    of a capture process in the run fails, and the exception is then the
    [UnboundLocalError] of the [finally] clause of the pass ([process] was
    never bound); every error of the store, and a launch that fails after
    one that succeeded, is swallowed. *)
Theorem turn_on_raises_iff_first_launch_fails t w s :
  ((exists e, value (async_turn_on t w s) = Raise e) <->
   (exists pe, first_popen (events (async_turn_on t w s)) = Some (inl pe))) /\
  (forall e, value (async_turn_on t w s) = Raise e -> e = UnboundLocalError).
Proof.
  destruct (_attr_is_on s) eqn:Hon.
  { rewrite async_turn_on_on_entity by exact Hon. simpl.
    split; [split; [intros (e & H)|intros (pe & H)]|intros e H];
      discriminate. }
  rewrite async_turn_on_off_entity by exact Hon.
  destruct (w_client w) as [b|] eqn:Hc.
  { rewrite (upload_to_s3_sync_client_fails _ _ _ _ Hc).
    unfold start_outcome. simpl.
    split; [split; [intros (e & H)|intros (pe & H)]|intros e H];
      discriminate. }
  rewrite (upload_to_s3_sync_client_ok _ _ _ Hc).
  destruct (upload_loop_unbound t (w_script w) None {| _attr_is_on := true |})
    as (H1 & _ & H3).
  specialize (H3 eq_refl).
  destruct (upload_loop t (w_script w) None {| _attr_is_on := true |})
    as [evs f v].
  cbn [events value] in H1, H3. unfold start_outcome.
  cbn [prepend events value final app].
  assert (Hfirst : forall on,
            first_popen (evs ++ stop_events on) = first_popen evs).
  { intros on. rewrite first_popen_app, first_popen_stop_events.
    now destruct (first_popen evs). }
  destruct v as [[]|e|]; cbn [events value app first_popen];
    rewrite ?Hfirst.
  - split; [split; [intros (e & H); discriminate|]|intros e H; discriminate].
    intros H. apply H3 in H. discriminate.
  - destruct (H1 e eq_refl) as [(b & ->)| ->]; cbn [start_handler].
    + split; [split; [intros (e & H); discriminate|]|intros e H; discriminate].
      intros H. apply H3 in H. discriminate.
    + split; [|intros e H; now injection H as <-].
      split; [intros _; now apply H3|intros _; now exists UnboundLocalError].
  - split; [split; [intros (e & H); discriminate|]|intros e H; discriminate].
    intros H. apply H3 in H. discriminate.
Qed.

(** * Errors of the capture *)

Lemma flag_after_stop_events on : flag_after (stop_events on) on = false.
Proof. now destruct on. Qed.

Lemma quiet_not_capture_error p u e : quiet p u e -> capture_error e -> False.
Proof. destruct e as [| | | |[?|?]|? [?|?]| | | | | |]; simpl; tauto. Qed.

Lemma failed_call_not_capture_error u e :
  failed_call u e -> capture_error e -> False.
Proof. intros Hf. destruct Hf; simpl; tauto. Qed.

Lemma quiet_not_closes p u u' e : quiet p u e -> closes u' e -> False.
Proof. destruct e; simpl; tauto. Qed.

(** X4: when the capture fails in a pass of the outer loop (the launch of
    the capture process fails, or a read raises), the entity is switched
    off and the outer loop does nothing more after the pass; the upload
    created at the head of the pass is neither completed nor aborted: it is
    left open in the bucket, with the parts sent so far. *)
Theorem capture_error_leaves_upload_open t se process s ev :
  In ev (events (segment t se process s)) -> capture_error ev ->
  _attr_is_on (final (segment t se process s)) = false /\
  (forall rest, loop_rest t rest (segment t se process s) = []) /\
  exists u,
    In (EvCreateMultipartUpload (inr u)) (events (segment t se process s)) /\
    forall e, In e (events (segment t se process s)) -> ~ closes u e.
Proof.
  intros Hin Hce.
  assert (Hoff : _attr_is_on (final (segment t se process s)) = false /\
                 exists u,
                   In (EvCreateMultipartUpload (inr u))
                      (events (segment t se process s)) /\
                   forall e, In e (events (segment t se process s)) ->
                             ~ closes u e).
  { rewrite tracked_segment.
    shape_cases t se process s; rewrite He in Hin |- *; in_cases Hin;
      try (subst ev; contradiction);
      try (exfalso; apply (proj1 (Forall_forall _ _) Hq) in Hin;
           exact (quiet_not_capture_error _ _ _ Hin Hce));
      try (exfalso; subst ev'; exact (failed_call_not_capture_error _ _ Hf Hce)).
    - split; [destruct s as [[|]]; destruct process; reflexivity|].
      exists u'. split; [now left|].
      intros e Hin' Hcl. in_cases Hin'; subst; try contradiction.
    - split.
      + cbn [flag_after]. rewrite !flag_after_app. cbn [flag_after].
        apply flag_after_stop_events.
      + exists u'. split; [now left|].
        intros e Hin' Hcl. in_cases Hin'; subst; try contradiction.
        * apply (proj1 (Forall_forall _ _) Hq) in Hin'.
          exact (quiet_not_closes _ _ _ _ Hin' Hcl). }
  destruct Hoff as (Hoff & Hu). split; [exact Hoff|]. split; [|exact Hu].
  intros rest. now apply loop_rest_off.
Qed.

(** X4 on a pass in which the capture process cannot be launched. *)
Lemma capture_error_leaves_upload_open_witness :
  In (EvPopen (inl OSError))
     (events (segment THRESHOLD se_launch_fails None active)) /\
  capture_error (EvPopen (inl OSError)) /\
  _attr_is_on (final (segment THRESHOLD se_launch_fails None active)) = false /\
  (forall rest,
     loop_rest THRESHOLD rest (segment THRESHOLD se_launch_fails None active)
     = []) /\
  exists u,
    In (EvCreateMultipartUpload (inr u))
       (events (segment THRESHOLD se_launch_fails None active)) /\
    forall e, In e (events (segment THRESHOLD se_launch_fails None active)) ->
              ~ closes u e.
Proof.
  assert (Hin : In (EvPopen (inl OSError))
                   (events (segment THRESHOLD se_launch_fails None active)))
    by (simpl; auto).
  split; [exact Hin|]. split; [exact I|].
  exact (capture_error_leaves_upload_open THRESHOLD se_launch_fails None
           active (EvPopen (inl OSError)) Hin I).
Defined.

(** * Storage failures that end the run *)

Lemma quiet_not_fatal p u e : quiet p u e -> fatal_call e -> False.
Proof. destruct e as [| |[?|]|[?|?]| | | | |? [?|]| | |]; simpl; tauto. Qed.

Lemma failed_call_not_fatal u e : failed_call u e -> fatal_call e -> False.
Proof. intros Hf. destruct Hf; simpl; tauto. Qed.

Lemma stop_events_winding_down on : Forall winding_down (stop_events on).
Proof. destruct on; repeat constructor. Qed.

(** A fatal call in a pass of the outer loop: the pass raises, and after the
    call it only reaps the capture process. *)
Lemma segment_fatal t se process s pre ev post :
  events (segment t se process s) = pre ++ ev :: post -> fatal_call ev ->
  (exists b, value (segment t se process s) = Raise (Boto b)) /\
  Forall winding_down post.
Proof.
  intros Hsplit Hfatal.
  assert (Hin : In ev (events (segment t se process s)))
    by (rewrite Hsplit; apply in_elt).
  shape_cases t se process s; rewrite He in Hin, Hsplit; rewrite Hv.
  - destruct pre as [|e0 [|e1 pre]]; try discriminate.
    injection Hsplit as <- <-. split; [now exists e'|constructor].
  - exfalso. in_cases Hin; subst ev; contradiction.
  - exfalso. in_cases Hin; try (subst ev; contradiction).
    apply (proj1 (Forall_forall _ _) Hq) in Hin.
    exact (quiet_not_fatal _ _ _ Hin Hfatal).
  - destruct (se_abort se) as [b|] eqn:Ea.
    2:{ exfalso. in_cases Hin; try (subst ev; contradiction).
        - apply (proj1 (Forall_forall _ _) Hq) in Hin.
          exact (quiet_not_fatal _ _ _ Hin Hfatal).
        - subst ev'. exact (failed_call_not_fatal _ _ Hf Hfatal). }
    split; [now exists b|].
    assert (Hassoc :
              EvCreateMultipartUpload (inr u') :: EvPopen (inr q) :: body
              ++ [ev'; EvPopenExit q; EvAbortMultipartUpload u' (Some b);
                  EvTerminate q; EvWait q]
              = (EvCreateMultipartUpload (inr u') :: EvPopen (inr q) :: body
                 ++ [ev'; EvPopenExit q])
                ++ EvAbortMultipartUpload u' (Some b)
                :: [EvTerminate q; EvWait q])
      by (simpl; now rewrite <- app_assoc).
    rewrite Hassoc in Hsplit.
    destruct (split_unique _ fatal_call _ _ _ _ _ _ Hsplit)
      as (_ & _ & <-).
    + constructor; [simpl; tauto|]. constructor; [simpl; tauto|].
      apply Forall_app. split.
      * apply Forall_forall. intros e Hin' Hfa.
        apply (proj1 (Forall_forall _ _) Hq) in Hin'.
        exact (quiet_not_fatal _ _ _ Hin' Hfa).
      * constructor; [exact (failed_call_not_fatal _ _ Hf)|].
        constructor; [simpl; tauto|constructor].
    + repeat constructor; simpl; tauto.
    + exact Hfatal.
    + repeat constructor.
  - exfalso. in_cases Hin; try (subst ev; contradiction).
    apply (proj1 (Forall_forall _ _) Hq) in Hin.
    exact (quiet_not_fatal _ _ _ Hin Hfatal).
Qed.

Lemma upload_loop_fatal t script :
  forall process s pre ev post,
    events (upload_loop t script process s) = pre ++ ev :: post ->
    fatal_call ev ->
    (exists b, value (upload_loop t script process s) = Raise (Boto b)) /\
    Forall winding_down post.
Proof.
  induction script as [|[|se] rest IH]; intros process s pre ev post.
  - cbn [upload_loop]. rewrite bind_get_is_on.
    destruct (_attr_is_on s); simpl; intros H; now destruct pre.
  - rewrite upload_loop_stop. simpl. intros H Hfatal. exfalso.
    assert (Hin : In ev (stop_events (_attr_is_on s)))
      by (rewrite H; apply in_elt).
    apply stop_events_In in Hin. destruct Hin; subst ev; contradiction.
  - destruct (_attr_is_on s) eqn:Hon.
    2:{ rewrite upload_loop_off by exact Hon. simpl. intros H.
        now destruct pre. }
    rewrite upload_loop_step by exact Hon.
    pose proof (segment_fatal t se process s) as Hseg.
    unfold bind.
    destruct (segment t se process s) as [evs f [q| |]];
      cbn [events value] in Hseg.
    + pose proof (IH q f) as IH'.
      destruct (upload_loop t rest q f) as [evs' f' v'].
      cbn [prepend events value] in IH' |- *.
      intros Hsplit Hfatal.
      destruct (app_split _ _ _ _ _ _ Hsplit)
        as [(post1 & Hevs & _)|(pre2 & _ & Hevs')].
      * destruct (Hseg _ _ _ Hevs Hfatal) as ((b & Hb) & _). discriminate.
      * exact (IH' _ _ _ Hevs' Hfatal).
    + cbn [events value]. intros Hsplit Hfatal.
      destruct (Hseg _ _ _ Hsplit Hfatal) as ((b & Hb) & Hpost).
      injection Hb as ->. split; [now exists b|exact Hpost].
    + cbn [events value]. intros Hsplit Hfatal.
      destruct (Hseg _ _ _ Hsplit Hfatal) as ((b & Hb) & _). discriminate.
Qed.

Lemma upload_to_s3_sync_fatal t w s pre ev post :
  events (upload_to_s3_sync t w s) = pre ++ ev :: post -> fatal_call ev ->
  (exists b, value (upload_to_s3_sync t w s) = Raise (Boto b)) /\
  Forall winding_down post.
Proof.
  destruct (w_client w) as [e|] eqn:Hc.
  - rewrite (upload_to_s3_sync_client_fails _ _ _ _ Hc). simpl.
    intros Hsplit _. destruct pre as [|e0 [|e1 pre]]; try discriminate.
    injection Hsplit as <- <-. split; [now exists e|constructor].
  - rewrite (upload_to_s3_sync_client_ok _ _ _ Hc).
    pose proof (upload_loop_fatal t (w_script w) None s) as Hloop.
    destruct (upload_loop t (w_script w) None s) as [evs f v].
    cbn [prepend events value app] in Hloop |- *.
    intros Hsplit Hfatal. destruct pre as [|e0 pre].
    + injection Hsplit as <- _. contradiction.
    + injection Hsplit as _ Hsplit. exact (Hloop _ _ _ Hsplit Hfatal).
Qed.

(** X5: the failures of the store that no [except] clause of the recording
    job takes (the making of the client, the creation of an upload, and an
    abort, made inside an [except] clause) end the run: after such a call
    the run makes no further call to the store and launches no capture
    process, it only reaps the process at hand and switches the entity off;
    and [async_turn_on] swallows the error and returns. *)
Theorem fatal_storage_failure_ends_the_run t w s pre ev post :
  _attr_is_on s = false ->
  events (async_turn_on t w s) = pre ++ ev :: post -> fatal_call ev ->
  value (async_turn_on t w s) = Ok tt /\
  _attr_is_on (final (async_turn_on t w s)) = false /\
  Forall winding_down post.
Proof.
  intros Hon. rewrite async_turn_on_off_entity by exact Hon.
  pose proof (upload_to_s3_sync_fatal t w {| _attr_is_on := true |}) as Hjob.
  destruct (upload_to_s3_sync t w {| _attr_is_on := true |}) as [evs f v].
  cbn [events value] in Hjob. intros Hsplit Hfatal.
  assert (Hin : exists pre' post' tl,
            evs = pre' ++ ev :: post' /\ post = post' ++ tl /\
            Forall winding_down tl).
  { unfold start_outcome in Hsplit. cbn [events value final] in Hsplit.
    assert (Hcut : exists tl,
              [EvSetIsOn true; EvScheduleUpdate true] ++ evs ++ tl
              = pre ++ ev :: post /\ Forall winding_down tl).
    { destruct v as [a|e|]; cbn [events] in Hsplit.
      - eexists. split; [exact Hsplit|apply stop_events_winding_down].
      - eexists. split; [exact Hsplit|apply stop_events_winding_down].
      - exists []. rewrite app_nil_r. split; [exact Hsplit|constructor]. }
    destruct Hcut as (tl & Hcut & Htl).
    destruct pre as [|e0 [|e1 pre]];
      try (injection Hcut as <- _; contradiction);
      try (injection Hcut as _ <- _; contradiction).
    injection Hcut as _ _ Hcut.
    destruct (app_split _ _ _ _ _ _ Hcut)
      as [(post1 & Hevs & Hpost)|(pre2 & _ & Htl')].
    - now exists pre, post1, tl.
    - exfalso. rewrite Htl' in Htl. apply Forall_app in Htl.
      destruct Htl as (_ & Htl). inversion Htl as [|? ? Hw _]; subst.
      destruct ev as [[|]|[|]| | | | | | | | | |]; simpl in *; tauto. }
  destruct Hin as (pre' & post' & tl & Hevs & -> & Htl).
  destruct (Hjob _ _ _ Hevs Hfatal) as ((b & ->) & Hpost).
  unfold start_outcome. cbn [events value final start_handler _attr_is_on].
  split; [reflexivity|]. split; [reflexivity|].
  apply Forall_app. now split.
Qed.

(** X5 on a store that refuses a part and then the abort: the second
    segment of the script is never started. *)
Lemma fatal_storage_failure_ends_the_run_witness :
  _attr_is_on idle = false /\
  events (async_turn_on THRESHOLD w_abort_fails idle)
  = abort_fails_before
    ++ EvAbortMultipartUpload "upload-1"%string (Some ClientError)
    :: abort_fails_after /\
  fatal_call (EvAbortMultipartUpload "upload-1"%string (Some ClientError)) /\
  value (async_turn_on THRESHOLD w_abort_fails idle) = Ok tt /\
  _attr_is_on (final (async_turn_on THRESHOLD w_abort_fails idle)) = false /\
  Forall winding_down abort_fails_after.
Proof.
  split; [reflexivity|]. split; [reflexivity|]. split; [exact I|].
  exact (fatal_storage_failure_ends_the_run THRESHOLD w_abort_fails idle
           abort_fails_before
           (EvAbortMultipartUpload "upload-1"%string (Some ClientError))
           abort_fails_after eq_refl eq_refl I).
Defined.

(** * The end of a stream *)

(** X6: when the stream of a capture process comes to its end by itself
    (reads that brought data, then the empty read), with every part
    acknowledged and the completion too, the pass sends what is left in the
    buffer, completes the upload and reaps the process, the flag stays on,
    and the outer loop goes on to the next pass: the next thing it does is
    to create the upload of the next segment. *)
Theorem end_of_stream_opens_next_segment t se se' rest process s u p data :
  _attr_is_on s = true ->
  se_create se = inr u -> se_popen se = inr p ->
  se_reads se = map RData data ->
  Forall (fun c => c <> []) data ->
  uploads_ok se -> se_complete se = None ->
  exists body flush parts tl,
    events (upload_loop t (WSegment se :: WSegment se' :: rest) process s)
    = EvCreateMultipartUpload (inr u) :: EvPopen (inr p) :: body
      ++ [EvRead p (inr [])] ++ flush
      ++ [EvCompleteMultipartUpload u parts None;
          EvPopenExit p; EvTerminate p; EvWait p]
      ++ EvCreateMultipartUpload (se_create se') :: tl /\
    Forall (data_event p u) body /\
    (flush = [] \/
     exists pn b tg, b <> [] /\ flush = [EvUploadPart u pn b (inr tg)]) /\
    concat (bodies body) ++ concat (bodies flush) = concat data.
Proof.
  intros Hon Hc Hp Hreads Hne Hok Hcomp.
  assert (Hreads' : se_reads se = map RData data ++ [])
    by now rewrite app_nil_r.
  destruct (buffer_block_data t se p u s data [] Hon Hreads' I Hne Hok)
    as (body & flush & st' & Hblock & Hbody & Hcat & _ & Hflush).
  pose proof (segment_completes t se process s u p _ _ _ Hc Hp Hblock Hcomp)
    as Hseg.
  destruct (segment_first_event t se' (Some p) {| _attr_is_on := true |})
    as (tl & Htl).
  exists body, flush, (ls_parts st'),
    (tl ++ loop_rest t rest (segment t se' (Some p) {| _attr_is_on := true |})).
  split; [|split; [exact Hbody|split; [exact Hflush|exact Hcat]]].
  rewrite upload_loop_segment by exact Hon.
  unfold loop_rest at 1. rewrite Hseg. cbn [events value final exit_flag].
  rewrite upload_loop_segment by reflexivity. rewrite Htl.
  cbn [exit_events]. repeat (rewrite <- app_assoc; cbn [app]).
  reflexivity.
Qed.

(** X6 on a stream of two bytes that ends, followed by a second segment. *)
Lemma end_of_stream_opens_next_segment_witness :
  _attr_is_on active = true /\
  se_reads se_ended = map RData [[x01; x02]] /\
  Forall (fun c : list byte => c <> []) [[x01; x02]] /\
  uploads_ok se_ended /\
  exists body flush parts tl,
    events (upload_loop THRESHOLD [WSegment se_ended; WSegment se_stopped]
              None active)
    = EvCreateMultipartUpload (inr "upload-1"%string) :: EvPopen (inr 101%N)
      :: body
      ++ [EvRead 101%N (inr [])] ++ flush
      ++ [EvCompleteMultipartUpload "upload-1"%string parts None;
          EvPopenExit 101%N; EvTerminate 101%N; EvWait 101%N]
      ++ EvCreateMultipartUpload (se_create se_stopped) :: tl /\
    Forall (data_event 101%N "upload-1"%string) body /\
    (flush = [] \/
     exists pn b tg,
       b <> [] /\ flush = [EvUploadPart "upload-1"%string pn b (inr tg)]) /\
    concat (bodies body) ++ concat (bodies flush) = concat [[x01; x02]].
Proof.
  assert (Hne : Forall (fun c : list byte => c <> []) [[x01; x02]])
    by (repeat constructor; discriminate).
  assert (Hok : uploads_ok se_ended)
    by (intros pn; exists "etag"%string; reflexivity).
  split; [reflexivity|]. split; [reflexivity|].
  split; [exact Hne|]. split; [exact Hok|].
  exact (end_of_stream_opens_next_segment THRESHOLD se_ended se_stopped []
           None active "upload-1"%string 101%N [[x01; x02]]
           eq_refl eq_refl eq_refl eq_refl Hne Hok eq_refl).
Defined.

(** * Properties of the list of events that every run has *)

Lemma events_prepend A evs (r : outcome A) :
  events (prepend evs r) = evs ++ events r.
Proof. now destruct r. Qed.

(** A write of the flag and the report that follows it. *)
Lemma bind_set_is_on_schedule B b (k : M B) s :
  (set_is_on b ;; schedule_update_ha_state ;; k) s
  = prepend [EvSetIsOn b; EvScheduleUpdate b] (k {| _attr_is_on := b |}).
Proof.
  unfold bind, set_is_on, schedule_update_ha_state, get_is_on, emit. simpl.
  now destruct (k {| _attr_is_on := b |}).
Qed.

(** A property of lists of events that holds of the empty list and of the
    concatenation of two lists that have it, holds of the events of every
    run as soon as it holds of each single call to the outside and of a
    write of the flag with the report that follows it. *)
Section Traces.

Variable P : list event -> Prop.
Hypothesis P_nil : P [].
Hypothesis P_app : forall evs1 evs2, P evs1 -> P evs2 -> P (evs1 ++ evs2).
Hypothesis P_plain : forall e, plain e -> P [e].
Hypothesis P_flag : forall b, P [EvSetIsOn b; EvScheduleUpdate b].

Lemma traces_bind A B (m : M A) (k : A -> M B) :
  (forall s, P (events (m s))) -> (forall a s, P (events (k a s))) ->
  forall s, P (events (bind m k s)).
Proof.
  intros Hm Hk s. specialize (Hm s). unfold bind.
  destruct (m s) as [evs f [a|e|]]; simpl in *; auto.
  specialize (Hk a f). destruct (k a f) as [evs' f' v']; simpl in *. auto.
Qed.

Lemma traces_try_except A (m : M A) h :
  (forall s, P (events (m s))) ->
  (forall e k, h e = Some k -> forall s, P (events (k s))) ->
  forall s, P (events (try_except m h s)).
Proof.
  intros Hm Hh s. specialize (Hm s). unfold try_except.
  destruct (m s) as [evs f [a|e|]]; simpl in *; auto.
  destruct (h e) as [k|] eqn:Ek; simpl; auto.
  specialize (Hh _ _ Ek f). destruct (k f) as [evs' f' v']; simpl in *. auto.
Qed.

Lemma traces_finally A (m : M A) k :
  (forall s, P (events (m s))) -> (forall s, P (events (k s))) ->
  forall s, P (events (finally m k s)).
Proof.
  intros Hm Hk s. specialize (Hm s). unfold finally.
  destruct (m s) as [evs f [a|e|]]; simpl in *; auto;
    specialize (Hk f); destruct (k f) as [evs' f' v']; simpl in *; auto.
Qed.

Lemma traces_emit e : plain e -> forall s, P (events (emit e s)).
Proof. intros He s. simpl. auto. Qed.

Lemma traces_stop s : P (events (stop_stream_to_s3 s)).
Proof. rewrite stop_stream_to_s3_eq. simpl. destruct (_attr_is_on s); simpl; auto. Qed.

Lemma traces_lift_boto A (r : boto_exn + A) s : P (events (lift_boto r s)).
Proof. destruct r; simpl; auto. Qed.

Lemma traces_lift_proc A (r : proc_exn + A) s : P (events (lift_proc r s)).
Proof. destruct r; simpl; auto. Qed.

Lemma traces_lift_boto_unit r s : P (events (lift_boto_unit r s)).
Proof. destruct r; simpl; auto. Qed.

Lemma traces_upload_part se u pn b s : P (events (upload_part se u pn b s)).
Proof.
  unfold upload_part, read_to_end. simpl.
  apply traces_bind; [apply traces_emit; exact I|]. intros _.
  apply traces_bind; [apply traces_lift_boto|]. intros tg s'. simpl. auto.
Qed.

Lemma traces_loop_body t se u chunk st s :
  P (events (loop_body t se u chunk st s)).
Proof.
  unfold loop_body. destruct (t <? _)%N; [|simpl; auto].
  apply traces_bind; [apply traces_upload_part|].
  intros [tg b] s'. simpl. auto.
Qed.

Lemma traces_stdout_read p r s : P (events (stdout_read p r s)).
Proof.
  unfold stdout_read.
  apply traces_bind; [apply traces_emit; exact I|]. intros _.
  apply traces_lift_proc.
Qed.

Lemma traces_read_loop t se p u reads :
  forall st s, P (events (read_loop t se p u reads st s)).
Proof.
  induction reads as [|[|c|e] rest IH]; intros st s; cbn [read_loop].
  - rewrite bind_get_is_on. destruct (_attr_is_on s); [|simpl; auto].
    apply traces_bind; [apply traces_stdout_read|]. intros ? ?. simpl. auto.
  - apply traces_bind; [apply traces_stop|]. intros _. apply IH.
  - rewrite bind_get_is_on. destruct (_attr_is_on s); [|simpl; auto].
    apply traces_bind; [apply traces_stdout_read|]. intros c' s'.
    destruct (is_empty c'); [simpl; auto|].
    apply traces_bind; [apply traces_loop_body|]. intros st'. apply IH.
  - rewrite bind_get_is_on. destruct (_attr_is_on s); [|simpl; auto].
    apply traces_bind; [apply traces_stdout_read|]. intros ? ?. simpl. auto.
Qed.

Lemma traces_flush_remainder se u st s :
  P (events (flush_remainder se u st s)).
Proof.
  unfold flush_remainder. destruct (0 <? _)%N; [|simpl; auto].
  apply traces_bind; [apply traces_upload_part|].
  intros [tg b] s'. simpl. auto.
Qed.

Lemma traces_segment t se process s : P (events (segment t se process s)).
Proof.
  unfold segment, create_multipart_upload, popen, popen_block, buffer_block,
    complete_multipart_upload.
  apply traces_bind.
  { apply traces_bind; [apply traces_emit; exact I|]. intros _.
    apply traces_lift_boto. }
  intros u. apply traces_bind; [|intros ? ?; simpl; auto].
  apply traces_finally.
  - apply traces_try_except.
    + apply traces_bind.
      { apply traces_bind; [apply traces_emit; exact I|]. intros _.
        apply traces_lift_proc. }
      intros p. apply traces_finally; [|apply traces_emit; exact I].
      apply traces_bind.
      { apply traces_bind; [apply traces_read_loop|]. intros st.
        apply traces_flush_remainder. }
      intros st. apply traces_bind; [apply traces_emit; exact I|]. intros _.
      apply traces_lift_boto_unit.
    + intros e k. unfold segment_handler, abort_multipart_upload.
      destruct e; intros [= <-]; [|apply traces_stop].
      apply traces_bind; [apply traces_emit; exact I|]. intros _.
      apply traces_lift_boto_unit.
  - unfold terminate_and_wait.
    destruct (bound_process se process); [|simpl; auto].
    apply traces_bind; [apply traces_emit; exact I|].
    intros _. apply traces_emit. exact I.
Qed.

Lemma traces_upload_loop t script :
  forall process s, P (events (upload_loop t script process s)).
Proof.
  induction script as [|[|se] rest IH]; intros process s; cbn [upload_loop].
  - rewrite bind_get_is_on. destruct (_attr_is_on s); simpl; auto.
  - apply traces_bind; [apply traces_stop|]. intros _. apply IH.
  - rewrite bind_get_is_on. destruct (_attr_is_on s); [|simpl; auto].
    apply traces_bind; [apply traces_segment|]. intros q. apply IH.
Qed.

Lemma traces_async_turn_on t w s : P (events (async_turn_on t w s)).
Proof.
  unfold async_turn_on, start_stream_to_s3.
  rewrite bind_get_is_on. destruct (_attr_is_on s) eqn:Hon; [simpl; auto|].
  cbn [negb]. rewrite bind_get_is_on, Hon. cbn [negb].
  rewrite bind_set_is_on_schedule, events_prepend.
  apply P_app; [apply P_flag|].
  apply traces_finally; [|apply traces_stop].
  apply traces_try_except.
  - unfold upload_to_s3_sync, boto3_client.
    apply traces_bind; [|intros _; apply traces_upload_loop].
    apply traces_bind; [apply traces_emit; exact I|]. intros _.
    apply traces_lift_boto_unit.
  - intros e k. unfold start_handler.
    destruct e as [| [| |]| | |]; intros [= <-]; intros s'; simpl; auto.
Qed.

End Traces.

(** X7: in every run of [async_turn_on], and in [async_turn_off], every
    write of the on flag is followed at once by a
    [schedule_update_ha_state], which reports the value just written; no
    report is made without a write before it. *)
Theorem flag_changes_are_published t w s :
  published (events (async_turn_on t w s)) /\
  published (events (async_turn_off s)).
Proof.
  assert (Happ : forall evs1 evs2,
            published evs1 -> published evs2 -> published (evs1 ++ evs2)).
  { intros evs1 evs2 H1 H2. induction H1; simpl; auto.
    - now constructor.
    - now apply PublishedPlain. }
  split.
  - apply traces_async_turn_on.
    + constructor.
    + exact Happ.
    + intros e He. apply PublishedPlain; [exact He|constructor].
    + intros b. repeat constructor.
  - unfold async_turn_off. rewrite stop_stream_to_s3_eq. simpl.
    destruct (_attr_is_on s); repeat constructor.
Qed.

(** * The command line of the capture process *)

Lemma split_not_nil s sep : split s sep <> [].
Proof.
  destruct s as [|c s]; simpl; [discriminate|].
  destruct (Ascii.eqb c sep); [discriminate|].
  destruct (split s sep); discriminate.
Qed.

(** Cutting at a separator cuts the pieces on its two sides apart. *)
Lemma split_app_sep a b sep :
  split (a ++ String sep b) sep = split a sep ++ split b sep.
Proof.
  induction a as [|c a IH]; simpl.
  - now rewrite Ascii.eqb_refl.
  - destruct (Ascii.eqb c sep); [now rewrite IH|].
    rewrite IH. pose proof (split_not_nil a sep) as Hne.
    destruct (split a sep); [congruence|reflexivity].
Qed.

(** A string is one piece exactly when the separator is not in it. *)
Lemma split_one_piece s sep :
  split s sep = [s] <-> ~ In sep (list_ascii_of_string s).
Proof.
  induction s as [|c s IH]; simpl.
  - split; [intros _ []|reflexivity].
  - destruct (Ascii.eqb c sep) eqn:E.
    + apply Ascii.eqb_eq in E. subst c. split; [discriminate|].
      intros H. exfalso. apply H. now left.
    + apply Ascii.eqb_neq in E.
      pose proof (split_not_nil s sep) as Hne.
      destruct (split s sep) as [|w ws]; [congruence|].
      split.
      * intros H. injection H as -> ->. intros [H|H]; [congruence|].
        now apply IH.
      * intros H. assert (Hs : [w] ++ ws = [s]) by (apply IH; tauto).
        injection Hs as -> ->. reflexivity.
Qed.

(** X9: the arguments that [subprocess.Popen] gets are the fixed options of
    the command line with, in the place of [STREAM_LENGTH] and of the
    stream url, the pieces that [split(" ")] cuts them into: a url reaches
    ffmpeg as the one argument after [-i] exactly when it has no space in
    it, and each space in it makes one argument more. *)
Theorem popen_args_of_url STREAM_LENGTH str_of name url k s r b :
  let self := switch.__init__ STREAM_LENGTH str_of name url k s r b in
  switch.popen_args self
  = ["ffmpeg"; "-hide_banner"; "-y"; "-loglevel"; "error"; "-rtsp_transport";
     "tcp"; "-t"]%string
    ++ split STREAM_LENGTH " "
    ++ ["-use_wallclock_as_timestamps"; "1"; "-i"]%string
    ++ split (switch.py_format str_of url) " "
    ++ ["-vcodec"; "copy"; "-acodec"; "copy"; "-f"; "mp4"; "-movflags";
        "frag_keyframe+empty_moov"; "pipe:1"]%string /\
  (split (switch.py_format str_of url) " " = [switch.py_format str_of url]
   <-> ~ In " "%char (list_ascii_of_string (switch.py_format str_of url))).
Proof.
  intros self. split; [|apply split_one_piece].
  unfold switch.popen_args, self, switch.__init__.
  cbn [SwitchRecordCameraEntity.ffmpeg_command].
  change (split
            ("ffmpeg -hide_banner -y -loglevel error -rtsp_transport tcp -t"
             ++ String " "
                  (STREAM_LENGTH
                   ++ String " "
                        ("-use_wallclock_as_timestamps 1 -i"
                         ++ String " "
                              (switch.py_format str_of url
                               ++ String " "
                                    "-vcodec copy -acodec copy -f mp4 -movflags frag_keyframe+empty_moov pipe:1"))))
            " "
          = ["ffmpeg"; "-hide_banner"; "-y"; "-loglevel"; "error";
             "-rtsp_transport"; "tcp"; "-t"]%string
            ++ split STREAM_LENGTH " "
            ++ ["-use_wallclock_as_timestamps"; "1"; "-i"]%string
            ++ split (switch.py_format str_of url) " "
            ++ ["-vcodec"; "copy"; "-acodec"; "copy"; "-f"; "mp4"; "-movflags";
                "frag_keyframe+empty_moov"; "pipe:1"]%string).
  rewrite !split_app_sep. reflexivity.
Qed.

(** * The key of the object of a segment *)

Lemma digit_inj a b : (a < 10)%N -> (b < 10)%N -> digit a = digit b -> a = b.
Proof.
  intros Ha Hb H. unfold digit in H.
  apply (f_equal N_of_ascii) in H.
  rewrite !N_ascii_embedding in H by lia. lia.
Qed.

Lemma append_inv_tail (a b c : string) :
  (a ++ c)%string = (b ++ c)%string -> a = b.
Proof.
  intros H.
  apply (f_equal list_ascii_of_string) in H.
  assert (Happ : forall x y,
            list_ascii_of_string (x ++ y)
            = list_ascii_of_string x ++ list_ascii_of_string y).
  { intros x y. induction x as [|ch x IH]; simpl; [reflexivity|].
    now rewrite IH. }
  rewrite !Happ in H. apply app_inv_tail in H.
  apply (f_equal string_of_list_ascii) in H.
  now rewrite !string_of_list_ascii_of_string in H.
Qed.

Lemma zero_padded_2_inj a b :
  (a < 100)%N -> (b < 100)%N ->
  digit ((a / 10) mod 10) = digit ((b / 10) mod 10) ->
  digit (a mod 10) = digit (b mod 10) -> a = b.
Proof.
  intros Ha Hb H1 H0.
  apply digit_inj in H1; [|apply N.mod_lt; lia..].
  apply digit_inj in H0; [|apply N.mod_lt; lia..].
  assert (Ha1 : (a / 10 < 10)%N) by (apply N.Div0.div_lt_upper_bound; lia).
  assert (Hb1 : (b / 10 < 10)%N) by (apply N.Div0.div_lt_upper_bound; lia).
  rewrite !N.mod_small in H1 by assumption.
  pose proof (N.div_mod a 10 ltac:(lia)). pose proof (N.div_mod b 10 ltac:(lia)).
  lia.
Qed.

Lemma zero_padded_4_inj a b :
  (a < 10000)%N -> (b < 10000)%N ->
  digit ((a / 10 / 10 / 10) mod 10) = digit ((b / 10 / 10 / 10) mod 10) ->
  digit ((a / 10 / 10) mod 10) = digit ((b / 10 / 10) mod 10) ->
  digit ((a / 10) mod 10) = digit ((b / 10) mod 10) ->
  digit (a mod 10) = digit (b mod 10) -> a = b.
Proof.
  intros Ha Hb H3 H2 H1 H0.
  apply digit_inj in H3; [|apply N.mod_lt; lia..].
  apply digit_inj in H2; [|apply N.mod_lt; lia..].
  apply digit_inj in H1; [|apply N.mod_lt; lia..].
  apply digit_inj in H0; [|apply N.mod_lt; lia..].
  assert (Ha1 : (a / 10 / 10 / 10 < 10)%N)
    by (do 3 apply N.Div0.div_lt_upper_bound; lia).
  assert (Hb1 : (b / 10 / 10 / 10 < 10)%N)
    by (do 3 apply N.Div0.div_lt_upper_bound; lia).
  rewrite !(N.mod_small (_ / 10 / 10 / 10)) in H3 by assumption.
  pose proof (N.div_mod a 10 ltac:(lia)).
  pose proof (N.div_mod b 10 ltac:(lia)).
  pose proof (N.div_mod (a / 10) 10 ltac:(lia)).
  pose proof (N.div_mod (b / 10) 10 ltac:(lia)).
  pose proof (N.div_mod (a / 10 / 10) 10 ltac:(lia)).
  pose proof (N.div_mod (b / 10 / 10) 10 ltac:(lia)).
  lia.
Qed.

(** X10: the key of the object of a segment is made of the moment at which
    the segment starts, to the second, and of the name of the stream: for
    moments with a year of four digits, two keys are the same exactly when
    the two segments start in the same second and the names of the streams
    are the same text.  Two segments of one stream that start within one
    second are written to the same object. *)
Theorem output_key_same_iff str_of self1 self2 now1 now2 :
  in_range now1 -> in_range now2 ->
  (switch.output_key str_of self1 now1 = switch.output_key str_of self2 now2
   <->
   same_second now1 now2 /\
   switch.py_format str_of (SwitchRecordCameraEntity.stream_name self1)
   = switch.py_format str_of (SwitchRecordCameraEntity.stream_name self2)).
Proof.
  intros (Hy1 & Hm1 & Hd1 & HH1 & HM1 & HS1 & _)
         (Hy2 & Hm2 & Hd2 & HH2 & HM2 & HS2 & _).
  unfold switch.output_key. cbn [strftime directive zero_padded append].
  split.
  - intros H. injection H. intros.
    split; [repeat split|eapply append_inv_tail; eassumption];
      first [ apply zero_padded_4_inj; first [lia|assumption]
            | apply zero_padded_2_inj; first [lia|assumption] ].
  - intros ((Hy & Hm & Hd & Hh & Hmi & Hs) & Hn).
    now rewrite Hy, Hm, Hd, Hh, Hmi, Hs, Hn.
Qed.

(** The key of a segment of [cam_entity]. *)
Example output_key_cam :
  switch.output_key (fun _ => EmptyString) cam_entity half_past_ten
  = "2024/05/17/20240517103005_cam.mp4"%string.
Proof. reflexivity. Qed.

(** The arguments of the capture process of [cam_entity]. *)
Example popen_args_cam :
  switch.popen_args cam_entity
  = ["ffmpeg"; "-hide_banner"; "-y"; "-loglevel"; "error"; "-rtsp_transport";
     "tcp"; "-t"; "60"; "-use_wallclock_as_timestamps"; "1"; "-i";
     "rtsp://camera.local/live"; "-vcodec"; "copy"; "-acodec"; "copy"; "-f";
     "mp4"; "-movflags"; "frag_keyframe+empty_moov"; "pipe:1"]%string.
Proof. reflexivity. Qed.

(** X10 on two moments of one second: the two segments get one key. *)
Lemma output_key_same_iff_witness :
  in_range half_past_ten /\ in_range half_past_ten_later /\
  (switch.output_key (fun _ => EmptyString) cam_entity half_past_ten
   = switch.output_key (fun _ => EmptyString) cam_entity half_past_ten_later
   <->
   same_second half_past_ten half_past_ten_later /\
   switch.py_format (fun _ => EmptyString)
     (SwitchRecordCameraEntity.stream_name cam_entity)
   = switch.py_format (fun _ => EmptyString)
       (SwitchRecordCameraEntity.stream_name cam_entity)).
Proof.
  assert (H1 : in_range half_past_ten) by (unfold in_range; simpl; lia).
  assert (H2 : in_range half_past_ten_later) by (unfold in_range; simpl; lia).
  split; [exact H1|]. split; [exact H2|].
  exact (output_key_same_iff (fun _ => EmptyString) cam_entity cam_entity
           half_past_ten half_past_ten_later H1 H2).
Defined.

(** * [hass.data] *)

Lemma getitem_setitem V (d : dict V) k v : getitem (setitem d k v) k = inr v.
Proof.
  induction d as [|[k' v'] d IH]; simpl.
  - now rewrite String.eqb_refl.
  - destruct (String.eqb k' k) eqn:E; simpl; [now rewrite String.eqb_refl|].
    now rewrite E.
Qed.

Lemma getitem_setitem_other V (d : dict V) k k' v :
  k' <> k -> getitem (setitem d k v) k' = getitem d k'.
Proof.
  intros Hne. induction d as [|[k0 v0] d IH]; simpl.
  - destruct (String.eqb k k') eqn:E; [|reflexivity].
    apply String.eqb_eq in E. congruence.
  - destruct (String.eqb k0 k) eqn:E; simpl.
    + apply String.eqb_eq in E. subst k0.
      destruct (String.eqb k k') eqn:E'; [|reflexivity].
      apply String.eqb_eq in E'. congruence.
    + now rewrite IH.
Qed.

Lemma getitem_delitem V (d : dict V) k :
  getitem (delitem d k) k = inl (KeyError k).
Proof.
  induction d as [|[k' v'] d IH]; simpl; [reflexivity|].
  destruct (String.eqb k' k) eqn:E; simpl; [exact IH|]. now rewrite E.
Qed.

Lemma getitem_delitem_other V (d : dict V) k k' :
  k' <> k -> getitem (delitem d k) k' = getitem d k'.
Proof.
  intros Hne. induction d as [|[k0 v0] d IH]; simpl; [reflexivity|].
  destruct (String.eqb k0 k) eqn:E; simpl.
  - apply String.eqb_eq in E. subst k0.
    destruct (String.eqb k k') eqn:E'; [|exact IH].
    apply String.eqb_eq in E'. congruence.
  - now rewrite IH.
Qed.

Lemma getitem_KeyError V (d : dict V) k e : getitem d k = inl e -> e = KeyError k.
Proof.
  induction d as [|[k' v'] d IH]; simpl; [congruence|].
  destruct (String.eqb k' k); [discriminate|exact IH].
Qed.

(** After [setdefault] the key is there; what was there is kept, and no
    other key is touched. *)
Lemma getitem_setdefault V (d : dict V) k v :
  getitem (setdefault d k v) k
  = inr match getitem d k with
        | inr v' => v'
        | inl _ => v
        end /\
  forall k', k' <> k -> getitem (setdefault d k v) k' = getitem d k'.
Proof.
  unfold setdefault, contains.
  destruct (getitem d k) as [e|v'] eqn:E.
  - split; [apply getitem_setitem|].
    intros k' Hne. now apply getitem_setitem_other.
  - split; [exact E|reflexivity].
Qed.

(** * __init__.py: the set-up and the unloading of an entry *)

(** X11: [async_setup_entry] of the integration raises nothing by itself.
    It forwards the set-up to the platforms with
    [hass.data[DOMAIN][entry_id]] set to the dict that holds the
    configuration of the entry and nothing else, whatever was kept under
    that entry id before; the other entries of the domain and the other
    domains are as they were.  It returns [True] when the forwarding
    returns, and raises what the forwarding raises. *)
Theorem setup_entry_stores_configuration DOMAIN forward hass entry :
  exists prepared by_entry,
    stream_recorder_to_s3.async_setup_entry DOMAIN forward hass entry
    = (fst (forward prepared),
       match snd (forward prepared) with
       | inl e => inl e
       | inr _ => inr true
       end) /\
    getitem prepared DOMAIN = inr by_entry /\
    getitem by_entry (ConfigEntry.entry_id entry)
    = inr [("configuration"%string, Configuration (ConfigEntry.data entry))] /\
    (forall id, id <> ConfigEntry.entry_id entry ->
       getitem by_entry id
       = match getitem hass DOMAIN with
         | inr before => getitem before id
         | inl _ => inl (KeyError id)
         end) /\
    (forall domain, domain <> DOMAIN ->
       getitem prepared domain = getitem hass domain).
Proof.
  unfold stream_recorder_to_s3.async_setup_entry.
  destruct (getitem_setdefault _ hass DOMAIN []) as (Hdom & Hother).
  rewrite Hdom.
  set (before := match getitem hass DOMAIN with
                 | inr v' => v'
                 | inl _ => []
                 end) in *.
  set (by_entry := setitem before (ConfigEntry.entry_id entry)
                     [("configuration"%string,
                       Configuration (ConfigEntry.data entry))]).
  set (prepared := setitem (setdefault hass DOMAIN []) DOMAIN by_entry).
  exists prepared, by_entry.
  split.
  { unfold prepared, by_entry, before.
    now destruct (forward _) as [h [e|[]]]. }
  split; [apply getitem_setitem|].
  split; [apply getitem_setitem|].
  split.
  - intros id Hne. unfold by_entry.
    rewrite getitem_setitem_other by exact Hne. unfold before.
    now destruct (getitem hass DOMAIN).
  - intros domain Hne. unfold prepared.
    rewrite getitem_setitem_other by exact Hne. now apply Hother.
Qed.

(** X12: when the forwarding of the unloading returns, whatever it returns
    (the platforms unloaded or not), [async_unload_entry] drops what is kept
    under the entry id and returns [True]; the other entries of the domain
    and the other domains are as the forwarding left them.  When
    [hass.data] has no dict for the domain, it raises [KeyError]. *)
Theorem unload_entry_forgets_the_entry DOMAIN forward hass entry hass' ok :
  forward hass = (hass', inr ok) ->
  match getitem hass' DOMAIN with
  | inl _ =>
      stream_recorder_to_s3.async_unload_entry DOMAIN forward hass entry
      = (hass', inl (KeyError DOMAIN))
  | inr by_entry =>
      exists unloaded by_entry',
        stream_recorder_to_s3.async_unload_entry DOMAIN forward hass entry
        = (unloaded, inr true) /\
        getitem unloaded DOMAIN = inr by_entry' /\
        getitem by_entry' (ConfigEntry.entry_id entry)
        = inl (KeyError (ConfigEntry.entry_id entry)) /\
        (forall id, id <> ConfigEntry.entry_id entry ->
           getitem by_entry' id = getitem by_entry id) /\
        (forall domain, domain <> DOMAIN ->
           getitem unloaded domain = getitem hass' domain)
  end.
Proof.
  intros Hf. unfold stream_recorder_to_s3.async_unload_entry. rewrite Hf.
  destruct (getitem hass' DOMAIN) as [e|by_entry] eqn:Hd.
  { now rewrite (getitem_KeyError _ _ _ _ Hd). }
  unfold contains.
  destruct (getitem by_entry (ConfigEntry.entry_id entry)) as [e|kept] eqn:Hk.
  - exists hass', by_entry. split; [reflexivity|]. split; [exact Hd|].
    split; [rewrite Hk; f_equal; exact (getitem_KeyError _ _ _ _ Hk)|].
    now split.
  - eexists _, _. split; [reflexivity|].
    split; [apply getitem_setitem|].
    split; [apply getitem_delitem|].
    split.
    + intros id Hne. now apply getitem_delitem_other.
    + intros domain Hne. now apply getitem_setitem_other.
Qed.

(** X12 on two entries, with platforms that do not unload: the first entry
    is dropped all the same. *)
Lemma unload_entry_forgets_the_entry_witness :
  (fun h : hass_data => (h, @inr py_exn bool false)) hass_two_entries
  = (hass_two_entries, inr false) /\
  match getitem hass_two_entries "stream_recorder_to_s3" with
  | inl _ =>
      stream_recorder_to_s3.async_unload_entry "stream_recorder_to_s3"
        (fun h => (h, inr false)) hass_two_entries entry_one
      = (hass_two_entries, inl (KeyError "stream_recorder_to_s3"))
  | inr by_entry =>
      exists unloaded by_entry',
        stream_recorder_to_s3.async_unload_entry "stream_recorder_to_s3"
          (fun h => (h, inr false)) hass_two_entries entry_one
        = (unloaded, inr true) /\
        getitem unloaded "stream_recorder_to_s3" = inr by_entry' /\
        getitem by_entry' (ConfigEntry.entry_id entry_one)
        = inl (KeyError (ConfigEntry.entry_id entry_one)) /\
        (forall id, id <> ConfigEntry.entry_id entry_one ->
           getitem by_entry' id = getitem by_entry id) /\
        (forall domain, domain <> "stream_recorder_to_s3"%string ->
           getitem unloaded domain = getitem hass_two_entries domain)
  end.
Proof.
  split; [reflexivity|].
  exact (unload_entry_forgets_the_entry "stream_recorder_to_s3"
           (fun h => (h, inr false)) hass_two_entries entry_one
           hass_two_entries false eq_refl).
Defined.

(** * switch.py: the set-up of the platform *)

Lemma has_url_subscript d url :
  has_url d url ->
  subscript d "url" = inr (JString url) /\
  (has_name d \/ subscript d "name" = inl (KeyError "name")).
Proof.
  unfold has_url, has_name, dict_get, subscript.
  destruct d as [| | | | |members]; try discriminate.
  intros H. split.
  - destruct (find _ members) as [kv|]; [|discriminate]. congruence.
  - destruct (find (fun kv => String.eqb (fst kv) "name") members) as [kv|];
      [left; now exists (snd kv)|now right].
Qed.

(** The list comprehension over descriptors that the config flow accepts:
    it makes one entity of each when every descriptor has a name, and
    raises [KeyError] when one has none. *)
Lemma entities_of_accepted STREAM_LENGTH str_of config items :
  Forall (fun d => exists url, has_url d url /\ rtsp_or_rtmp url) items ->
  (Forall has_name items /\
   exists entities,
     switch.entities_of STREAM_LENGTH str_of config items = inr entities /\
     Forall2 (built_from STREAM_LENGTH str_of config) items entities)
  \/
  (~ Forall has_name items /\
   switch.entities_of STREAM_LENGTH str_of config items
   = inl (KeyError "name")).
Proof.
  induction 1 as [|d items (url & Hurl & Hscheme) _ IH].
  - left. split; [constructor|]. exists []. split; [reflexivity|constructor].
  - destruct (has_url_subscript d url Hurl) as (Hu & [(name & Hn)|Hn]).
    + destruct IH as [(Hnames & entities & He & Hb)|(Hnames & He)].
      * left. split; [constructor; [now exists name|exact Hnames]|].
        eexists. split; [simpl; rewrite Hn, Hu, He; reflexivity|].
        constructor; [|exact Hb]. now exists name, url.
      * right. split; [intros H; inversion H; tauto|].
        simpl. now rewrite Hn, Hu, He.
    + right. split.
      * intros H. inversion H as [|? ? (name & Hname) _]; subst. congruence.
      * simpl. now rewrite Hn.
Qed.

(** What [validate_input] has checked when it returns. *)
Lemma validate_input_accepted DOMAIN json_loads bucket data title :
  validate_input DOMAIN json_loads bucket data = inr title ->
  exists v items,
    json_loads (streams data) = Some v /\ iterate v = inr items /\
    Forall (fun d => exists url, has_url d url /\ rtsp_or_rtmp url) items.
Proof.
  unfold validate_input.
  destruct (json_loads (streams data)) as [v|] eqn:Hl; [|discriminate].
  destruct (validate_bucket_sync (bucket data)); [discriminate|].
  destruct (iterate v) as [e|items] eqn:Hi; [discriminate|].
  destruct (validate_streams items) as [e|[]] eqn:Hv; [discriminate|].
  intros _. exists v, items. split; [reflexivity|]. split; [exact Hi|].
  now apply validate_streams_sound.
Qed.

(** X13: the config flow looks at the url of a stream descriptor and never
    at its name, and the set-up of the platform reads both.  On a
    configuration that the config flow accepted, the set-up makes one
    entity of each descriptor, in order, switched off, with the url that
    was checked, when every descriptor has the key ["name"]; when one has
    not, it raises [KeyError] before any entity is handed to Home Assistant
    and leaves [hass.data] as it was. *)
Theorem accepted_configuration_sets_up_iff_named
    DOMAIN STREAM_LENGTH json_loads str_of bucket hass entry title :
  validate_input DOMAIN json_loads bucket (ConfigEntry.data entry)
  = inr title ->
  exists v items,
    json_loads (streams (ConfigEntry.data entry)) = Some v /\
    iterate v = inr items /\
    (Forall has_name items ->
     exists entities,
       switch.added (switch.async_setup_entry DOMAIN STREAM_LENGTH json_loads
                       str_of hass entry) = Some entities /\
       Forall2 (built_from STREAM_LENGTH str_of (ConfigEntry.data entry))
               items entities /\
       Forall (fun e => SwitchRecordCameraEntity._attr_is_on e = false)
              entities) /\
    (~ Forall has_name items ->
     switch.async_setup_entry DOMAIN STREAM_LENGTH json_loads str_of hass entry
     = {| switch.added := None; switch.hass_after := hass;
          switch.returned := inl (KeyError "name") |}).
Proof.
  intros Hv.
  destruct (validate_input_accepted _ _ _ _ _ Hv)
    as (v & items & Hloads & Hiter & Hurls).
  exists v, items. split; [exact Hloads|]. split; [exact Hiter|].
  unfold switch.async_setup_entry. rewrite Hloads, Hiter.
  destruct (entities_of_accepted STREAM_LENGTH str_of (ConfigEntry.data entry)
              items Hurls)
    as [(Hnames & entities & He & Hb)|(Hnames & He)]; rewrite He.
  - split; [|tauto]. intros _. exists entities.
    split; [|split; [exact Hb|]].
    + destruct (getitem hass DOMAIN) as [e|by_entry]; [reflexivity|].
      now destruct (getitem by_entry (ConfigEntry.entry_id entry)).
    + clear - Hb. induction Hb as [|d e items entities Hd _ IH];
        constructor; [|exact IH].
      destruct Hd as (name & url & _ & _ & _ & ->). reflexivity.
  - split; [tauto|]. intros _. reflexivity.
Qed.

(** X13 on the configuration with one stream. *)
Lemma accepted_configuration_sets_up_iff_named_witness :
  validate_input "stream_recorder_to_s3" (fun _ => Some one_stream_parsed)
    (fun _ => HeadBucketOk) (ConfigEntry.data entry_one)
  = inr "stream_recorder_to_s3"%string /\
  exists v items,
    (fun _ : string => Some one_stream_parsed)
      (streams (ConfigEntry.data entry_one)) = Some v /\
    iterate v = inr items /\
    (Forall has_name items ->
     exists entities,
       switch.added
         (switch.async_setup_entry "stream_recorder_to_s3" "60"
            (fun _ => Some one_stream_parsed) (fun _ => EmptyString)
            hass_two_entries entry_one) = Some entities /\
       Forall2 (built_from "60" (fun _ => EmptyString)
                  (ConfigEntry.data entry_one)) items entities /\
       Forall (fun e => SwitchRecordCameraEntity._attr_is_on e = false)
              entities) /\
    (~ Forall has_name items ->
     switch.async_setup_entry "stream_recorder_to_s3" "60"
       (fun _ => Some one_stream_parsed) (fun _ => EmptyString)
       hass_two_entries entry_one
     = {| switch.added := None; switch.hass_after := hass_two_entries;
          switch.returned := inl (KeyError "name") |}).
Proof.
  split; [reflexivity|].
  exact (accepted_configuration_sets_up_iff_named "stream_recorder_to_s3" "60"
           (fun _ => Some one_stream_parsed) (fun _ => EmptyString)
           (fun _ => HeadBucketOk) hass_two_entries entry_one
           "stream_recorder_to_s3" eq_refl).
Defined.

(** X14: the set-up of the platform hands the entities to Home Assistant
    before it looks at [hass.data].  When [hass.data[DOMAIN][entry_id]] is
    there, the list of entities is kept in it under ["entities"], beside
    what it holds, and nothing else of [hass.data] changes; when the domain
    or the entry id is not there, the set-up raises [KeyError] with the
    entities already handed over, and [hass.data] is as it was. *)
Theorem platform_setup_stores_entities
    DOMAIN STREAM_LENGTH json_loads str_of hass entry v items entities :
  json_loads (streams (ConfigEntry.data entry)) = Some v ->
  iterate v = inr items ->
  switch.entities_of STREAM_LENGTH str_of (ConfigEntry.data entry) items
  = inr entities ->
  switch.added (switch.async_setup_entry DOMAIN STREAM_LENGTH json_loads
                  str_of hass entry) = Some entities /\
  match getitem hass DOMAIN with
  | inl _ =>
      switch.returned (switch.async_setup_entry DOMAIN STREAM_LENGTH
                         json_loads str_of hass entry)
      = inl (KeyError DOMAIN) /\
      switch.hass_after (switch.async_setup_entry DOMAIN STREAM_LENGTH
                           json_loads str_of hass entry) = hass
  | inr by_entry =>
      match getitem by_entry (ConfigEntry.entry_id entry) with
      | inl _ =>
          switch.returned (switch.async_setup_entry DOMAIN STREAM_LENGTH
                             json_loads str_of hass entry)
          = inl (KeyError (ConfigEntry.entry_id entry)) /\
          switch.hass_after (switch.async_setup_entry DOMAIN STREAM_LENGTH
                               json_loads str_of hass entry) = hass
      | inr kept =>
          switch.returned (switch.async_setup_entry DOMAIN STREAM_LENGTH
                             json_loads str_of hass entry) = inr tt /\
          exists by_entry' kept',
            getitem (switch.hass_after
                       (switch.async_setup_entry DOMAIN STREAM_LENGTH
                          json_loads str_of hass entry)) DOMAIN
            = inr by_entry' /\
            getitem by_entry' (ConfigEntry.entry_id entry) = inr kept' /\
            getitem kept' "entities" = inr (Entities entities) /\
            (forall key, key <> "entities"%string ->
               getitem kept' key = getitem kept key) /\
            (forall id, id <> ConfigEntry.entry_id entry ->
               getitem by_entry' id = getitem by_entry id) /\
            (forall domain, domain <> DOMAIN ->
               getitem (switch.hass_after
                          (switch.async_setup_entry DOMAIN STREAM_LENGTH
                             json_loads str_of hass entry)) domain
               = getitem hass domain)
      end
  end.
Proof.
  intros Hloads Hiter He. unfold switch.async_setup_entry.
  rewrite Hloads, Hiter, He.
  destruct (getitem hass DOMAIN) as [e|by_entry] eqn:Hd.
  { cbn. split; [reflexivity|]. split; [|reflexivity].
    now rewrite (getitem_KeyError _ _ _ _ Hd). }
  destruct (getitem by_entry (ConfigEntry.entry_id entry)) as [e|kept] eqn:Hk.
  { cbn. split; [reflexivity|]. split; [|reflexivity].
    now rewrite (getitem_KeyError _ _ _ _ Hk). }
  cbn. split; [reflexivity|]. split; [reflexivity|].
  eexists _, _. split; [apply getitem_setitem|].
  split; [apply getitem_setitem|]. split; [apply getitem_setitem|].
  split; [intros key Hne; now apply getitem_setitem_other|].
  split; [intros id Hne; now apply getitem_setitem_other|].
  intros domain Hne. now apply getitem_setitem_other.
Qed.

(** X15: the two set-ups together.  When the forwarding of the set-up runs
    the set-up of the platform, on a configuration of which the platform
    can make its entities, the set-up of the integration returns [True]
    and [hass.data[DOMAIN][entry_id]] is the dict with the configuration of
    the entry under ["configuration"] and the list of the entities under
    ["entities"], and nothing else. *)
Theorem integration_setup_with_platform
    DOMAIN STREAM_LENGTH json_loads str_of hass entry v items entities :
  json_loads (streams (ConfigEntry.data entry)) = Some v ->
  iterate v = inr items ->
  switch.entities_of STREAM_LENGTH str_of (ConfigEntry.data entry) items
  = inr entities ->
  exists final by_entry,
    stream_recorder_to_s3.async_setup_entry DOMAIN
      (fun h =>
         (switch.hass_after
            (switch.async_setup_entry DOMAIN STREAM_LENGTH json_loads str_of
               h entry),
          switch.returned
            (switch.async_setup_entry DOMAIN STREAM_LENGTH json_loads str_of
               h entry)))
      hass entry
    = (final, inr true) /\
    getitem final DOMAIN = inr by_entry /\
    getitem by_entry (ConfigEntry.entry_id entry)
    = inr [("configuration"%string, Configuration (ConfigEntry.data entry));
           ("entities"%string, Entities entities)].
Proof.
  intros Hloads Hiter He.
  unfold stream_recorder_to_s3.async_setup_entry.
  destruct (getitem_setdefault _ hass DOMAIN []) as (Hdom & _).
  rewrite Hdom. unfold switch.async_setup_entry.
  rewrite Hloads, Hiter, He, !getitem_setitem. cbn.
  eexists _, _. split; [reflexivity|].
  split; [apply getitem_setitem|]. apply getitem_setitem.
Qed.

(** X14 on [hass.data] with two entries. *)
Lemma platform_setup_stores_entities_witness :
  (fun _ : string => Some one_stream_parsed)
    (streams (ConfigEntry.data entry_one)) = Some one_stream_parsed /\
  iterate one_stream_parsed = inr one_stream_items /\
  switch.entities_of "60" (fun _ => EmptyString) (ConfigEntry.data entry_one)
    one_stream_items = inr [cam_entity] /\
  switch.added (cam_setup hass_two_entries) = Some [cam_entity] /\
  switch.returned (cam_setup hass_two_entries) = inr tt /\
  exists by_entry' kept',
    getitem (switch.hass_after (cam_setup hass_two_entries))
      "stream_recorder_to_s3" = inr by_entry' /\
    getitem by_entry' (ConfigEntry.entry_id entry_one) = inr kept' /\
    getitem kept' "entities" = inr (Entities [cam_entity]) /\
    (forall key, key <> "entities"%string ->
       getitem kept' key
       = getitem [("configuration"%string, Configuration one_stream)] key) /\
    (forall id, id <> ConfigEntry.entry_id entry_one ->
       getitem by_entry' id
       = getitem [("entry-1"%string,
                   [("configuration"%string, Configuration one_stream)]);
                  ("entry-2"%string,
                   [("configuration"%string, Configuration one_stream)])]
           id) /\
    (forall domain, domain <> "stream_recorder_to_s3"%string ->
       getitem (switch.hass_after (cam_setup hass_two_entries)) domain
       = getitem hass_two_entries domain).
Proof.
  split; [reflexivity|]. split; [reflexivity|]. split; [reflexivity|].
  exact (platform_setup_stores_entities "stream_recorder_to_s3" "60"
           (fun _ => Some one_stream_parsed) (fun _ => EmptyString)
           hass_two_entries entry_one one_stream_parsed one_stream_items
           [cam_entity] eq_refl eq_refl eq_refl).
Defined.

(** X15 from an empty [hass.data]. *)
Lemma integration_setup_with_platform_witness :
  (fun _ : string => Some one_stream_parsed)
    (streams (ConfigEntry.data entry_one)) = Some one_stream_parsed /\
  iterate one_stream_parsed = inr one_stream_items /\
  switch.entities_of "60" (fun _ => EmptyString) (ConfigEntry.data entry_one)
    one_stream_items = inr [cam_entity] /\
  exists final by_entry,
    stream_recorder_to_s3.async_setup_entry "stream_recorder_to_s3"
      (fun h => (switch.hass_after (cam_setup h),
                 switch.returned (cam_setup h)))
      [] entry_one
    = (final, inr true) /\
    getitem final "stream_recorder_to_s3" = inr by_entry /\
    getitem by_entry (ConfigEntry.entry_id entry_one)
    = inr [("configuration"%string, Configuration one_stream);
           ("entities"%string, Entities [cam_entity])].
Proof.
  split; [reflexivity|]. split; [reflexivity|]. split; [reflexivity|].
  exact (integration_setup_with_platform "stream_recorder_to_s3" "60"
           (fun _ => Some one_stream_parsed) (fun _ => EmptyString)
           [] entry_one one_stream_parsed one_stream_items
           [cam_entity] eq_refl eq_refl eq_refl).
Defined.

(** * config_flow.py: when an entry is created, and which error is shown *)

Lemma validate_bucket_sync_ok a :
  validate_bucket_sync a = inr tt <-> a = HeadBucketOk.
Proof. destruct a; simpl; split; congruence. Qed.

Lemma validate_streams_complete items :
  Forall (fun d => exists url, has_url d url /\ rtsp_or_rtmp url) items ->
  validate_streams items = inr tt.
Proof.
  intros H. apply validate_streams_spec; [|exact H].
  apply Forall_impl with (2 := H). intros d (url & Hu & _). now exists url.
Qed.

(** X16: the config flow creates an entry exactly when the text of the
    streams is JSON, the bucket answers to [head_bucket], and the value
    parsed can be iterated and gives only dicts whose ["url"] is a string
    that begins with [rtsp://] or [rtmp://]; the title of the entry is
    [DOMAIN] and its data are the input as it was given. *)
Theorem entry_created_iff DOMAIN json_loads bucket data title data' :
  async_step_user DOMAIN json_loads bucket (Some data)
  = CreateEntry title data'
  <->
  title = DOMAIN /\ data' = data /\ bucket data = HeadBucketOk /\
  exists v items,
    json_loads (streams data) = Some v /\ iterate v = inr items /\
    Forall (fun d => exists url, has_url d url /\ rtsp_or_rtmp url) items.
Proof.
  unfold async_step_user. split.
  - destruct (validate_input DOMAIN json_loads bucket data) as [e|t] eqn:Hv;
      [destruct e; discriminate|].
    intros H. injection H as <- <-.
    pose proof (validate_input_accepted _ _ _ _ _ Hv) as Hacc.
    unfold validate_input in Hv.
    destruct (json_loads (streams data)) as [v|]; [|discriminate].
    destruct (validate_bucket_sync (bucket data)) as [e|[]] eqn:Hb;
      [discriminate|].
    destruct (iterate v) as [e|items]; [discriminate|].
    destruct (validate_streams items); [discriminate|].
    injection Hv as <-.
    split; [reflexivity|]. split; [reflexivity|].
    split; [now apply validate_bucket_sync_ok|exact Hacc].
  - intros (-> & -> & Hb & v & items & Hl & Hi & Hf).
    unfold validate_input. rewrite Hl, Hb, Hi. cbn [validate_bucket_sync].
    now rewrite (validate_streams_complete _ Hf).
Qed.

(** The loop over the descriptors goes past the ones it accepts. *)
Lemma validate_streams_app good rest :
  Forall (fun d => exists url, has_url d url /\ rtsp_or_rtmp url) good ->
  validate_streams (good ++ rest) = validate_streams rest.
Proof.
  induction 1 as [|d good (url & Hu & Hs) _ IH]; [reflexivity|].
  cbn [app validate_streams]. unfold has_url in Hu. rewrite Hu.
  now rewrite (proj2 (proj1 (check_url_spec url)) Hs).
Qed.

(** X17: the first stream descriptor that is not accepted decides what the
    form shows, whatever comes after it: [invalid_stream_url] when its
    ["url"] is a string (of another scheme), and [unknown] when it is not a
    dict, has no ["url"], or has a ["url"] that is not a string. *)
Theorem first_bad_descriptor_decides
    DOMAIN json_loads bucket data v good bad rest :
  json_loads (streams data) = Some v -> bucket data = HeadBucketOk ->
  iterate v = inr (good ++ bad :: rest) ->
  Forall (fun d => exists url, has_url d url /\ rtsp_or_rtmp url) good ->
  ~ (exists url, has_url bad url /\ rtsp_or_rtmp url) ->
  ((exists url, has_url bad url) ->
   async_step_user DOMAIN json_loads bucket (Some data)
   = ShowForm (Some "invalid_stream_url"%string)) /\
  (~ (exists url, has_url bad url) ->
   async_step_user DOMAIN json_loads bucket (Some data)
   = ShowForm (Some "unknown"%string)).
Proof.
  intros Hl Hb Hi Hgood Hbad.
  unfold async_step_user, validate_input. rewrite Hl, Hb, Hi.
  cbn [validate_bucket_sync]. rewrite (validate_streams_app _ _ Hgood).
  cbn [validate_streams]. split.
  - intros (url & Hu). pose proof Hu as Hu'. unfold has_url in Hu'.
    rewrite Hu'.
    assert (Hs : ~ rtsp_or_rtmp url) by (intros Hs; apply Hbad; now exists url).
    now rewrite (proj2 (proj2 (check_url_spec url)) Hs).
  - intros Hno. unfold has_url in Hno.
    destruct (dict_get bad "url") as [e|u] eqn:Hd.
    + unfold dict_get in Hd. destruct bad; try discriminate;
        injection Hd as <-; reflexivity.
    + destruct u as [| | |url| |]; try reflexivity.
      exfalso. apply Hno. now exists url.
Qed.

(** X17 on a list whose second descriptor has no url. *)
Lemma first_bad_descriptor_decides_witness :
  (fun _ : string => Some three_streams_parsed) (streams one_stream)
  = Some three_streams_parsed /\
  (fun _ : user_input => HeadBucketOk) one_stream = HeadBucketOk /\
  iterate three_streams_parsed
  = inr ([cam_descriptor] ++ door_descriptor :: [JString "garden"]) /\
  Forall (fun d => exists url, has_url d url /\ rtsp_or_rtmp url)
         [cam_descriptor] /\
  ~ (exists url, has_url door_descriptor url /\ rtsp_or_rtmp url) /\
  ((exists url, has_url door_descriptor url) ->
   async_step_user "stream_recorder_to_s3" (fun _ => Some three_streams_parsed)
     (fun _ => HeadBucketOk) (Some one_stream)
   = ShowForm (Some "invalid_stream_url"%string)) /\
  (~ (exists url, has_url door_descriptor url) ->
   async_step_user "stream_recorder_to_s3" (fun _ => Some three_streams_parsed)
     (fun _ => HeadBucketOk) (Some one_stream)
   = ShowForm (Some "unknown"%string)).
Proof.
  assert (Hgood : Forall (fun d => exists url, has_url d url /\ rtsp_or_rtmp url)
                         [cam_descriptor]).
  { constructor; [|constructor]. exists "rtsp://camera.local/live"%string.
    split; [reflexivity|]. left. now exists "camera.local/live"%string. }
  assert (Hbad : ~ (exists url, has_url door_descriptor url /\ rtsp_or_rtmp url)).
  { intros (url & Hu & _). discriminate Hu. }
  split; [reflexivity|]. split; [reflexivity|]. split; [reflexivity|].
  split; [exact Hgood|]. split; [exact Hbad|].
  exact (first_bad_descriptor_decides "stream_recorder_to_s3"
           (fun _ => Some three_streams_parsed) (fun _ => HeadBucketOk)
           one_stream three_streams_parsed [cam_descriptor] door_descriptor
           [JString "garden"] eq_refl eq_refl eq_refl Hgood Hbad).
Defined.

(** X18: a text of streams that is JSON but no list.  With a bucket that
    answers, a value that gives nothing to iterate over (the empty list,
    but also the empty dict and the empty string) creates an entry with no
    stream; every other value that is no list (a dict with keys, a string
    with characters, a number, a boolean, null) makes the form show
    [unknown], not [invalid_stream_url]. *)
Theorem streams_that_are_no_list DOMAIN json_loads bucket data v :
  json_loads (streams data) = Some v -> bucket data = HeadBucketOk ->
  (iterate v = inr [] ->
   async_step_user DOMAIN json_loads bucket (Some data)
   = CreateEntry DOMAIN data) /\
  ((forall items, v <> JArray items) -> iterate v <> inr [] ->
   async_step_user DOMAIN json_loads bucket (Some data)
   = ShowForm (Some "unknown"%string)).
Proof.
  intros Hl Hb. unfold async_step_user, validate_input.
  rewrite Hl, Hb. cbn [validate_bucket_sync]. split.
  - intros ->. reflexivity.
  - intros Hno Hne.
    destruct v as [| | |s|items|members]; try reflexivity.
    + destruct s as [|c s]; [now elim Hne|reflexivity].
    + now elim (Hno items).
    + destruct members as [|kv members]; [now elim Hne|reflexivity].
Qed.

(** X18 on the text of one descriptor that is not put in a list. *)
Lemma streams_that_are_no_list_witness :
  (fun _ : string => Some cam_descriptor) (streams one_stream)
  = Some cam_descriptor /\
  (fun _ : user_input => HeadBucketOk) one_stream = HeadBucketOk /\
  (iterate cam_descriptor = inr [] ->
   async_step_user "stream_recorder_to_s3" (fun _ => Some cam_descriptor)
     (fun _ => HeadBucketOk) (Some one_stream)
   = CreateEntry "stream_recorder_to_s3" one_stream) /\
  ((forall items, cam_descriptor <> JArray items) ->
   iterate cam_descriptor <> inr [] ->
   async_step_user "stream_recorder_to_s3" (fun _ => Some cam_descriptor)
     (fun _ => HeadBucketOk) (Some one_stream)
   = ShowForm (Some "unknown"%string)).
Proof.
  split; [reflexivity|]. split; [reflexivity|].
  exact (streams_that_are_no_list "stream_recorder_to_s3"
           (fun _ => Some cam_descriptor) (fun _ => HeadBucketOk)
           one_stream cam_descriptor eq_refl eq_refl).
Defined.

(** * The ways out of the recording job *)

Lemma upload_loop_returns_off t script :
  forall process s,
    value (upload_loop t script process s) = Ok tt ->
    _attr_is_on (final (upload_loop t script process s)) = false.
Proof.
  induction script as [|[|se] rest IH]; intros process s.
  - cbn [upload_loop]. rewrite bind_get_is_on.
    destruct (_attr_is_on s) eqn:Hon; simpl; [discriminate|auto].
  - now rewrite upload_loop_stop.
  - destruct (_attr_is_on s) eqn:Hon;
      [|now rewrite upload_loop_off by exact Hon].
    rewrite upload_loop_step by exact Hon. unfold bind.
    destruct (segment t se process s) as [evs f [q| |]]; try discriminate.
    specialize (IH q f).
    destruct (upload_loop t rest q f) as [evs' f' v']. exact IH.
Qed.

(** X19: the recording job returns only with the on flag off: as long as no
    turn_off lands and no capture error switches the entity off, the outer
    loop goes from segment to segment, and the job ends, if it ends, by an
    exception. *)
Theorem job_returns_only_when_off t w s :
  value (upload_to_s3_sync t w s) = Ok tt ->
  _attr_is_on (final (upload_to_s3_sync t w s)) = false.
Proof.
  destruct (w_client w) as [b|] eqn:Hc.
  - rewrite (upload_to_s3_sync_client_fails _ _ _ _ Hc). discriminate.
  - rewrite (upload_to_s3_sync_client_ok _ _ _ Hc).
    pose proof (upload_loop_returns_off t (w_script w) None s) as H.
    destruct (upload_loop t (w_script w) None s) as [evs f v]. exact H.
Qed.

(** X19 on the job that a turn_off stops. *)
Lemma job_returns_only_when_off_witness :
  value (upload_to_s3_sync THRESHOLD w_stopped active) = Ok tt /\
  _attr_is_on (final (upload_to_s3_sync THRESHOLD w_stopped active)) = false.
Proof.
  split; [reflexivity|].
  exact (job_returns_only_when_off THRESHOLD w_stopped active eq_refl).
Defined.

(** X20: a launch that fails in a pass after one in which a capture process
    was launched.  The entity is switched off; the [finally] clause finds
    [process] still bound to the process of the earlier pass, which was
    reaped then, and calls [terminate] and [wait] on it once more; the
    upload just created is left open; and the job returns without an
    error. *)
Theorem later_launch_failure_reaps_the_earlier_process
    t se rest earlier s u e :
  _attr_is_on s = true ->
  se_create se = inr u -> se_popen se = inl e ->
  upload_loop t (WSegment se :: rest) (Some earlier) s
  = {| events := [EvCreateMultipartUpload (inr u); EvPopen (inl e);
                  EvSetIsOn false; EvScheduleUpdate false;
                  EvTerminate earlier; EvWait earlier];
       final := {| _attr_is_on := false |}; value := Ok tt |}.
Proof.
  intros Hon Hc Hp. rewrite upload_loop_step by exact Hon.
  assert (Hseg : segment t se (Some earlier) s
                 = {| events := [EvCreateMultipartUpload (inr u);
                                 EvPopen (inl e);
                                 EvSetIsOn false; EvScheduleUpdate false;
                                 EvTerminate earlier; EvWait earlier];
                      final := {| _attr_is_on := false |};
                      value := Ok (Some earlier) |}).
  { unfold segment, create_multipart_upload, bound_process, popen.
    rewrite Hc, Hp. destruct s as [on]. simpl in Hon. subst on.
    reflexivity. }
  rewrite (bind_eq _ _ _ _ _ _ _ _ Hseg).
  rewrite upload_loop_off by reflexivity. reflexivity.
Qed.

(** X20 on a pass that follows the pass of process 101. *)
Lemma later_launch_failure_reaps_the_earlier_process_witness :
  _attr_is_on active = true /\
  se_create se_launch_fails = inr "upload-1"%string /\
  se_popen se_launch_fails = inl OSError /\
  upload_loop THRESHOLD [WSegment se_launch_fails; WSegment se_stopped]
    (Some 101%N) active
  = {| events := [EvCreateMultipartUpload (inr "upload-1"%string);
                  EvPopen (inl OSError);
                  EvSetIsOn false; EvScheduleUpdate false;
                  EvTerminate 101%N; EvWait 101%N];
       final := {| _attr_is_on := false |}; value := Ok tt |}.
Proof.
  split; [reflexivity|]. split; [reflexivity|]. split; [reflexivity|].
  exact (later_launch_failure_reaps_the_earlier_process THRESHOLD
           se_launch_fails [WSegment se_stopped] 101%N active
           "upload-1"%string OSError eq_refl eq_refl eq_refl).
Defined.

(** X21: the order of the checks of the config flow.  A text of streams
    that is no JSON makes the form show [invalid_stream_url] whatever the
    bucket would answer; with a text that is JSON, a bucket that does not
    answer to [head_bucket] decides the error whatever the streams hold:
    [invalid_auth] for [NoCredentialsError], [cannot_connect] for
    [EndpointConnectionError] and for every other error of [head_bucket],
    and [unknown] when [boto3.client] itself raises. *)
Theorem bucket_is_checked_before_the_streams DOMAIN json_loads bucket data :
  (json_loads (streams data) = None ->
   async_step_user DOMAIN json_loads bucket (Some data)
   = ShowForm (Some "invalid_stream_url"%string)) /\
  (forall v,
     json_loads (streams data) = Some v -> bucket data <> HeadBucketOk ->
     async_step_user DOMAIN json_loads bucket (Some data)
     = ShowForm (Some match bucket data with
                      | HeadNoCredentialsError => "invalid_auth"%string
                      | ClientRaises => "unknown"%string
                      | _ => "cannot_connect"%string
                      end)).
Proof.
  unfold async_step_user, validate_input. split.
  - intros ->. reflexivity.
  - intros v -> Hb. destruct (bucket data); try reflexivity. congruence.
Qed.
